(** * Empirical interpolation (EI-Greedy, DEIM) and Newton's method of pyMOR

    A shallow embedding of [src/pymor/algorithms/ei.py] and
    [src/pymor/algorithms/newton.py].

    - Python exceptions are an explicit outcome ([Raised e]); a [while True]
      loop is a fuelled fixpoint whose third outcome, [OutOfFuel], is proved
      unreachable for well-formed input.
    - The scalars of [ei.py] are kept abstract (a class of operations), so
      every theorem holds for whatever deterministic arithmetic the vector
      backend provides; an exact instance on [Q] and the binary64 instance
      are used to run the code.
    - The norms of [newton.py] are binary64 floats ([PrimFloat]), since its
      control flow depends on comparisons with [inf] and [nan].
    - The discretization, the operators and the worker pool of
      [interpolate_operators] are collaborators: parameters of the model. *)

From Stdlib Require Import List Arith ZArith QArith Qabs Bool Lia.
From Stdlib Require Import Floats.
From Stdlib Require String.
Import ListNotations.
Import String.StringSyntax.
Delimit Scope string_scope with string.
Bind Scope string_scope with String.string.

Close Scope Q_scope.
Open Scope nat_scope.

Set Implicit Arguments.

(** ** Exceptions and outcomes *)

Inductive newton_message : Type :=
| Failed_to_converge
| Could_not_invert_jacobian.

Inductive exn : Type :=
| ValueError        (* arg-max / max of an empty sequence, unknown method *)
| IndexError        (* index out of range *)
| LinAlgError       (* numpy.linalg.solve on a singular matrix *)
| NewtonError (m : newton_message).

Inductive outcome (A : Type) : Type :=
| Ok (a : A)
| Raised (e : exn)
| OutOfFuel.

Arguments Ok {A} a.
Arguments Raised {A} e.
Arguments OutOfFuel {A}.

Definition bind {A B : Type} (c : outcome A) (k : A -> outcome B) : outcome B :=
  match c with
  | Ok a => k a
  | Raised e => Raised e
  | OutOfFuel => OutOfFuel
  end.

Declare Scope outcome_scope.
Delimit Scope outcome_scope with outcome.
Notation "x <- c ;; k" := (bind c (fun x => k))
  (at level 61, c at next level, right associativity) : outcome_scope.
Notation "' p <- c ;; k" := (bind c (fun p => k))
  (at level 61, p pattern, c at next level, right associativity) : outcome_scope.
Open Scope outcome_scope.

(** [mapM f l]: run [f] on every element, left to right; the first exception
    aborts the whole map (a list comprehension, or [pool.apply]). *)
Fixpoint mapM {A B : Type} (f : A -> outcome B) (l : list A) : outcome (list B) :=
  match l with
  | [] => Ok []
  | a :: l' => b <- f a ;; bs <- mapM f l' ;; Ok (b :: bs)
  end.

(** Python's [seq[i]] for a non-negative index. *)
Definition getitem {A : Type} (l : list A) (i : nat) : outcome A :=
  match nth_error l i with
  | Some a => Ok a
  | None => Raised IndexError
  end.

(** ** Scalars *)

Class Scalar (R : Type) : Type := {
  zero : R;
  one : R;
  add : R -> R -> R;
  sub : R -> R -> R;
  mul : R -> R -> R;
  div : R -> R -> R;
  opp : R -> R;
  abs : R -> R;
  ltb : R -> R -> bool;       (* x < y in the order of numpy's max and
                                 argmax: a nan is above every number *)
  leb : R -> R -> bool;       (* x <= y *)
  is_zero : R -> bool         (* x == 0. *)
}.

Module EI.

Section Algorithms.

Context {R : Type} {SR : Scalar R}.

(** A vector is the list of its DOF values, a |VectorArray| the list of its
    vectors. *)
Definition vector : Type := list R.
Definition VectorArray : Type := list vector.

(** The array is well formed when all its vectors live in the same space. *)
Definition wf_array (dim : nat) (U : VectorArray) : Prop :=
  Forall (fun v => length v = dim) U.

(** *** numpy *)

(** [argmax_from bi bx i l]: scan [l] (whose first element has index [i])
    with the best index-value pair so far; a later element replaces the best
    one only when it is strictly greater, so the first maximum wins. *)
Fixpoint argmax_from (bi : nat) (bx : R) (i : nat) (l : list R) : nat :=
  match l with
  | [] => bi
  | y :: l' => if ltb bx y then argmax_from i y (S i) l'
               else argmax_from bi bx (S i) l'
  end.

(** [np.argmax]: index of the first maximum; [ValueError] on an empty
    sequence. [ltb] is the order of numpy's arg-max, in which a [nan] is
    above every number and no [nan] is above another: the scan returns the
    index of the first [nan] when there is one, as numpy does. *)
Definition np_argmax (l : list R) : outcome nat :=
  match l with
  | [] => Raised ValueError
  | x :: l' => Ok (argmax_from 0 x 1 l')
  end.

(** [np.max]: the maximum; [ValueError] on an empty array. *)
Definition np_max (l : list R) : outcome R :=
  match l with
  | [] => Raised ValueError
  | x :: l' => Ok (fold_left (fun m y => if ltb m y then y else m) l' x)
  end.

(** [x in a] for an integer array. *)
Definition in_dofs (d : nat) (a : list nat) : bool := existsb (Nat.eqb d) a.

(** [M.T] of a matrix given by its rows, [ncols] being its number of columns
    (a matrix without rows still has [ncols] columns). *)
Fixpoint transpose (ncols : nat) (rows : list (list R)) : list (list R) :=
  match rows with
  | [] => repeat [] ncols
  | r :: rows' => map (fun p => fst p :: snd p) (combine r (transpose ncols rows'))
  end.

(** [np.tril(M)]: entries above the diagonal replaced by zero. *)
Definition tril_row (i : nat) (row : list R) : list R :=
  map (fun p => if (fst p <=? i)%nat then snd p else zero)
      (combine (seq 0 (length row)) row).

Definition np_tril (M : list (list R)) : list (list R) :=
  map (fun p => tril_row (fst p) (snd p)) (combine (seq 0 (length M)) M).

(** [np.abs(A - B)], entry by entry. *)
Definition abs_diff (A B : list (list R)) : list (list R) :=
  map (fun p => map (fun q => abs (sub (fst q) (snd q))) (combine (fst p) (snd p)))
      (combine A B).

(** [A[:d, :d]], flattened. *)
Definition leading_block (d : nat) (A : list (list R)) : list R :=
  concat (map (firstn d) (firstn d A)).

(** *** The |VectorArray| operations used by the algorithms *)

(** Modelled from the spec: the |VectorArray| interface (its implementation
    is not part of the sources). [dofs(indices)] extracts the named degrees
    of freedom as a matrix, rows = vectors, columns = indices; an index
    outside the space raises. *)
Definition dof (v : vector) (d : nat) : outcome R := getitem v d.

Definition dofs (U : VectorArray) (ind : list nat) : outcome (list (list R)) :=
  mapM (fun v => mapM (dof v) ind) U.

(** [U.dofs([d])[:, 0]]: the column of the values of every vector at [d]. *)
Definition dofs_column (U : VectorArray) (d : nat) : outcome (list R) :=
  mapM (fun v => dof v d) U.

(** Modelled from the spec: [amax()], the index of the largest-magnitude
    entry of a vector (of the first vector of the array: [amax()[0][0]]). *)
Definition amax (v : vector) : outcome nat := np_argmax (map abs v).

(** Modelled from the spec: [scal], in-place scalar multiply ([v *= alpha]). *)
Definition scal (alpha : R) (v : vector) : vector := map (fun x => mul x alpha) v.

Definition vadd (u v : vector) : vector :=
  map (fun p => add (fst p) (snd p)) (combine u v).

Definition vsub (u v : vector) : vector :=
  map (fun p => sub (fst p) (snd p)) (combine u v).

(** Modelled from the spec: [U.axpy(alpha, x)], the in-place scaled add
    [U[i] += alpha[i] * x] with one coefficient per vector of [U]. *)
Definition axpy (alpha : list R) (x : vector) (U : VectorArray) : VectorArray :=
  map (fun p => vadd (snd p) (scal (fst p) x)) (combine alpha U).

(** Modelled from the spec: [lincomb(coefficients)] for one row of
    coefficients: the vector [sum_j c_j * B[j]] in a space of dimension
    [dim]. *)
Definition lincomb (dim : nat) (B : VectorArray) (c : list R) : vector :=
  fold_left (fun acc p => vadd acc (scal (fst p) (snd p))) (combine c B)
            (repeat zero dim).

(** Modelled from the spec: [l2_norm()], the Euclidean norm of a vector; the
    caller's [error_norm], when given, replaces it. Both act vector by
    vector. *)
Variable l2_norm : vector -> R.

Definition norms (error_norm : option (vector -> R)) (ERR : VectorArray) : list R :=
  match error_norm with
  | None => map l2_norm ERR
  | Some f => map f ERR
  end.

(** *** [ei_greedy], sequential path (lines 82-154) *)

Record ei_data : Type := mk_data {
  errors : list R;
  triangularity_errors : list R
}.

Definition ei_result : Type := (list nat * VectorArray * ei_data)%type.

(** The variables of the main loop. *)
Record ei_state : Type := mk_state {
  interpolation_dofs : list nat;
  collateral_basis : VectorArray;
  max_errs : list R;
  ERR : VectorArray;          (* [U] and [ERR] name the same array *)
  max_err_ind : nat;
  max_err : R
}.

Section Parameters.

Variable error_norm : option (vector -> R).
Variable atol rtol : option R.
Variable max_interpolation_dofs : option Z.

(** The three stopping checks at the head of the loop. *)
Definition dofs_limit_reached (n : nat) : bool :=
  match max_interpolation_dofs with
  | Some m => (m <=? Z.of_nat n)%Z
  | None => false
  end.

Definition atol_reached (e : R) : bool :=
  match atol with
  | Some a => leb e a
  | None => false
  end.

Definition rtol_reached (e initial_max_err : R) : bool :=
  match rtol with
  | Some r => leb (div e initial_max_err) r
  | None => false
  end.

Fixpoint ei_loop (fuel : nat) (initial_max_err : R) (st : ei_state)
  : outcome ei_state :=
  match fuel with
  | O => OutOfFuel
  | S fuel' =>
    if dofs_limit_reached (length (interpolation_dofs st)) then Ok st
    else if atol_reached (max_err st) then Ok st
    else if rtol_reached (max_err st) initial_max_err then Ok st
    else
      (* compute new interpolation dof and collateral basis vector *)
      new_vec <- getitem (ERR st) (max_err_ind st) ;;
      new_dof <- amax new_vec ;;
      if in_dofs new_dof (interpolation_dofs st) then Ok st
      else
        new_dof_value <- dof new_vec new_dof ;;
        if is_zero new_dof_value then Ok st
        else
          let new_vec := scal (div one new_dof_value) new_vec in
          (* update U and ERR *)
          new_dof_values <- dofs_column (ERR st) new_dof ;;
          let U' := axpy (map opp new_dof_values) new_vec (ERR st) in
          let errs := norms error_norm U' in
          i <- np_argmax errs ;;
          e <- getitem errs i ;;
          ei_loop fuel' initial_max_err
            (mk_state (interpolation_dofs st ++ [new_dof])
                      (collateral_basis st ++ [new_vec])
                      (max_errs st ++ [max_err st])
                      U' i e)
  end.

(** The code after the loop: the interpolation matrix and, for each leading
    block, the largest entry above the diagonal. *)
Definition triangularity (basis : VectorArray) (idofs : list nat)
  : outcome (list R) :=
  B <- dofs basis idofs ;;
  let interpolation_matrix := transpose (length idofs) B in
  let triangularity_errors :=
    abs_diff interpolation_matrix (np_tril interpolation_matrix) in
  mapM (fun d => np_max (leading_block d triangularity_errors))
       (seq 1 (length interpolation_matrix)).

Definition ei_finish (st : ei_state) : outcome ei_result :=
  triangularity_errs <- triangularity (collateral_basis st) (interpolation_dofs st) ;;
  Ok (interpolation_dofs st, collateral_basis st,
      mk_data (max_errs st) triangularity_errs).

(** The dimension of the space of [U]: the loop selects a new DOF at every
    turn that continues, so [dim + 1] turns are enough (lemma
    [ei_loop_fuel]). *)
Definition space_dim (U : VectorArray) : nat :=
  match U with
  | [] => 0
  | v :: _ => length v
  end.

(** [ei_greedy] without a pool. (With a pool it scatters [U] and calls
    [_parallel_ei_greedy], below.) [copy] only decides whether the caller's
    array is overwritten; the returned values do not depend on it. *)
Definition ei_greedy (U : VectorArray) (copy : bool) : outcome ei_result :=
  let errs := norms error_norm U in
  i <- np_argmax errs ;;
  e <- getitem errs i ;;
  st <- ei_loop (S (space_dim U)) e (mk_state [] [] [] U i e) ;;
  ei_finish st.

(** *** [_parallel_ei_greedy], distributed path (lines 348-449) *)

(** The dict pushed to every worker ([distributed_data]): its shard of the
    array and the index of its worst vector. The error norm stored under
    ['error_norm'] is the same on every worker and stays a parameter. *)
Record worker_data : Type := mk_worker {
  w_U : VectorArray;
  w_max_err_ind : nat
}.

(** The functions run on the workers (lines 422-449). Each returns the new
    contents of the worker's dict with its result. *)
Definition _parallel_ei_greedy_initialize (U : VectorArray) (copy : bool)
  : outcome (worker_data * R) :=
  let errs := norms error_norm U in
  i <- np_argmax errs ;;
  e <- getitem errs i ;;
  Ok (mk_worker U i, e).

Definition _parallel_ei_greedy_get_vector (data : worker_data) : outcome vector :=
  getitem (w_U data) (w_max_err_ind data).

Definition _parallel_ei_greedy_update (new_vec : vector) (new_dof : nat)
  (data : worker_data) : outcome (worker_data * R) :=
  new_dof_values <- dofs_column (w_U data) new_dof ;;
  let U' := axpy (map opp new_dof_values) new_vec (w_U data) in
  let errs := norms error_norm U' in
  i <- np_argmax errs ;;
  e <- getitem errs i ;;
  Ok (mk_worker U' i, e).

(** Modelled from the spec: the worker pool, which is not part of the
    sources. A distributed object is the list of the workers' parts, in
    worker order; [pool.apply] runs a function on every worker and gathers
    the results in that order, [pool.apply_only] runs it on one worker. *)
Definition pool_apply {A B : Type} (f : A -> outcome B) (workers : list A)
  : outcome (list B) := mapM f workers.

Definition pool_apply_only {A B : Type} (f : A -> outcome B) (worker : nat)
  (workers : list A) : outcome B :=
  w <- getitem workers worker ;; f w.

Definition _parallel_ei_greedy_get_empty (U : VectorArray) : outcome VectorArray :=
  Ok [].

(** The coordinator's variables. *)
Record par_state : Type := mk_par {
  p_interpolation_dofs : list nat;
  p_collateral_basis : VectorArray;
  p_max_errs : list R;
  distributed_data : list worker_data;
  p_max_err_ind : nat;        (* index of the worker holding the worst vector *)
  p_max_err : R
}.

Fixpoint par_loop (fuel : nat) (initial_max_err : R) (st : par_state)
  : outcome par_state :=
  match fuel with
  | O => OutOfFuel
  | S fuel' =>
    if dofs_limit_reached (length (p_interpolation_dofs st)) then Ok st
    else if atol_reached (p_max_err st) then Ok st
    else if rtol_reached (p_max_err st) initial_max_err then Ok st
    else
      new_vec <- pool_apply_only _parallel_ei_greedy_get_vector
                   (p_max_err_ind st) (distributed_data st) ;;
      new_dof <- amax new_vec ;;
      if in_dofs new_dof (p_interpolation_dofs st) then Ok st
      else
        new_dof_value <- dof new_vec new_dof ;;
        if is_zero new_dof_value then Ok st
        else
          let new_vec := scal (div one new_dof_value) new_vec in
          r <- pool_apply (_parallel_ei_greedy_update new_vec new_dof)
                 (distributed_data st) ;;
          let errs := map snd r in
          i <- np_argmax errs ;;
          e <- getitem errs i ;;
          par_loop fuel' initial_max_err
            (mk_par (p_interpolation_dofs st ++ [new_dof])
                    (p_collateral_basis st ++ [new_vec])
                    (p_max_errs st ++ [p_max_err st])
                    (map fst r) i e)
  end.

Definition par_finish (st : par_state) : outcome ei_result :=
  triangularity_errs <-
    triangularity (p_collateral_basis st) (p_interpolation_dofs st) ;;
  Ok (p_interpolation_dofs st, p_collateral_basis st,
      mk_data (p_max_errs st) triangularity_errs).

(** [U] is the distributed array: one shard per worker. *)
Definition _parallel_ei_greedy (U : list VectorArray) (copy : bool)
  : outcome ei_result :=
  basis <- pool_apply_only _parallel_ei_greedy_get_empty 0 U ;;
  r <- pool_apply (fun shard => _parallel_ei_greedy_initialize shard copy) U ;;
  let errs := map snd r in
  i <- np_argmax errs ;;
  e <- getitem errs i ;;
  st <- par_loop (S (space_dim (concat U))) e
          (mk_par [] basis [] (map fst r) i e) ;;
  par_finish st.

End Parameters.

(** *** [deim] (lines 157-233) *)

Section Deim.

(** The POD routine and [numpy.linalg.solve] are collaborators: parameters
    of the model. [solve M b] solves [M x = b] for one right-hand side. *)
Variables Product PodOptions : Type.
Variable pod : VectorArray -> option Z -> option R -> option R ->
               option Product -> PodOptions -> outcome (VectorArray * list R).
Variable solve : list (list R) -> list R -> outcome (list R).

(** The interpolation residual of basis vector [v] for the DOFs chosen so
    far. *)
Definition deim_residual (basis : VectorArray) (idofs : list nat)
  (interpolation_matrix : list (list R)) (v : vector) : outcome vector :=
  if (0 <? length idofs)%nat then
    rhs <- mapM (dof v) idofs ;;
    coefficients <- solve interpolation_matrix rhs ;;
    let U_interpolated :=
      lincomb (length v) (firstn (length idofs) basis) coefficients in
    Ok (vsub v U_interpolated)
  else Ok v.

(** The [for i in range(len(collateral_basis))] loop over the indices still
    to visit; [break] returns the DOFs chosen so far. *)
Fixpoint deim_loop (basis : VectorArray) (todo : list nat)
  (idofs : list nat) (interpolation_matrix : list (list R))
  : outcome (list nat) :=
  match todo with
  | [] => Ok idofs
  | i :: todo' =>
    v <- getitem basis i ;;
    ERR <- deim_residual basis idofs interpolation_matrix v ;;
    new_dof <- amax ERR ;;
    if in_dofs new_dof idofs then Ok idofs
    else
      let idofs' := idofs ++ [new_dof] in
      B <- dofs (firstn (length idofs') basis) idofs' ;;
      deim_loop basis todo' idofs' (transpose (length idofs') B)
  end.

Record deim_data : Type := mk_deim_data { svals : list R }.

Definition deim (U : VectorArray) (modes : option Z) (atol rtol : option R)
  (product : option Product) (pod_options : PodOptions)
  : outcome (list nat * VectorArray * deim_data) :=
  '(basis, sv) <- pod U modes atol rtol product pod_options ;;
  idofs <- deim_loop basis (seq 0 (length basis)) [] [] ;;
  let basis' :=
    if (length idofs <? length basis)%nat then firstn (length idofs) basis
    else basis in
  Ok (idofs, basis', mk_deim_data sv).

End Deim.

End Algorithms.

Arguments vector R : clear implicits.
Arguments VectorArray R : clear implicits.
Arguments ei_data R : clear implicits.
Arguments ei_state R : clear implicits.
Arguments ei_result R : clear implicits.
Arguments worker_data R : clear implicits.
Arguments par_state R : clear implicits.
Arguments deim_data R : clear implicits.

(** *** An exact instance: rational arithmetic

    Every operation returns the reduced fraction, so that equal rationals
    are equal terms. The Euclidean norm is exact on the vectors whose squared
    norm is the square of a rational, which is all the examples below use. *)

#[export] Instance ScalarQ : Scalar Q := {
  zero := 0%Q;
  one := 1%Q;
  add x y := Qred (x + y);
  sub x y := Qred (x - y);
  mul x y := Qred (x * y);
  div x y := Qred (x / y);
  opp x := Qred (- x);
  abs x := Qred (Qabs x);
  ltb x y := negb (Qle_bool y x);
  leb x y := Qle_bool x y;
  is_zero x := Qeq_bool x 0
}.

Definition sqrtQ (q : Q) : Q :=
  let q' := Qred q in Z.sqrt (Qnum q') # Pos.sqrt (Qden q').

Definition l2_normQ (v : list Q) : Q :=
  sqrtQ (fold_left (fun s x => Qred (s + x * x)) v 0%Q).

(** A stand-in for [numpy.linalg.solve]: Gauss-Jordan elimination on the
    rows of the augmented matrix, [LinAlgError] when no pivot is found. *)
Fixpoint find_pivot (rows : list (list Q)) : option (list Q * list (list Q)) :=
  match rows with
  | [] => None
  | r :: rows' =>
    match r with
    | x :: _ =>
      if Qeq_bool x 0 then
        match find_pivot rows' with
        | Some (p, others) => Some (p, r :: others)
        | None => None
        end
      else Some (r, rows')
    | [] => None
    end
  end.

Fixpoint gauss (n : nat) (rows : list (list Q)) : outcome (list Q) :=
  match n with
  | O => Ok []
  | S n' =>
    match find_pivot rows with
    | None => Raised LinAlgError
    | Some (p, others) =>
      let p' := map (fun x => Qred (x / hd 1%Q p)) p in
      let reduce r :=
        tl (map (fun q => Qred (fst q - hd 0%Q r * snd q)) (combine r p')) in
      xs <- gauss n' (map reduce others) ;;
      let row := tl p' in
      let known :=
        fold_left (fun s q => Qred (s + fst q * snd q)) (combine row xs) 0%Q in
      Ok (Qred (last row 0%Q - known) :: xs)
    end
  end.

Definition solveQ (M : list (list Q)) (b : list Q) : outcome (list Q) :=
  gauss (length b) (map (fun p => fst p ++ [snd p]) (combine M b)).

(** *** The arithmetic of NumPy: binary64

    The operations are those of IEEE 754; [ltb] puts a [nan] above every
    number, as numpy's max and arg-max do; [x == 0.] is the IEEE equality. *)

#[export] Instance ScalarFloat : Scalar float := {
  zero := 0%float;
  one := 1%float;
  add := PrimFloat.add;
  sub := PrimFloat.sub;
  mul := PrimFloat.mul;
  div := PrimFloat.div;
  opp := PrimFloat.opp;
  abs := PrimFloat.abs;
  ltb x y := PrimFloat.ltb x y || (negb (PrimFloat.is_nan x) && PrimFloat.is_nan y);
  leb := PrimFloat.leb;
  is_zero x := PrimFloat.eqb x 0%float
}.

Definition l2_normF (v : list float) : float :=
  PrimFloat.sqrt
    (fold_left (fun s x => PrimFloat.add s (PrimFloat.mul x x)) v 0%float).

End EI.

(** ** [interpolate_operators] (ei.py, lines 74-82, 236-345, 452-453) *)

Module Interpolate.

Import EI.

Local Abbreviation string := String.string.

(** The exceptions of the orchestration, next to those of the algorithms. *)
Inductive error : Type :=
| AssertionError
| KeyError (name : string)
| AttributeError
| Python (e : exn).

Inductive answer (A : Type) : Type :=
| Returns (a : A)
| Fails (e : error)
| Unfinished.

Arguments Returns {A} a.
Arguments Fails {A} e.
Arguments Unfinished {A}.

Definition of_outcome {A : Type} (o : outcome A) : answer A :=
  match o with
  | Ok a => Returns a
  | Raised e => Fails (Python e)
  | OutOfFuel => Unfinished
  end.

Definition answer_map {A B : Type} (f : A -> B) (a : answer A) : answer B :=
  match a with
  | Returns x => Returns (f x)
  | Fails e => Fails e
  | Unfinished => Unfinished
  end.

(** A [for] loop that updates [a], and a call on every item of a list: the
    first exception ends both. *)
Fixpoint fold_answer {A B : Type} (f : A -> B -> answer A) (l : list B) (a : A)
  : answer A :=
  match l with
  | [] => Returns a
  | x :: l' =>
    match f a x with
    | Returns a' => fold_answer f l' a'
    | Fails e => Fails e
    | Unfinished => Unfinished
    end
  end.

Fixpoint map_answer {A B : Type} (f : A -> answer B) (l : list A)
  : answer (list B) :=
  match l with
  | [] => Returns []
  | x :: l' =>
    match f x with
    | Returns b => answer_map (cons b) (map_answer f l')
    | Fails e => Fails e
    | Unfinished => Unfinished
    end
  end.

Section Orchestration.

Context {R : Type} {SR : Scalar R}.
Variable l2_norm : vector R -> R.

(** The collaborators. [Mu] are the parameters, [Sol] the solution
    snapshots, [Op] the operators, [Space] the vector spaces;
    [op_apply op U mu] are the vectors of [op.apply(U, mu=mu)], one per
    vector of [U], which live in [range op]. *)
Variables Mu Sol Op Space Attributes : Type.
Variable space_eq_dec : forall a b : Space, {a = b} + {a <> b}.
Variable range : Op -> Space.
Variable op_apply : Op -> Sol -> Mu -> VectorArray R.
Variable EmpiricalInterpolatedOperator :
  Op -> list nat -> VectorArray R -> bool -> Op.
Variables Product PodOptions : Type.
Variable pod : VectorArray R -> option Z -> option R -> option R ->
               option Product -> PodOptions -> outcome (VectorArray R * list R).
Variable linalg_solve : list (list R) -> list R -> outcome (list R).

(** A Python dict with string keys: the entries in insertion order. An
    assignment to a key that is present keeps its place. *)
Definition dict : Type := list (string * Op).

Fixpoint dict_getitem (d : dict) (k : string) : option Op :=
  match d with
  | [] => None
  | (k', v) :: d' => if String.eqb k' k then Some v else dict_getitem d' k
  end.

Fixpoint dict_setitem (k : string) (v : Op) (d : dict) : dict :=
  match d with
  | [] => [(k, v)]
  | (k', v') :: d' =>
    if String.eqb k' k then (k', v) :: d' else (k', v') :: dict_setitem k v d'
  end.

(** [{k: v for k, v in items}] and [d.update(other)]. *)
Definition dict_of (items : list (string * Op)) : dict :=
  fold_left (fun acc e => dict_setitem (fst e) (snd e) acc) items [].

Definition dict_update (d other : dict) : dict :=
  fold_left (fun acc e => dict_setitem (fst e) (snd e) acc) other d.

(** Modelled from the spec: the discretization, of which the algorithm uses
    the [operators] dict, [name], [solve], [solution_space] and [with_], a
    copy with the given attributes replaced and the others ([attributes])
    kept. How a discretization solves and what its solution space is depend
    on the whole of it, its operators included: [solve] and [solution_space]
    are collaborators. *)
Record Discretization : Type := mk_discretization {
  operators : dict;
  name : string;
  attributes : Attributes
}.

Definition with_ (d : Discretization) (operators' : dict) (name' : string)
  : Discretization :=
  mk_discretization operators' name' (attributes d).

Variable solve : Discretization -> Mu -> Sol.
Variable solution_space : Discretization -> Space.

(** Modelled from the spec: a |VectorArray| with its space. [append] refuses
    an array of another space (it asserts [other in self.space]). *)
Record array : Type := mk_array {
  space : Space;
  vectors : VectorArray R
}.

Definition empty (s : Space) : array := mk_array s [].

Definition append (A B : array) : answer array :=
  if space_eq_dec (space A) (space B)
  then Returns (mk_array (space A) (vectors A ++ vectors B))
  else Fails AssertionError.

(** [op.apply(U, mu=mu)] *)
Definition apply (op : Op) (U : Sol) (mu : Mu) : array :=
  mk_array (range op) (op_apply op U mu).

(** Modelled from the spec: the [pool] argument. [None]; the [dummy_pool],
    which is false in a condition; or a pool of [workers] workers (true in a
    condition when it has a worker), of which [split] says how [map] deals a
    list to the workers (the chunk of worker [i] is the [i]-th one) and
    [scatter_array] how an array is. [apply] calls a function once on every
    worker. *)
Inductive pool_t : Type :=
| NonePool
| dummy_pool
| WorkerPool (workers : nat) (split : list Mu -> list (list Mu))
    (scatter_array : VectorArray R -> list (VectorArray R)).

(** The evaluations: a |VectorArray|, or a remote object that stands for one
    array on every worker. *)
Inductive evaluations_t : Type :=
| Local (U : array)
| Remote (shards : list array).

(** [[d.operators[operator_name] for operator_name in operator_names]] *)
Fixpoint lookup_operators (d : dict) (operator_names : list string)
  : string + list Op :=
  match operator_names with
  | [] => inr []
  | n :: names' =>
    match dict_getitem d n with
    | None => inl n
    | Some o =>
      match lookup_operators d names' with
      | inl m => inl m
      | inr os => inr (o :: os)
      end
    end
  end.

(** Lines 342-345. [evaluations] is appended to in place. *)
Definition _interpolate_operators_build_evaluations (mu : Mu)
  (d : Discretization) (operators : list Op) (evaluations : array)
  : answer array :=
  let U := solve d mu in
  fold_answer (fun evaluations op => append evaluations (apply op U mu))
              operators evaluations.

Definition _identity {A : Type} (x : A) : A := x.

Section Parameters.

Variable error_norm : option (vector R -> R).
Variable product : option Product.
Variable atol rtol : option R.
Variable max_interpolation_dofs : option Z.
Variable pod_options : PodOptions.

(** [ei_greedy] with its [pool] argument (lines 74-82). *)
Definition ei_greedy_pool (U : evaluations_t) (copy : bool) (pool : pool_t)
  : answer (ei_result R) :=
  match pool with
  | WorkerPool (S _) _ scatter_array =>
    let U :=
      match U with
      | Local U => scatter_array (vectors U)
      | Remote shards => map vectors shards
      end in
    of_outcome (_parallel_ei_greedy l2_norm error_norm atol rtol
                  max_interpolation_dofs U copy)
  | _ =>
    match U with
    | Local U =>
      of_outcome (ei_greedy l2_norm error_norm atol rtol
                    max_interpolation_dofs (vectors U) copy)
    | Remote _ => Fails AssertionError
    end
  end.

(** What [ei_greedy] and [deim] put into [data], and what
    [interpolate_operators] adds. *)
Inductive algorithm_data : Type :=
| greedy_data (data : ei_data R)
| pod_data (data : deim_data R).

Record interpolation_data : Type := mk_interpolation_data {
  data_dofs : list nat;
  data_basis : VectorArray R;
  data_algorithm : algorithm_data
}.

(** The evaluations of the operators on the solution snapshots
    (lines 301-311). With a pool, an empty array of the solution space is
    pushed to every worker and [pool.map] fills it on each with the
    evaluations for the worker's chunk of the sample; without, the array
    starts empty in the range of the first operator. *)
Definition evaluate (d : Discretization) (operators : list Op)
  (parameter_sample : list Mu) (pool : pool_t) : answer evaluations_t :=
  match pool with
  | WorkerPool (S _ as workers) split _ =>
    answer_map Remote
      (map_answer
         (fun worker =>
            fold_answer (fun evaluations mu =>
                           _interpolate_operators_build_evaluations
                             mu d operators evaluations)
                        (nth worker (split parameter_sample) [])
                        (empty (solution_space d)))
         (seq 0 workers))
  | _ =>
    match operators with
    | [] => Fails (Python IndexError)
    | first :: _ =>
      answer_map Local
        (fold_answer (fun evaluations mu =>
                        let U := solve d mu in
                        fold_answer (fun evaluations op =>
                                       append evaluations (apply op U mu))
                                    operators evaluations)
                     parameter_sample (empty (range first)))
    end
  end.

(** Lines 319-325: the evaluations are collected from the workers when the
    pool is not the [dummy_pool]. *)
Definition collect (evaluations : evaluations_t) (pool : pool_t)
  : answer evaluations_t :=
  match pool with
  | dummy_pool => Returns evaluations
  | NonePool => Fails AttributeError
  | WorkerPool workers _ _ =>
    let evaluations :=
      match evaluations with
      | Remote shards => map _identity shards
      | Local U => repeat (_identity U) workers
      end in
    match evaluations with
    | [] => Fails (Python IndexError)
    | evs :: rest =>
      answer_map Local (fold_answer (fun evs e => append evs e) rest evs)
    end
  end.

(** The selection of the DOFs and of the basis (lines 313-330). A remote
    object is no |VectorArray|: the POD would refuse it. *)
Definition select (evaluations : evaluations_t) (alg : string) (pool : pool_t)
  : answer (list nat * VectorArray R * algorithm_data) :=
  if String.eqb alg "ei_greedy" then
    match ei_greedy_pool evaluations false pool with
    | Returns (dofs, basis, data) => Returns (dofs, basis, greedy_data data)
    | Fails e => Fails e
    | Unfinished => Unfinished
    end
  else if String.eqb alg "deim" then
    match collect evaluations pool with
    | Returns (Local U) =>
      match of_outcome (deim pod linalg_solve (vectors U)
                          max_interpolation_dofs atol rtol
                          product pod_options) with
      | Returns (dofs, basis, data) => Returns (dofs, basis, pod_data data)
      | Fails e => Fails e
      | Unfinished => Unfinished
      end
    | Returns (Remote _) => Fails AssertionError
    | Fails e => Fails e
    | Unfinished => Unfinished
    end
  else Fails AssertionError.

Definition interpolate_operators (d : Discretization)
  (operator_names : list string) (parameter_sample : list Mu)
  (alg : string) (pool : pool_t)
  : answer (Discretization * interpolation_data) :=
  if negb (String.eqb alg "ei_greedy" || String.eqb alg "deim")
  then Fails AssertionError
  else
    match lookup_operators (operators d) operator_names with
    | inl missing => Fails (KeyError missing)
    | inr ops =>
      match evaluate d ops parameter_sample pool with
      | Fails e => Fails e
      | Unfinished => Unfinished
      | Returns evaluations =>
        match select evaluations alg pool with
        | Fails e => Fails e
        | Unfinished => Unfinished
        | Returns (dofs, basis, data) =>
          let ei_operators :=
            dict_of
              (map (fun e =>
                      (fst e,
                       EmpiricalInterpolatedOperator (snd e) dofs basis
                         (String.eqb alg "ei_greedy")))
                   (combine operator_names ops)) in
          let operators_dict := dict_update (operators d) ei_operators in
          let ei_d := with_ d operators_dict (String.append (name d) "_ei") in
          Returns (ei_d, mk_interpolation_data dofs basis data)
        end
      end
    end.

End Parameters.

End Orchestration.

Arguments Local {R Space} U.
Arguments Remote {R Space} shards.
Arguments NonePool {R Mu}.
Arguments dummy_pool {R Mu}.

End Interpolate.


(** ** [newton] (newton.py, lines 17-206) *)

Module Newton.

Open Scope float_scope.

(** [l[start:]] for a Python index [start], negative ones counting from the
    end. *)
Definition py_slice_from {A : Type} (start : Z) (l : list A) : list A :=
  let n := Z.of_nat (length l) in
  let s := if (start <? 0)%Z then Z.max 0 (n + start) else Z.min start n in
  skipn (Z.to_nat s) l.

(** Python's [max]: a later item replaces the current maximum when it is
    greater; [ValueError] on an empty sequence. *)
Definition py_max (l : list float) : outcome float :=
  match l with
  | [] => Raised ValueError
  | x :: l' => Ok (fold_left (fun m y => if m <? y then y else m) l' x)
  end.

Inductive error_measure_t : Type := Residual | Update.

(** [relax]: a number, ['armijo'], or anything else. *)
Inductive relax_t : Type :=
| Relax (step : float)
| Armijo
| OtherMethod.

(** How the loop is left: the three [break]s, the three [raise NewtonError]
    and the two [ValueError]s. *)
Inductive newton_exit : Type :=
| AbsoluteLimit
| TotalReduction
| Stagnating
| FailedMaxiter
| CouldNotInvert
| NonFinite
| UnknownLineSearch
| EmptyWindow.

(** The operator and its spaces are collaborators: [Src] and [Rng] are the
    vectors of the source and range space, [apply_inverse U r] solves the
    Jacobian system at [U] ([None] for an [InversionError]), [vnorm_src] and
    [vnorm_rng] are the norms w.r.t. [error_product], [armijo] is the line
    search. *)
Record problem (Src Rng : Type) : Type := mk_problem {
  zeros : Src;
  apply : Src -> Rng;
  rsub : Rng -> Rng -> Rng;
  apply_inverse : Src -> Rng -> option Src;
  axpy : float -> Src -> Src -> Src;
  vnorm_src : Src -> float;
  vnorm_rng : Rng -> float;
  armijo : Src -> Src -> Rng -> float -> float;
  rhs : Rng
}.

Record params : Type := mk_params {
  miniter : Z;
  maxiter : Z;
  atol : float;
  rtol : float;
  relax : relax_t;
  stagnation_window : Z;
  stagnation_threshold : float;
  error_measure : error_measure_t;
  return_stages : bool;
  return_residuals : bool
}.

(** The defaults of the signature. *)
Definition defaults : params :=
  mk_params 0 100 0 0 (Relax 1) 3 infinity Residual false false.

Section Solver.

Variables Src Rng : Type.
Variable op : problem Src Rng.
Variable p : params.

(** The variables of the loop. [errs] is not one of them: it is another name
    of [residual_norms] or of [update_norms]. *)
Record newton_state : Type := mk_newton {
  U : Src;
  residual : Rng;
  solution_norms : list float;
  update_norms : list float;
  residual_norms : list float;
  solution_norm : float;
  residual_norm : float;
  err : float;
  err_scale_factor : float;
  iteration : nat;
  stages : list Src;
  residuals : list Rng
}.

Definition errs (st : newton_state) : list float :=
  match error_measure p with
  | Residual => residual_norms st
  | Update => update_norms st
  end.

(** [len(errs) >= stagnation_window + 1 and
     err > stagnation_threshold * max(errs[-stagnation_window - 1:])] *)
Definition stagnates (st : newton_state) : outcome bool :=
  if (stagnation_window p + 1 <=? Z.of_nat (length (errs st)))%Z then
    m <- py_max (py_slice_from (- stagnation_window p - 1) (errs st)) ;;
    Ok (stagnation_threshold p * m <? err st)
  else Ok false.

(** The checks at the head of the loop: [Some k] leaves the loop with [k],
    [None] goes on with the iteration. *)
Definition check (st : newton_state) : option newton_exit :=
  if (miniter p <=? Z.of_nat (iteration st))%Z then
    if err st <? atol p then Some AbsoluteLimit
    else if err st <? rtol p * err_scale_factor st then Some TotalReduction
    else
      match stagnates st with
      | Ok true => Some Stagnating
      | Ok false =>
        if (maxiter p <=? Z.of_nat (iteration st))%Z then Some FailedMaxiter
        else None
      | _ => Some EmptyWindow
      end
  else None.

Definition step_size_of (st : newton_state) (update : Src) : option float :=
  match relax p with
  | Relax step => Some step
  | Armijo => Some (armijo op (U st) update (residual st) (residual_norm st))
  | OtherMethod => None
  end.

(** The state when the update is computed: the iteration is counted and
    the history stored. *)
Definition begin_iteration (st : newton_state) : newton_state :=
  mk_newton (U st) (residual st) (solution_norms st) (update_norms st)
    (residual_norms st) (solution_norm st) (residual_norm st) (err st)
    (err_scale_factor st) (S (iteration st))
    (if return_stages p then stages st ++ [U st] else stages st)
    (if return_residuals p then residuals st ++ [residual st] else residuals st).

(** The update of the solution, of the residual and of the norms. *)
Definition advance (st : newton_state) (update : Src) (step_size : float)
  : newton_state :=
  let U' := axpy op step_size update (U st) in
  let residual' := rsub op (rhs op) (apply op U') in
  let solution_norm' := vnorm_src op U' in
  let update_norm := vnorm_src op update * step_size in
  let residual_norm' := vnorm_rng op residual' in
  mk_newton U' residual'
    (solution_norms st ++ [solution_norm'])
    (update_norms st ++ [update_norm])
    (residual_norms st ++ [residual_norm'])
    solution_norm' residual_norm'
    (match error_measure p with
     | Residual => residual_norm'
     | Update => update_norm
     end)
    (match error_measure p with
     | Residual => err_scale_factor st
     | Update => solution_norm'
     end)
    (iteration st) (stages st) (residuals st).

(** [not np.isfinite(residual_norm) or not np.isfinite(solution_norm)] *)
Definition blown_up (st : newton_state) : bool :=
  negb (is_finite (residual_norm st)) || negb (is_finite (solution_norm st)).

Fixpoint newton_loop (fuel : nat) (st : newton_state)
  : option (newton_exit * newton_state) :=
  match fuel with
  | O => None
  | S fuel' =>
    match check st with
    | Some k => Some (k, st)
    | None =>
      let st1 := begin_iteration st in
      match apply_inverse op (U st1) (residual st1) with
      | None => Some (CouldNotInvert, st1)
      | Some update =>
        match step_size_of st1 update with
        | None => Some (UnknownLineSearch, st1)
        | Some step_size =>
          let st2 := advance st1 update step_size in
          if blown_up st2 then Some (NonFinite, st2)
          else newton_loop fuel' st2
        end
      end
    end
  end.

Record newton_data : Type := mk_newton_data {
  data_stages : option (list Src);
  data_residuals : option (list Rng);
  data_solution_norms : list float;
  data_update_norms : list float;
  data_residual_norms : list float
}.

Definition initial_state (initial_guess : option Src) : newton_state :=
  let U0 := match initial_guess with Some g => g | None => zeros op end in
  let residual0 := rsub op (rhs op) (apply op U0) in
  let solution_norm0 := vnorm_src op U0 in
  let residual_norm0 := vnorm_rng op residual0 in
  let err0 := match error_measure p with
              | Residual => residual_norm0
              | Update => solution_norm0
              end in
  mk_newton U0 residual0 [solution_norm0] [solution_norm0] [residual_norm0]
    solution_norm0 residual_norm0 err0 err0 0 [] [].

(** The loop counts an iteration at each turn and leaves at its head once
    [miniter] and [maxiter] are reached: this fuel is never used up (lemma
    [newton_loop_fuel]). *)
Definition newton_fuel : nat := S (Z.to_nat (Z.max (miniter p) (maxiter p))).

Definition newton_run (initial_guess : option Src)
  : option (newton_exit * newton_state) :=
  newton_loop newton_fuel (initial_state initial_guess).

(** What the caller sees of each way out of the loop. *)
Definition newton_result (k : newton_exit) (st : newton_state)
  : outcome (Src * newton_data) :=
  match k with
  | AbsoluteLimit | TotalReduction | Stagnating =>
    Ok (U st,
        mk_newton_data
          (if return_stages p then Some (stages st) else None)
          (if return_residuals p then Some (residuals st) else None)
          (solution_norms st) (update_norms st) (residual_norms st))
  | FailedMaxiter | NonFinite => Raised (NewtonError Failed_to_converge)
  | CouldNotInvert => Raised (NewtonError Could_not_invert_jacobian)
  | UnknownLineSearch | EmptyWindow => Raised ValueError
  end.

Definition newton (initial_guess : option Src) : outcome (Src * newton_data) :=
  match newton_run initial_guess with
  | Some (k, st) => newton_result k st
  | None => OutOfFuel
  end.

End Solver.

Arguments newton_state Src Rng : clear implicits.
Arguments newton_data Src Rng : clear implicits.

Close Scope float_scope.

End Newton.

(** * Properties *)

(** ** The outcome monad *)

(** Inversion of the monad's operations. *)
Lemma bind_Ok {A B : Type} (c : outcome A) (k : A -> outcome B) (b : B) :
  bind c k = Ok b -> exists a, c = Ok a /\ k a = Ok b.
Proof. destruct c; simpl; intros E; try discriminate. eauto. Qed.

Tactic Notation "inv_bind" hyp(H) "as" simple_intropattern(a) ident(E) :=
  apply bind_Ok in H; destruct H as (a & E & H).

Lemma mapM_Ok_length {A B : Type} (f : A -> outcome B) (l : list A) (r : list B) :
  mapM f l = Ok r -> length r = length l.
Proof.
  revert r; induction l as [|a l IH]; simpl; intros r E.
  - inversion E; reflexivity.
  - inv_bind E as b Eb. inv_bind E as bs Ebs. inversion E; subst; simpl.
    f_equal; auto.
Qed.

Lemma mapM_app {A B : Type} (f : A -> outcome B) (l1 l2 : list A) :
  mapM f (l1 ++ l2) = (r1 <- mapM f l1 ;; r2 <- mapM f l2 ;; Ok (r1 ++ r2)).
Proof.
  induction l1 as [|a l1 IH]; simpl.
  - destruct (mapM f l2); reflexivity.
  - destruct (f a); simpl; try reflexivity.
    rewrite IH. destruct (mapM f l1); simpl; try reflexivity.
    destruct (mapM f l2); reflexivity.
Qed.

(** A map whose function succeeds on every element succeeds. *)
Lemma mapM_total {A B : Type} (f : A -> outcome B) (l : list A) :
  Forall (fun a => exists b, f a = Ok b) l -> exists r, mapM f l = Ok r.
Proof.
  induction 1 as [|a l (b & Eb) _ (r & Er)]; simpl; eauto.
  rewrite Eb, Er; simpl; eauto.
Qed.

Lemma getitem_Ok {A : Type} (l : list A) (i : nat) (a : A) :
  getitem l i = Ok a <-> nth_error l i = Some a.
Proof.
  unfold getitem; destruct (nth_error l i); split; intros E;
    inversion E; reflexivity.
Qed.

Lemma getitem_lt {A : Type} (l : list A) (i : nat) :
  i < length l -> exists a, getitem l i = Ok a.
Proof.
  intros Hi. unfold getitem.
  destruct (nth_error l i) eqn:E; eauto.
  apply nth_error_None in E; lia.
Qed.

Lemma getitem_fuel {A : Type} (l : list A) (i : nat) : getitem l i <> OutOfFuel.
Proof. unfold getitem; destruct (nth_error l i); discriminate. Qed.

Module EIFacts.

Import EI.

Section Facts.

Context {R : Type} {SR : Scalar R}.

Local Abbreviation vector := (vector R).
Local Abbreviation VectorArray := (VectorArray R).

Variable l2_norm : vector -> R.

(** *** Lists of vectors *)

Lemma in_dofs_true (d : nat) (a : list nat) : in_dofs d a = true <-> In d a.
Proof.
  unfold in_dofs. rewrite existsb_exists. split.
  - intros (x & Hx & E). apply Nat.eqb_eq in E; subst; assumption.
  - intros H. exists d. split; [assumption | apply Nat.eqb_refl].
Qed.

Lemma in_dofs_false (d : nat) (a : list nat) : in_dofs d a = false <-> ~ In d a.
Proof.
  rewrite <- in_dofs_true. destruct (in_dofs d a); split; congruence.
Qed.

Lemma np_argmax_nonempty (l : list R) :
  l <> [] -> exists i, np_argmax l = Ok i.
Proof. destruct l; [congruence | simpl; eauto]. Qed.

Lemma np_max_nonempty (l : list R) :
  l <> [] -> exists m, np_max l = Ok m.
Proof. destruct l; [congruence | simpl; eauto]. Qed.

Lemma argmax_from_lt (l : list R) (bi : nat) (bx : R) (i : nat) :
  bi < i -> argmax_from bi bx i l < i + length l.
Proof.
  revert bi bx i; induction l as [|y l IH]; simpl; intros bi bx i Hb.
  - lia.
  - destruct (ltb bx y).
    + specialize (IH i y (S i)). lia.
    + specialize (IH bi bx (S i)). lia.
Qed.

Lemma np_argmax_lt (l : list R) (i : nat) : np_argmax l = Ok i -> i < length l.
Proof.
  destruct l as [|x l]; simpl; intros E; inversion E.
  pose proof (argmax_from_lt l x (bi:=0) (i:=1)). lia.
Qed.

Lemma amax_lt (v : vector) (d : nat) : amax v = Ok d -> d < length v.
Proof.
  unfold amax. intros E. apply np_argmax_lt in E.
  rewrite length_map in E. exact E.
Qed.

Lemma norms_length (en : option (vector -> R)) (U : VectorArray) :
  length (norms l2_norm en U) = length U.
Proof. destruct en; simpl; apply length_map. Qed.

(** A non-empty array has a worst vector. *)
Lemma worst_vector (en : option (vector -> R)) (U : VectorArray) :
  U <> [] ->
  exists i e, np_argmax (norms l2_norm en U) = Ok i /\
              getitem (norms l2_norm en U) i = Ok e /\ i < length U.
Proof.
  intros HU.
  destruct (@np_argmax_nonempty (norms l2_norm en U)) as (i & Harg).
  { intros E. apply (f_equal (@length R)) in E.
    rewrite norms_length in E. destruct U; [congruence | discriminate]. }
  pose proof (@np_argmax_lt _ _ Harg) as Hi.
  destruct (@getitem_lt _ _ i Hi) as (e & He).
  rewrite norms_length in Hi. eauto.
Qed.

Lemma norms_app (en : option (vector -> R)) (U V : VectorArray) :
  norms l2_norm en (U ++ V) = norms l2_norm en U ++ norms l2_norm en V.
Proof. destruct en; simpl; apply map_app. Qed.

Lemma scal_length (a : R) (v : vector) : length (scal a v) = length v.
Proof. apply length_map. Qed.

Lemma vadd_length (u v : vector) :
  length (vadd u v) = Nat.min (length u) (length v).
Proof. unfold vadd. rewrite length_map, length_combine. reflexivity. Qed.

Lemma axpy_length (alpha : list R) (x : vector) (U : VectorArray) :
  length alpha = length U -> length (axpy alpha x U) = length U.
Proof.
  intros E. unfold axpy. rewrite length_map, length_combine. lia.
Qed.

Lemma axpy_wf (dim : nat) (alpha : list R) (x : vector) (U : VectorArray) :
  length x = dim -> wf_array dim U -> wf_array dim (axpy alpha x U).
Proof.
  intros Hx HU. unfold wf_array, axpy. apply Forall_forall.
  intros v Hv. apply in_map_iff in Hv. destruct Hv as ((a & u) & E & Hin).
  apply in_combine_r in Hin. simpl in E. subst v.
  rewrite vadd_length, scal_length.
  unfold wf_array in HU. rewrite Forall_forall in HU.
  rewrite (HU u Hin). lia.
Qed.

Lemma dofs_column_length (U : VectorArray) (d : nat) (col : list R) :
  dofs_column U d = Ok col -> length col = length U.
Proof. apply mapM_Ok_length. Qed.

Lemma dofs_column_total (dim : nat) (U : VectorArray) (d : nat) :
  wf_array dim U -> d < dim -> exists col, dofs_column U d = Ok col.
Proof.
  intros HU Hd. apply mapM_total.
  eapply Forall_impl; [|exact HU]. simpl. intros v Hv.
  apply getitem_lt. lia.
Qed.

(** *** The first maximum *)

(** The comparison is a strict weak order (as [<] is on floats that are not
    [nan]). *)
Record order_laws : Prop := {
  ltb_irrefl : forall x : R, ltb x x = false;
  ltb_trans : forall x y z : R, ltb x y = true -> ltb y z = true -> ltb x z = true;
  ltb_cotrans : forall x y z : R, ltb x z = true -> ltb x y = true \/ ltb y z = true
}.

(** [first_max l i x]: [x] is the element of [l] at [i], no element is
    greater, and every element before [i] is smaller. *)
Definition first_max (l : list R) (i : nat) (x : R) : Prop :=
  nth_error l i = Some x /\
  (forall j y, nth_error l j = Some y -> ltb x y = false) /\
  (forall j y, j < i -> nth_error l j = Some y -> ltb y x = true).

Lemma first_max_unique (l : list R) (i i' : nat) (x x' : R) :
  first_max l i x -> first_max l i' x' -> i = i' /\ x = x'.
Proof.
  intros (Hn & Hmax & Hbefore) (Hn' & Hmax' & Hbefore').
  assert (i = i') as <-.
  { destruct (Nat.lt_trichotomy i i') as [Hlt | [Heq | Hlt]]; auto.
    - pose proof (Hbefore' _ _ Hlt Hn). pose proof (Hmax _ _ Hn'). congruence.
    - pose proof (Hbefore _ _ Hlt Hn'). pose proof (Hmax' _ _ Hn). congruence. }
  split; congruence.
Qed.

Section Order.

Hypothesis order : order_laws.

Lemma ltb_false_trans (x y z : R) :
  ltb x y = false -> ltb y z = false -> ltb x z = false.
Proof.
  intros Hxy Hyz. destruct (ltb x z) eqn:E; auto.
  destruct (ltb_cotrans order _ y _ E); congruence.
Qed.

Lemma first_max_singleton (x : R) : first_max [x] 0 x.
Proof.
  repeat split; auto.
  - intros [|[|j]] y; simpl; intros E; inversion E; subst.
    apply (ltb_irrefl order).
  - intros j y Hj; lia.
Qed.

(** The first maximum of [l1 ++ l2] from those of [l1] and [l2]: the one
    of [l2] wins only when it is strictly greater. *)
Lemma first_max_app (l1 l2 : list R) (i1 i2 : nat) (m1 m2 : R) :
  first_max l1 i1 m1 -> first_max l2 i2 m2 ->
  first_max (l1 ++ l2) (if ltb m1 m2 then length l1 + i2 else i1)
                       (if ltb m1 m2 then m2 else m1).
Proof.
  intros (Hn1 & Hmax1 & Hb1) (Hn2 & Hmax2 & Hb2).
  assert (i1 < length l1) as Hi1 by (apply nth_error_Some; congruence).
  destruct (ltb m1 m2) eqn:E; repeat split.
  - rewrite nth_error_app2 by lia.
    replace (length l1 + i2 - length l1) with i2 by lia. exact Hn2.
  - intros j y Hy. rewrite nth_error_app in Hy.
    destruct (Nat.ltb j (length l1)); [|eauto].
    destruct (ltb m2 y) eqn:E2; auto.
    pose proof (ltb_trans order _ _ _ E E2). pose proof (Hmax1 _ _ Hy). congruence.
  - intros j y Hj Hy. rewrite nth_error_app in Hy.
    destruct (Nat.ltb j (length l1)) eqn:Hlt.
    + destruct (ltb_cotrans order _ y _ E) as [H | H]; auto.
      pose proof (Hmax1 _ _ Hy). congruence.
    + apply Nat.ltb_ge in Hlt. apply (Hb2 (j - length l1)); auto. lia.
  - rewrite nth_error_app1 by lia. exact Hn1.
  - intros j y Hy. rewrite nth_error_app in Hy.
    destruct (Nat.ltb j (length l1)); [eauto|].
    eapply ltb_false_trans; eauto.
  - intros j y Hj Hy. rewrite nth_error_app1 in Hy by lia. eauto.
Qed.

(** [np.argmax] computes the first maximum. *)
Lemma argmax_from_first_max (l p : list R) (bi : nat) (bx : R) :
  first_max p bi bx ->
  exists x, first_max (p ++ l) (argmax_from bi bx (length p) l) x.
Proof.
  revert p bi bx. induction l as [|y l IH]; intros p bi bx Hp; simpl.
  - rewrite app_nil_r. eauto.
  - pose proof (first_max_app Hp (first_max_singleton y)) as Hpy.
    replace (p ++ y :: l) with ((p ++ [y]) ++ l) by (rewrite <- app_assoc; reflexivity).
    replace (S (length p)) with (length (p ++ [y])) by (rewrite length_app; simpl; lia).
    destruct (ltb bx y); [rewrite Nat.add_0_r in Hpy|]; apply IH; exact Hpy.
Qed.

Lemma np_argmax_first_max (l : list R) (i : nat) :
  np_argmax l = Ok i -> exists x, first_max l i x.
Proof.
  destruct l as [|x l]; simpl; intros E; inversion E.
  apply (@argmax_from_first_max l [x] 0 x). apply first_max_singleton.
Qed.

Lemma first_max_np_argmax (l : list R) (i : nat) (x : R) :
  first_max l i x -> np_argmax l = Ok i /\ getitem l i = Ok x.
Proof.
  intros H. pose proof H as (Hn & _). split; [|apply getitem_Ok; exact Hn].
  destruct (@np_argmax_nonempty l) as (i' & E).
  { intros ->. destruct i; discriminate. }
  destruct (np_argmax_first_max _ E) as (x' & H').
  destruct (first_max_unique H H') as (-> & _). exact E.
Qed.

End Order.

(** *** One turn of the main loop *)

Section Loop.

Variable error_norm : option (vector -> R).
Variable atol rtol : option R.
Variable max_interpolation_dofs : option Z.

Local Abbreviation norms := (norms l2_norm error_norm).
Local Abbreviation ei_loop :=
  (ei_loop l2_norm error_norm atol rtol max_interpolation_dofs).
Local Abbreviation ei_greedy :=
  (ei_greedy l2_norm error_norm atol rtol max_interpolation_dofs).

(** The loop stops at its head: a stopping criterion holds. *)
Definition stops (initial_max_err : R) (n : nat) (e : R) : bool :=
  dofs_limit_reached max_interpolation_dofs n
  || atol_reached atol e
  || rtol_reached rtol e initial_max_err.

(** The selection of the turn: the worst vector, its largest DOF and its
    value there. *)
Definition selects (new_vec : vector) (idofs : list nat)
  (v : vector) (d : nat) (x : R) : Prop :=
  amax new_vec = Ok d /\ dof new_vec d = Ok x /\
  in_dofs d idofs = false /\ is_zero x = false /\
  v = scal (div one x) new_vec.

(** The degenerate selections: a DOF chosen before, or a zero pivot. *)
Definition degenerate (new_vec : vector) (idofs : list nat) : Prop :=
  exists d, amax new_vec = Ok d /\
    (in_dofs d idofs = true \/
     (in_dofs d idofs = false /\ exists x, dof new_vec d = Ok x /\ is_zero x = true)).

(** [ei_next init st st']: a turn of the loop that continues takes [st] to
    [st']. *)
Inductive ei_next (init : R) (st : ei_state R) : ei_state R -> Prop :=
| ei_next_intro (new_vec v : vector) (d : nat) (x : R) (col : list R)
    (i : nat) (e : R) :
    stops init (length (interpolation_dofs st)) (max_err st) = false ->
    getitem (ERR st) (max_err_ind st) = Ok new_vec ->
    selects new_vec (interpolation_dofs st) v d x ->
    dofs_column (ERR st) d = Ok col ->
    np_argmax (norms (axpy (map opp col) v (ERR st))) = Ok i ->
    getitem (norms (axpy (map opp col) v (ERR st))) i = Ok e ->
    ei_next init st
      (mk_state (interpolation_dofs st ++ [d]) (collateral_basis st ++ [v])
                (max_errs st ++ [max_err st])
                (axpy (map opp col) v (ERR st)) i e).

(** The loop returns [r] from [st] when a stopping criterion holds, or the
    selection is degenerate, or it continues and returns [r] later. *)
Lemma ei_loop_Ok (fuel : nat) (init : R) (st r : ei_state R) :
  ei_loop (S fuel) init st = Ok r ->
  (r = st /\
   (stops init (length (interpolation_dofs st)) (max_err st) = true \/
    exists new_vec, getitem (ERR st) (max_err_ind st) = Ok new_vec /\
                    degenerate new_vec (interpolation_dofs st)))
  \/ exists st', ei_next init st st' /\ ei_loop fuel init st' = Ok r.
Proof.
  unfold stops. cbn [EI.ei_loop].
  destruct (dofs_limit_reached _ _) eqn:Hlim;
    [intros H; inversion H; auto|].
  destruct (atol_reached _ _) eqn:Hat; [intros H; inversion H; auto|].
  destruct (rtol_reached _ _ _) eqn:Hrt; [intros H; inversion H; auto|].
  intros H. inv_bind H as new_vec Hget. inv_bind H as d Hamax.
  destruct (in_dofs d _) eqn:Hin.
  { inversion H; subst. left; split; auto. right. exists new_vec.
    split; auto. exists d; auto. }
  inv_bind H as x Hx.
  destruct (is_zero x) eqn:Hz.
  { inversion H; subst. left; split; auto. right. exists new_vec.
    split; auto. exists d. split; auto. right. split; auto. exists x; auto. }
  inv_bind H as col Hcol. inv_bind H as i Harg. inv_bind H as e He.
  right. eexists. split; [|exact H].
  econstructor; eauto.
  - unfold stops. rewrite Hlim, Hat, Hrt. reflexivity.
  - repeat split; auto.
Qed.

(** Invariants: what a continuing turn preserves holds of the state the
    loop returns. *)
Lemma ei_loop_invariant (P : ei_state R -> Prop) (init : R) :
  (forall s s', P s -> ei_next init s s' -> P s') ->
  forall fuel st r, P st -> ei_loop fuel init st = Ok r -> P r.
Proof.
  intros Hstep. induction fuel as [|fuel IH]; intros st r HP E.
  - discriminate.
  - apply ei_loop_Ok in E. destruct E as [(-> & _) | (st' & Hn & E)]; eauto.
Qed.

(** A degenerate selection leaves the loop with the state as it is. *)
Lemma ei_loop_degenerate (fuel : nat) (init : R) (st : ei_state R)
  (new_vec : vector) :
  stops init (length (interpolation_dofs st)) (max_err st) = false ->
  getitem (ERR st) (max_err_ind st) = Ok new_vec ->
  degenerate new_vec (interpolation_dofs st) ->
  ei_loop (S fuel) init st = Ok st.
Proof.
  unfold stops. intros Hstop Hget (d & Hamax & Hdeg). cbn [EI.ei_loop].
  apply orb_false_iff in Hstop. destruct Hstop as (Hstop & Hrt).
  apply orb_false_iff in Hstop. destruct Hstop as (Hlim & Hat).
  rewrite Hlim, Hat, Hrt, Hget. cbn [bind]. rewrite Hamax. cbn [bind].
  destruct Hdeg as [Hin | (Hin & x & Hx & Hz)]; rewrite Hin; [reflexivity|].
  rewrite Hx. cbn [bind]. rewrite Hz. reflexivity.
Qed.

(** *** Structural invariants of the sequential loop *)

(** The accumulators grow together, and no DOF is selected twice. *)
Definition ei_inv (st : ei_state R) : Prop :=
  length (collateral_basis st) = length (interpolation_dofs st) /\
  length (max_errs st) = length (interpolation_dofs st) /\
  NoDup (interpolation_dofs st).

Lemma NoDup_snoc (l : list nat) (d : nat) :
  NoDup l -> ~ In d l -> NoDup (l ++ [d]).
Proof.
  intros Hl Hd. apply NoDup_app; auto.
  - constructor; [intros [] | constructor].
  - intros a Ha [<- | []]. exact (Hd Ha).
Qed.

Lemma ei_inv_next (init : R) (s s' : ei_state R) :
  ei_inv s -> ei_next init s s' -> ei_inv s'.
Proof.
  intros (Hb & He & Hn) Hs. destruct Hs as [nv v d x col i e _ _ Hsel _ _ _].
  destruct Hsel as (_ & _ & Hin & _ & _).
  unfold ei_inv; simpl. rewrite !length_app; simpl.
  repeat split; try lia.
  apply NoDup_snoc; auto. apply in_dofs_false; exact Hin.
Qed.

Lemma ei_inv_init (U : VectorArray) (i : nat) (e : R) :
  ei_inv (mk_state [] [] [] U i e).
Proof. repeat split; simpl; auto. constructor. Qed.

(** What [ei_greedy] returns is what its loop returned. *)
Lemma ei_greedy_Ok (U : VectorArray) (copy : bool) (r : ei_result R) :
  ei_greedy U copy = Ok r ->
  exists i init fuel st tri,
    np_argmax (norms U) = Ok i /\ getitem (norms U) i = Ok init /\
    ei_loop fuel init (mk_state [] [] [] U i init) = Ok st /\
    triangularity (collateral_basis st) (interpolation_dofs st) = Ok tri /\
    r = (interpolation_dofs st, collateral_basis st, mk_data (max_errs st) tri).
Proof.
  unfold EI.ei_greedy. intros H.
  inv_bind H as i Harg. inv_bind H as init Hinit.
  inv_bind H as st Hloop. unfold ei_finish in H.
  inv_bind H as tri Htri. inversion H; subst.
  exists i, init, (S (space_dim U)), st, tri. auto.
Qed.

Lemma ei_greedy_inv (U : VectorArray) (copy : bool)
  (idofs : list nat) (basis : VectorArray) (data : ei_data R) :
  ei_greedy U copy = Ok (idofs, basis, data) ->
  length basis = length idofs /\ length (errors data) = length idofs /\
  NoDup idofs.
Proof.
  intros H. apply ei_greedy_Ok in H.
  destruct H as (i & init & fuel & st & tri & _ & _ & Hl & _ & E).
  inversion E; subst; simpl.
  eapply ei_loop_invariant with (P := ei_inv) in Hl;
    eauto using ei_inv_next, ei_inv_init.
Qed.

Lemma dof_scal (a : R) (v : vector) (d : nat) (x : R) :
  dof v d = Ok x -> dof (scal a v) d = Ok (mul x a).
Proof.
  unfold dof. rewrite !getitem_Ok. unfold scal.
  rewrite nth_error_map. intros ->. reflexivity.
Qed.

(** A basis vector is the selected vector times the inverse of its pivot,
    the non-zero value [x] it has at the new DOF: at its own DOF it takes the
    value [x * (1 / x)]. *)
Definition scaled_pivot (d : nat) (v : vector) : Prop :=
  exists x, is_zero x = false /\ dof v d = Ok (mul x (div one x)).

Definition scaled_pivots (st : ei_state R) : Prop :=
  Forall2 scaled_pivot (interpolation_dofs st) (collateral_basis st).

Lemma scaled_pivots_next (init : R) (s s' : ei_state R) :
  scaled_pivots s -> ei_next init s s' -> scaled_pivots s'.
Proof.
  intros Hu Hs. destruct Hs as [nv v d x col i e _ _ Hsel _ _ _].
  destruct Hsel as (_ & Hx & _ & Hz & ->).
  unfold scaled_pivots; simpl. apply Forall2_app; auto.
  constructor; [|constructor]. exists x. split; [exact Hz|].
  apply dof_scal. exact Hx.
Qed.

Lemma ei_greedy_scaled_pivots (U : VectorArray) (copy : bool)
  (idofs : list nat) (basis : VectorArray) (data : ei_data R) :
  ei_greedy U copy = Ok (idofs, basis, data) ->
  Forall2 scaled_pivot idofs basis.
Proof.
  intros H. apply ei_greedy_Ok in H.
  destruct H as (i & init & fuel & st & tri & _ & _ & Hl & _ & E).
  inversion E; subst.
  eapply ei_loop_invariant with (P := scaled_pivots) in Hl;
    eauto using scaled_pivots_next.
  constructor.
Qed.

Lemma Forall2_nth_error {A B : Type} (P : A -> B -> Prop) (l : list A)
  (l' : list B) (i : nat) (a : A) (b : B) :
  Forall2 P l l' -> nth_error l i = Some a -> nth_error l' i = Some b -> P a b.
Proof.
  intros H. revert i. induction H as [|x y l l' Hxy _ IH]; intros [|i]; simpl;
    try discriminate.
  - intros E1 E2; inversion E1; inversion E2; subst; assumption.
  - apply IH.
Qed.

(** In exact arithmetic the deflation makes every vector vanish at the
    selected DOFs, so a basis vector vanishes at the DOFs selected before
    it: the interpolation matrix is lower triangular. *)
Section Triangular.

Hypothesis mul_inv : forall x : R, is_zero x = false -> mul x (div one x) = one.
Hypothesis add_opp : forall x : R, add x (mul one (opp x)) = zero.
Hypothesis mul_zero : forall x : R, mul zero x = zero.
Hypothesis add_zero : add zero zero = zero.

Lemma dof_vadd (u w : vector) (d : nat) (x y : R) :
  dof u d = Ok x -> dof w d = Ok y -> dof (vadd u w) d = Ok (add x y).
Proof.
  unfold dof. rewrite !getitem_Ok. unfold vadd.
  revert w d. induction u as [|a u IH]; intros [|b w] [|d]; simpl;
    try discriminate.
  - intros E1 E2; inversion E1; inversion E2; reflexivity.
  - apply IH.
Qed.

(** The coefficient of a vector in the deflation is minus its value at the
    new DOF. *)
Lemma axpy_In (d : nat) (x : vector) (U : VectorArray) (col : list R)
  (u' : vector) :
  dofs_column U d = Ok col -> In u' (axpy (map opp col) x U) ->
  exists u c, In u U /\ dof u d = Ok c /\ u' = vadd u (scal (opp c) x).
Proof.
  unfold dofs_column, axpy. revert col.
  induction U as [|u U IH]; intros col Hcol Hin; simpl in Hcol.
  - inversion Hcol; subst. destruct Hin.
  - inv_bind Hcol as c Hc. inv_bind Hcol as col' Hcol'.
    inversion Hcol; subst. simpl in Hin. destruct Hin as [<- | Hin].
    + exists u, c. simpl. auto.
    + destruct (IH col' Hcol' Hin) as (u0 & c0 & Hu0 & Hc0 & ->).
      exists u0, c0. simpl. auto.
Qed.

Definition zero_at (d : nat) (U : VectorArray) : Prop :=
  Forall (fun u => dof u d = Ok zero) U.

Definition lower_triangular (idofs : list nat) (basis : VectorArray) : Prop :=
  forall i j d v, i < j ->
    nth_error idofs i = Some d -> nth_error basis j = Some v ->
    dof v d = Ok zero.

Definition tri_inv (st : ei_state R) : Prop :=
  length (collateral_basis st) = length (interpolation_dofs st) /\
  Forall (fun d => zero_at d (ERR st)) (interpolation_dofs st) /\
  lower_triangular (interpolation_dofs st) (collateral_basis st).

Lemma tri_inv_next (init : R) (s s' : ei_state R) :
  tri_inv s -> ei_next init s s' -> tri_inv s'.
Proof.
  intros (Hlen & Hz & Ht) Hs.
  destruct Hs as [nv v d x col i e _ Hget Hsel Hcol _ _].
  destruct Hsel as (_ & Hx & _ & Hnz & ->).
  assert (In nv (ERR s)) as Hnv.
  { apply getitem_Ok in Hget. eapply nth_error_In; eauto. }
  assert (forall d0, In d0 (interpolation_dofs s) ->
            dof (scal (div one x) nv) d0 = Ok zero) as Hold.
  { intros d0 Hd0. rewrite Forall_forall in Hz. specialize (Hz d0 Hd0).
    unfold zero_at in Hz. rewrite Forall_forall in Hz.
    rewrite (@dof_scal _ _ _ _ (Hz nv Hnv)), mul_zero. reflexivity. }
  assert (dof (scal (div one x) nv) d = Ok one) as Hnew.
  { rewrite (@dof_scal _ _ _ _ Hx), mul_inv; auto. }
  unfold tri_inv; simpl. split; [rewrite !length_app; simpl; lia|]. split.
  - apply Forall_app. split; [|constructor; [|constructor]].
    + apply Forall_forall. intros d0 Hd0. apply Forall_forall. intros u' Hu'.
      destruct (@axpy_In _ _ _ _ _ Hcol Hu') as (u & c & Hu & _ & ->).
      rewrite Forall_forall in Hz. specialize (Hz d0 Hd0).
      unfold zero_at in Hz. rewrite Forall_forall in Hz.
      rewrite (@dof_vadd _ _ _ _ _ (Hz u Hu) (@dof_scal _ _ _ _ (Hold d0 Hd0))).
      rewrite mul_zero, add_zero. reflexivity.
    + apply Forall_forall. intros u' Hu'.
      destruct (@axpy_In _ _ _ _ _ Hcol Hu') as (u & c & Hu & Hc & ->).
      rewrite (@dof_vadd _ _ _ _ _ Hc (@dof_scal _ _ _ _ Hnew)), add_opp. reflexivity.
  - intros i0 j d0 v0 Hij Hi Hj.
    assert (j < length (collateral_basis s ++ [scal (div one x) nv])) as Hjl.
    { apply nth_error_Some. congruence. }
    rewrite length_app in Hjl; simpl in Hjl.
    rewrite nth_error_app1 in Hi by lia.
    destruct (Nat.lt_ge_cases j (length (collateral_basis s))) as [Hlt | Hge].
    + rewrite nth_error_app1 in Hj by assumption.
      exact (Ht i0 j d0 v0 Hij Hi Hj).
    + rewrite nth_error_app2 in Hj by assumption.
      replace (j - length (collateral_basis s)) with 0 in Hj by lia.
      inversion Hj; subst v0. apply Hold. eapply nth_error_In; eauto.
Qed.

(** X3. In exact arithmetic the interpolation matrix that [ei_greedy]
    builds is lower triangular: a collateral basis vector is zero at every
    interpolation DOF selected before its own. *)
Theorem interpolation_matrix_lower_triangular (U : VectorArray) (copy : bool)
  (idofs : list nat) (basis : VectorArray) (data : ei_data R) :
  ei_greedy U copy = Ok (idofs, basis, data) ->
  forall i j d v, i < j ->
    nth_error idofs i = Some d -> nth_error basis j = Some v ->
    dof v d = Ok zero.
Proof.
  intros H. apply ei_greedy_Ok in H.
  destruct H as (i & init & fuel & st & tri & _ & _ & Hl & _ & E).
  inversion E; subst.
  eapply ei_loop_invariant with (P := tri_inv) in Hl;
    eauto using tri_inv_next.
  - apply Hl.
  - repeat split; simpl; auto. intros i0 j d v _ Hi. destruct i0; discriminate.
Qed.

End Triangular.

(** *** Termination of the sequential path on well-formed input *)

(** A square matrix with [n] rows. *)
Definition square (n : nat) (M : list (list R)) : Prop :=
  length M = n /\ Forall (fun r => length r = n) M.

Lemma transpose_shape (n : nat) (rows : list (list R)) :
  Forall (fun r => length r = n) rows ->
  length (transpose n rows) = n /\
  Forall (fun c => length c = length rows) (transpose n rows).
Proof.
  induction 1 as [|r rows Hr _ (IHl & IHf)]; simpl.
  - split; [apply repeat_length|].
    apply Forall_forall. intros c Hc. apply repeat_spec in Hc. subst; reflexivity.
  - split.
    + rewrite length_map, length_combine. lia.
    + apply Forall_forall. intros c Hc. apply in_map_iff in Hc.
      destruct Hc as ((x & col) & <- & Hin). apply in_combine_r in Hin.
      rewrite Forall_forall in IHf. simpl. f_equal. auto.
Qed.

Lemma np_tril_square (n : nat) (M : list (list R)) :
  square n M -> square n (np_tril M).
Proof.
  intros (Hl & Hf). unfold np_tril. split.
  - rewrite length_map, length_combine, length_seq. lia.
  - apply Forall_forall. intros r Hr. apply in_map_iff in Hr.
    destruct Hr as ((i & row) & <- & Hin). apply in_combine_r in Hin.
    rewrite Forall_forall in Hf. simpl. unfold tril_row.
    rewrite length_map, length_combine, length_seq, (Hf row Hin). lia.
Qed.

Lemma abs_diff_square (n : nat) (A B : list (list R)) :
  square n A -> square n B -> square n (abs_diff A B).
Proof.
  intros (Hl & Hf) (Hl' & Hf'). unfold abs_diff. split.
  - rewrite length_map, length_combine. lia.
  - apply Forall_forall. intros r Hr. apply in_map_iff in Hr.
    destruct Hr as ((a & b) & <- & Hin).
    pose proof (in_combine_l _ _ _ _ Hin) as Ha.
    pose proof (in_combine_r _ _ _ _ Hin) as Hb.
    rewrite Forall_forall in Hf, Hf'. simpl.
    rewrite length_map, length_combine, (Hf a Ha), (Hf' b Hb). lia.
Qed.

Lemma leading_block_nonempty (n d : nat) (A : list (list R)) :
  square n A -> 1 <= d -> 1 <= n -> leading_block d A <> [].
Proof.
  intros (Hl & Hf) Hd Hn. unfold leading_block.
  destruct A as [|r A]; [simpl in Hl; lia|].
  inversion Hf; subst. destruct r as [|x r]; [simpl in *; lia|].
  destruct d; [lia|]. simpl. discriminate.
Qed.

Lemma dofs_total (dim : nat) (basis : VectorArray) (idofs : list nat) :
  wf_array dim basis -> Forall (fun d => d < dim) idofs ->
  exists B, dofs basis idofs = Ok B /\ length B = length basis /\
            Forall (fun r => length r = length idofs) B.
Proof.
  intros Hb Hd. induction Hb as [|v basis Hv _ (B & EB & Hl & Hf)].
  - exists []. simpl. auto.
  - assert (exists row, mapM (dof v) idofs = Ok row) as (row & Erow).
    { apply mapM_total. eapply Forall_impl; [|exact Hd].
      simpl. intros d Hlt. apply getitem_lt. lia. }
    exists (row :: B). unfold dofs in *. simpl. rewrite Erow, EB. simpl.
    repeat split; auto. constructor; auto.
    eapply mapM_Ok_length; eauto.
Qed.

Lemma triangularity_total (dim : nat) (basis : VectorArray) (idofs : list nat) :
  wf_array dim basis -> Forall (fun d => d < dim) idofs ->
  length basis = length idofs ->
  exists tri, triangularity basis idofs = Ok tri.
Proof.
  intros Hb Hd Hlen. unfold triangularity.
  destruct (dofs_total Hb Hd) as (B & -> & Hl & Hf). simpl.
  destruct (transpose_shape Hf) as (Tl & Tf).
  set (M := transpose (length idofs) B) in *.
  assert (square (length idofs) M) as HM.
  { split; auto. rewrite Hl, Hlen in Tf. exact Tf. }
  pose proof (abs_diff_square HM (np_tril_square HM)) as HA.
  apply mapM_total. apply Forall_forall. intros d Hd'.
  apply in_seq in Hd'. apply np_max_nonempty.
  apply leading_block_nonempty with (n := length idofs); auto; lia.
Qed.

(** The well-formedness the loop maintains: every array lives in the space
    of dimension [dim], the working array keeps its [n] vectors, and the
    selected DOFs are DOFs of that space. *)
Definition ei_wf (dim n : nat) (st : ei_state R) : Prop :=
  wf_array dim (ERR st) /\ length (ERR st) = n /\ max_err_ind st < n /\
  wf_array dim (collateral_basis st) /\
  Forall (fun d => d < dim) (interpolation_dofs st) /\ ei_inv st.

Lemma getitem_wf (dim : nat) (U : VectorArray) (i : nat) (v : vector) :
  wf_array dim U -> getitem U i = Ok v -> length v = dim.
Proof.
  intros HU E. apply getitem_Ok in E. apply nth_error_In in E.
  unfold wf_array in HU. rewrite Forall_forall in HU. auto.
Qed.

Lemma ei_wf_next (dim n : nat) (init : R) (s s' : ei_state R) :
  ei_wf dim n s -> ei_next init s s' -> ei_wf dim n s'.
Proof.
  intros (HU & Hn & Hi & Hb & Hd & Hinv) Hs.
  pose proof (ei_inv_next Hinv Hs) as Hinv'.
  destruct Hs as [nv v d x col i e _ Hget Hsel Hcol Harg _].
  destruct Hsel as (Hamax & _ & _ & _ & ->).
  pose proof (@getitem_wf dim _ _ _ HU Hget) as Hnv.
  apply dofs_column_length in Hcol.
  assert (length (axpy (map opp col) (scal (div one x) nv) (ERR s)) = n) as Hlen.
  { rewrite axpy_length; [assumption | rewrite length_map; assumption]. }
  unfold ei_wf; simpl. repeat split; try apply Hinv'; auto.
  - apply axpy_wf; auto. rewrite scal_length; assumption.
  - apply np_argmax_lt in Harg. rewrite norms_length, Hlen in Harg. exact Harg.
  - apply Forall_app. split; auto. constructor; [|constructor].
    rewrite scal_length; assumption.
  - apply Forall_app. split; auto. constructor; [|constructor].
    apply amax_lt in Hamax. lia.
Qed.

(** Pigeonhole: distinct DOFs of a space of dimension [dim] are at most
    [dim]. *)
Lemma dofs_bounded (dim : nat) (l : list nat) :
  NoDup l -> Forall (fun d => d < dim) l -> length l <= dim.
Proof.
  intros Hn Hf. rewrite <- (length_seq dim 0).
  apply NoDup_incl_length; auto.
  intros d Hd. rewrite Forall_forall in Hf. apply in_seq. specialize (Hf d Hd). lia.
Qed.

(** The loop returns: each turn that continues selects a new DOF, so the
    fuel is enough as soon as it exceeds the number of DOFs left. *)
Lemma ei_loop_fuel (dim n : nat) (init : R) :
  0 < dim ->
  forall fuel st, ei_wf dim n st ->
    dim < fuel + length (interpolation_dofs st) ->
    exists r, ei_loop fuel init st = Ok r.
Proof.
  intros Hdim. induction fuel as [|fuel IH]; intros st Hwf Hfuel.
  - destruct Hwf as (_ & _ & _ & _ & Hd & _ & _ & Hn).
    pose proof (dofs_bounded Hn Hd). simpl in Hfuel. lia.
  - pose proof Hwf as (HU & Hn & Hi & Hb & Hd & Hinv).
    cbn [EI.ei_loop].
    destruct (dofs_limit_reached _ _) eqn:Hlim; eauto.
    destruct (atol_reached _ _) eqn:Hat; eauto.
    destruct (rtol_reached _ _ _) eqn:Hrt; eauto.
    destruct (@getitem_lt _ (ERR st) (max_err_ind st)) as (nv & Hget); [lia|].
    rewrite Hget; simpl.
    pose proof (@getitem_wf dim _ _ _ HU Hget) as Hnv.
    destruct (@np_argmax_nonempty (map abs nv)) as (d & Hamax).
    { destruct nv; [simpl in Hnv; lia | discriminate]. }
    fold (amax nv) in Hamax. rewrite Hamax; simpl.
    destruct (in_dofs d _) eqn:Hin; eauto.
    pose proof (@amax_lt _ _ Hamax) as Hlt.
    destruct (@getitem_lt _ nv d Hlt) as (x & Hx).
    unfold dof at 1. rewrite Hx; simpl.
    destruct (is_zero x) eqn:Hz; eauto.
    destruct (@dofs_column_total dim (ERR st) d HU) as (col & Hcol); [lia|].
    rewrite Hcol; simpl.
    set (v := scal (div one x) nv).
    set (U' := axpy (map opp col) v (ERR st)).
    assert (length U' = n) as Hlen.
    { unfold U'. rewrite axpy_length; auto.
      rewrite length_map. eapply dofs_column_length; eauto. }
    destruct (@worst_vector error_norm U') as (i & e & Harg & He & _).
    { intros E. rewrite E in Hlen. simpl in Hlen. lia. }
    rewrite Harg; simpl. rewrite He; simpl.
    apply IH.
    + eapply ei_wf_next; [exact Hwf|].
      econstructor; eauto.
      * unfold stops. rewrite Hlim, Hat, Hrt. reflexivity.
      * repeat split; auto.
    + simpl. rewrite length_app. simpl. lia.
Qed.

(** On a non-empty array of vectors of a space of positive dimension,
    [ei_greedy] returns a result: it neither raises nor runs out of fuel. *)
Lemma ei_greedy_returns (dim : nat) (U : VectorArray) (copy : bool) :
  0 < dim -> U <> [] -> wf_array dim U ->
  exists r, ei_greedy U copy = Ok r.
Proof.
  intros Hdim Hne HU. unfold EI.ei_greedy.
  destruct (worst_vector error_norm Hne) as (i & e & Harg & He & Hi).
  rewrite Harg; cbn [bind]. rewrite He; cbn [bind].
  assert (ei_wf dim (length U) (mk_state [] [] [] U i e)) as Hwf.
  { unfold ei_wf; simpl. repeat split; auto using ei_inv_init; constructor. }
  assert (space_dim U = dim) as Hsd.
  { destruct U as [|v U]; [congruence|]. inversion HU; subst. reflexivity. }
  destruct (@ei_loop_fuel dim (length U) e Hdim (S (space_dim U)) _ Hwf)
    as (st & Hst).
  { simpl. lia. }
  rewrite Hst; cbn [bind]. unfold ei_finish.
  eapply ei_loop_invariant with (P := ei_wf dim (length U)) in Hst;
    eauto using ei_wf_next.
  destruct Hst as (_ & _ & _ & Hb & Hd & Hlen & _).
  destruct (triangularity_total Hb Hd Hlen) as (tri & ->). simpl. eauto.
Qed.

(** *** The turns of the loop *)

(** [ei_path init st states r]: the loop goes from [st] to [r] by turns that
    continue; [states] are the states at the head of these turns, [st]
    first. *)
Inductive ei_path (init : R)
  : ei_state R -> list (ei_state R) -> ei_state R -> Prop :=
| ei_path_stop (st : ei_state R) : ei_path init st [] st
| ei_path_turn (st st' : ei_state R) (states : list (ei_state R))
    (r : ei_state R) :
    ei_next init st st' -> ei_path init st' states r ->
    ei_path init st (st :: states) r.

(** The loop is left at [st]: a stopping criterion holds there, or none
    does and the selection is degenerate. *)
Definition halts (init : R) (st : ei_state R) : Prop :=
  stops init (length (interpolation_dofs st)) (max_err st) = true \/
  (stops init (length (interpolation_dofs st)) (max_err st) = false /\
   exists new_vec, getitem (ERR st) (max_err_ind st) = Ok new_vec /\
                   degenerate new_vec (interpolation_dofs st)).

Lemma stops_false (init : R) (n : nat) (e : R) :
  stops init n e = false ->
  dofs_limit_reached max_interpolation_dofs n = false /\
  atol_reached atol e = false /\ rtol_reached rtol e init = false.
Proof.
  unfold stops. intros H. apply orb_false_iff in H. destruct H as (H & Hrt).
  apply orb_false_iff in H. tauto.
Qed.

Lemma ei_loop_halts (fuel : nat) (init : R) (st : ei_state R) :
  halts init st -> ei_loop (S fuel) init st = Ok st.
Proof.
  intros [Hstop | (Hstop & new_vec & Hget & Hdeg)].
  - unfold stops in Hstop. cbn [EI.ei_loop].
    destruct (dofs_limit_reached _ _); [reflexivity|].
    destruct (atol_reached _ _); [reflexivity|].
    destruct (rtol_reached _ _ _); [reflexivity | discriminate].
  - eapply ei_loop_degenerate; eauto.
Qed.

Lemma ei_loop_next (fuel : nat) (init : R) (st st' : ei_state R) :
  ei_next init st st' -> ei_loop (S fuel) init st = ei_loop fuel init st'.
Proof.
  intros H. destruct H as [nv v d x col i e Hstop Hget Hsel Hcol Harg He].
  destruct Hsel as (Hamax & Hx & Hin & Hz & ->).
  apply stops_false in Hstop. destruct Hstop as (Hlim & Hat & Hrt).
  cbn [EI.ei_loop]. rewrite Hlim, Hat, Hrt, Hget. cbn [bind].
  rewrite Hamax. cbn [bind]. rewrite Hin, Hx. cbn [bind]. rewrite Hz, Hcol.
  cbn [bind]. rewrite Harg. cbn [bind]. rewrite He. reflexivity.
Qed.

(** What the loop returns is reached by turns that continue, and the loop
    is left there. *)
Lemma ei_loop_path (fuel : nat) (init : R) :
  forall st r, ei_loop fuel init st = Ok r ->
  exists states, ei_path init st states r /\ halts init r.
Proof.
  induction fuel as [|fuel IH]; intros st r E; [discriminate|].
  pose proof E as E'. apply ei_loop_Ok in E'.
  destruct E' as [(-> & Hhalt) | (st' & Hn & E')].
  - exists []. split; [constructor|].
    destruct (stops init _ _) eqn:Hstop; [left; exact Hstop|].
    right. split; [exact Hstop|].
    destruct Hhalt as [Habs | Hdeg]; [discriminate | exact Hdeg].
  - destruct (IH _ _ E') as (states & Hp & Hh).
    exists (st :: states). split; [econstructor; eauto | exact Hh].
Qed.

(** Conversely, with fuel for its turns the loop returns the state at which
    it is left. *)
Lemma ei_path_loop (init : R) (st r : ei_state R)
  (states : list (ei_state R)) :
  ei_path init st states r -> halts init r ->
  forall fuel, length states < fuel -> ei_loop fuel init st = Ok r.
Proof.
  intros Hp Hh. induction Hp as [st | st st' states r Hn Hp IH];
    intros fuel Hfuel; (destruct fuel as [|fuel]; [simpl in Hfuel; lia|]).
  - apply ei_loop_halts. exact Hh.
  - rewrite (ei_loop_next fuel Hn). apply IH; [exact Hh | simpl in Hfuel; lia].
Qed.

Lemma ei_path_invariant (P : ei_state R -> Prop) (init : R) :
  (forall s s', P s -> ei_next init s s' -> P s') ->
  forall st states r, ei_path init st states r -> P st ->
    Forall P states /\ P r.
Proof.
  intros Hstep st states r Hp.
  induction Hp as [st | st st' states r Hn Hp IH]; intros HP.
  - split; [constructor | exact HP].
  - destruct (IH (Hstep _ _ HP Hn)) as (Hf & Hr).
    split; [constructor; assumption | exact Hr].
Qed.

(** The accumulators of the state reached: one DOF and one error for every
    turn, the error being the maximum error at the head of the turn. *)
Lemma ei_path_accumulates (init : R) (st r : ei_state R)
  (states : list (ei_state R)) :
  ei_path init st states r ->
  max_errs r = max_errs st ++ map (@max_err R) states /\
  length (interpolation_dofs r)
  = length (interpolation_dofs st) + length states /\
  Forall (fun s => stops init (length (interpolation_dofs s)) (max_err s)
                   = false) states.
Proof.
  intros Hp. induction Hp as [st | st st' states r Hn Hp (IHe & IHl & IHs)].
  - simpl. rewrite app_nil_r, Nat.add_0_r. repeat split. constructor.
  - destruct Hn as [nv v d x col i e Hstop _ _ _ _ _]. simpl in *.
    rewrite IHe, IHl, <- app_assoc, length_app. simpl.
    repeat split; [lia|]. constructor; assumption.
Qed.

(** The maximum error of a state is the first largest norm of its array. *)
Definition worst (st : ei_state R) : Prop :=
  np_argmax (norms (ERR st)) = Ok (max_err_ind st) /\
  getitem (norms (ERR st)) (max_err_ind st) = Ok (max_err st).

Lemma worst_next (init : R) (s s' : ei_state R) :
  worst s -> ei_next init s s' -> worst s'.
Proof.
  intros _ Hs. destruct Hs as [nv v d x col i e _ _ _ _ Harg He].
  split; assumption.
Qed.

(** What [ei_greedy] returns: the accumulators of the state at which its
    loop is left, reached from the initial state by turns that continue. *)
Lemma ei_greedy_path (U : VectorArray) (copy : bool)
  (idofs : list nat) (basis : VectorArray) (data : ei_data R) :
  ei_greedy U copy = Ok (idofs, basis, data) ->
  exists i init states st,
    np_argmax (norms U) = Ok i /\ getitem (norms U) i = Ok init /\
    ei_path init (mk_state [] [] [] U i init) states st /\
    halts init st /\
    idofs = interpolation_dofs st /\ basis = collateral_basis st /\
    errors data = max_errs st /\
    triangularity basis idofs = Ok (triangularity_errors data).
Proof.
  intros H. apply ei_greedy_Ok in H.
  destruct H as (i & init & fuel & st & tri & Harg & Hinit & Hl & Htri & E).
  inversion E; subst; clear E.
  destruct (ei_loop_path _ _ _ Hl) as (states & Hp & Hh).
  exists i, init, states, st. simpl. auto 10.
Qed.

(** On a well-formed array, a state reached by turns that continue, at
    which the loop is left, is what [ei_greedy] returns. *)
Lemma ei_path_greedy (dim : nat) (U : VectorArray) (copy : bool)
  (i : nat) (init : R) (states : list (ei_state R)) (st : ei_state R) :
  0 < dim -> wf_array dim U ->
  np_argmax (norms U) = Ok i -> getitem (norms U) i = Ok init ->
  ei_path init (mk_state [] [] [] U i init) states st ->
  halts init st ->
  exists tri,
    triangularity (collateral_basis st) (interpolation_dofs st) = Ok tri /\
    ei_greedy U copy
    = Ok (interpolation_dofs st, collateral_basis st,
          mk_data (max_errs st) tri).
Proof.
  intros Hdim HU Harg Hinit Hp Hh.
  assert (U <> []) as Hne.
  { intros ->. unfold norms in Harg. destruct error_norm; discriminate. }
  assert (ei_wf dim (length U) (mk_state [] [] [] U i init)) as Hwf.
  { apply np_argmax_lt in Harg. rewrite norms_length in Harg.
    unfold ei_wf; simpl. repeat split; auto using ei_inv_init; constructor. }
  destruct (@ei_path_invariant (ei_wf dim (length U)) init
              (@ei_wf_next dim (length U) init) _ _ _ Hp Hwf) as (_ & Hwf').
  destruct Hwf' as (_ & _ & _ & Hb & Hd & Hlen & _ & Hnd).
  destruct (ei_path_accumulates Hp) as (_ & Hturns & _). simpl in Hturns.
  assert (space_dim U = dim) as Hsd.
  { destruct U as [|v U]; [congruence|]. inversion HU; subst. reflexivity. }
  destruct (triangularity_total Hb Hd Hlen) as (tri & Htri).
  exists tri. split; [exact Htri|].
  unfold EI.ei_greedy. rewrite Harg. cbn [bind]. rewrite Hinit. cbn [bind].
  rewrite (ei_path_loop Hp Hh).
  - cbn [bind]. unfold ei_finish. rewrite Htri. reflexivity.
  - pose proof (dofs_bounded Hnd Hd). lia.
Qed.

(** *** The distributed loop *)

Local Abbreviation par_loop :=
  (par_loop l2_norm error_norm atol rtol max_interpolation_dofs).
Local Abbreviation _parallel_ei_greedy :=
  (_parallel_ei_greedy l2_norm error_norm atol rtol max_interpolation_dofs).
Local Abbreviation update := (_parallel_ei_greedy_update l2_norm error_norm).
Local Abbreviation initialize :=
  (_parallel_ei_greedy_initialize l2_norm error_norm).

(** A turn of the distributed loop that continues. *)
Inductive par_next (init : R) (st : par_state R) : par_state R -> Prop :=
| par_next_intro (new_vec v : vector) (d : nat) (x : R)
    (r : list (worker_data R * R)) (i : nat) (e : R) :
    stops init (length (p_interpolation_dofs st)) (p_max_err st) = false ->
    pool_apply_only (@_parallel_ei_greedy_get_vector R)
      (p_max_err_ind st) (distributed_data st) = Ok new_vec ->
    selects new_vec (p_interpolation_dofs st) v d x ->
    pool_apply (update v d) (distributed_data st) = Ok r ->
    np_argmax (map snd r) = Ok i ->
    getitem (map snd r) i = Ok e ->
    par_next init st
      (mk_par (p_interpolation_dofs st ++ [d]) (p_collateral_basis st ++ [v])
              (p_max_errs st ++ [p_max_err st]) (map fst r) i e).

Lemma par_loop_Ok (fuel : nat) (init : R) (st r : par_state R) :
  par_loop (S fuel) init st = Ok r ->
  (r = st /\
   (stops init (length (p_interpolation_dofs st)) (p_max_err st) = true \/
    exists new_vec,
      pool_apply_only (@_parallel_ei_greedy_get_vector R)
        (p_max_err_ind st) (distributed_data st) = Ok new_vec /\
      degenerate new_vec (p_interpolation_dofs st)))
  \/ exists st', par_next init st st' /\ par_loop fuel init st' = Ok r.
Proof.
  unfold stops. cbn [EI.par_loop].
  destruct (dofs_limit_reached _ _) eqn:Hlim;
    [intros H; inversion H; auto|].
  destruct (atol_reached _ _) eqn:Hat; [intros H; inversion H; auto|].
  destruct (rtol_reached _ _ _) eqn:Hrt; [intros H; inversion H; auto|].
  intros H. inv_bind H as new_vec Hget. inv_bind H as d Hamax.
  destruct (in_dofs d _) eqn:Hin.
  { inversion H; subst. left; split; auto. right. exists new_vec.
    split; auto. exists d; auto. }
  inv_bind H as x Hx.
  destruct (is_zero x) eqn:Hz.
  { inversion H; subst. left; split; auto. right. exists new_vec.
    split; auto. exists d. split; auto. right. split; auto. exists x; auto. }
  inv_bind H as res Hres. inv_bind H as i Harg. inv_bind H as e He.
  right. eexists. split; [|exact H].
  econstructor; eauto.
  - unfold stops. rewrite Hlim, Hat, Hrt. reflexivity.
  - repeat split; auto.
Qed.

Lemma par_loop_degenerate (fuel : nat) (init : R) (st : par_state R)
  (new_vec : vector) :
  stops init (length (p_interpolation_dofs st)) (p_max_err st) = false ->
  pool_apply_only (@_parallel_ei_greedy_get_vector R)
    (p_max_err_ind st) (distributed_data st) = Ok new_vec ->
  degenerate new_vec (p_interpolation_dofs st) ->
  par_loop (S fuel) init st = Ok st.
Proof.
  unfold stops. intros Hstop Hget (d & Hamax & Hdeg). cbn [EI.par_loop].
  apply orb_false_iff in Hstop. destruct Hstop as (Hstop & Hrt).
  apply orb_false_iff in Hstop. destruct Hstop as (Hlim & Hat).
  rewrite Hlim, Hat, Hrt, Hget. cbn [bind]. rewrite Hamax. cbn [bind].
  destruct Hdeg as [Hin | (Hin & x & Hx & Hz)]; rewrite Hin; [reflexivity|].
  rewrite Hx. cbn [bind]. rewrite Hz. reflexivity.
Qed.

Lemma par_loop_invariant (P : par_state R -> Prop) (init : R) :
  (forall s s', P s -> par_next init s s' -> P s') ->
  forall fuel st r, P st -> par_loop fuel init st = Ok r -> P r.
Proof.
  intros Hstep. induction fuel as [|fuel IH]; intros st r HP E.
  - discriminate.
  - apply par_loop_Ok in E. destruct E as [(-> & _) | (st' & Hn & E)]; eauto.
Qed.

Definition par_inv (st : par_state R) : Prop :=
  length (p_collateral_basis st) = length (p_interpolation_dofs st) /\
  NoDup (p_interpolation_dofs st).

Lemma par_inv_next (init : R) (s s' : par_state R) :
  par_inv s -> par_next init s s' -> par_inv s'.
Proof.
  intros (Hb & Hn) Hs. destruct Hs as [nv v d x r i e _ _ Hsel _ _ _].
  destruct Hsel as (_ & _ & Hin & _ & _).
  unfold par_inv; simpl. rewrite !length_app; simpl.
  split; try lia.
  apply NoDup_snoc; auto. apply in_dofs_false; exact Hin.
Qed.

Lemma parallel_ei_greedy_inv (U : list VectorArray) (copy : bool)
  (idofs : list nat) (basis : VectorArray) (data : ei_data R) :
  _parallel_ei_greedy U copy = Ok (idofs, basis, data) ->
  length basis = length idofs /\ NoDup idofs.
Proof.
  unfold EI._parallel_ei_greedy. intros H.
  inv_bind H as b0 Hempty. inv_bind H as r Hr.
  inv_bind H as i Harg. inv_bind H as init Hinit.
  inv_bind H as st Hloop. unfold par_finish in H.
  inv_bind H as tri Htri. inversion H; subst.
  assert (b0 = []) as ->.
  { unfold pool_apply_only in Hempty. inv_bind Hempty as w0 Hw0.
    unfold _parallel_ei_greedy_get_empty in Hempty. congruence. }
  eapply par_loop_invariant with (P := par_inv) in Hloop;
    eauto using par_inv_next.
  split; simpl; [reflexivity | constructor].
Qed.

(** *** The distributed loop selects what the sequential loop selects *)

Section Distributed.

Hypothesis order : order_laws.

(** What a worker reports: its worst vector is the first maximum of its
    shard. *)
Definition local_ok (p : worker_data R * R) : Prop :=
  np_argmax (norms (w_U (fst p))) = Ok (w_max_err_ind (fst p)) /\
  getitem (norms (w_U (fst p))) (w_max_err_ind (fst p)) = Ok (snd p).

Definition shards_of (r : list (worker_data R * R)) : list VectorArray :=
  map (fun p => w_U (fst p)) r.

Lemma local_first_max (p : worker_data R * R) :
  local_ok p ->
  first_max (norms (w_U (fst p))) (w_max_err_ind (fst p)) (snd p).
Proof.
  intros (Ha & Hg). destruct (np_argmax_first_max order _ Ha) as (x & Hx).
  apply getitem_Ok in Hg. destruct Hx as (Hn & Hrest).
  assert (x = snd p) as <- by congruence. split; assumption.
Qed.

(** The worst vector of the whole array is the worst vector of the first
    worker that reports the largest error. *)
Lemma global_of_local (r : list (worker_data R * R)) :
  r <> [] -> Forall local_ok r ->
  exists g w e v,
    first_max (norms (concat (shards_of r))) g e /\
    first_max (map snd r) w e /\
    getitem (concat (shards_of r)) g = Ok v /\
    pool_apply_only (@_parallel_ei_greedy_get_vector R) w (map fst r) = Ok v.
Proof.
  induction r as [|a r IH]; [congruence|]. intros _ Hf.
  inversion Hf as [|? ? Ha Hr]; subst.
  pose proof (local_first_max Ha) as Hla.
  assert (exists v, getitem (w_U (fst a)) (w_max_err_ind (fst a)) = Ok v)
    as (va & Hva).
  { apply getitem_lt. destruct Hla as (Hn & _).
    rewrite <- (norms_length error_norm). apply nth_error_Some. congruence. }
  destruct r as [|b r].
  - exists (w_max_err_ind (fst a)), 0, (snd a), va. simpl.
    rewrite app_nil_r. split; [exact Hla|].
    split; [apply (first_max_singleton order)|].
    split; [exact Hva|]. unfold pool_apply_only. simpl. exact Hva.
  - destruct IH as (g & w & e & v & Hg & Hw & Hv & Hp); [discriminate | exact Hr |].
    pose proof (first_max_app order Hla Hg) as Hglobal.
    pose proof (first_max_app order (first_max_singleton order (snd a)) Hw) as Hworkers.
    rewrite <- norms_app in Hglobal.
    change (shards_of (a :: b :: r))
      with (w_U (fst a) :: shards_of (b :: r)).
    rewrite concat_cons.
    change (map snd (a :: b :: r)) with ([snd a] ++ map snd (b :: r)).
    do 2 eexists. exists (if ltb (snd a) e then e else snd a).
    exists (if ltb (snd a) e then v else va).
    split; [exact Hglobal|]. split; [exact Hworkers|].
    rewrite norms_length.
    destruct (ltb (snd a) e); split.
    + apply getitem_Ok. rewrite nth_error_app2 by lia.
      replace (length (w_U (fst a)) + g - length (w_U (fst a))) with g by lia.
      apply getitem_Ok. exact Hv.
    + exact Hp.
    + apply getitem_Ok. rewrite nth_error_app1.
      * apply getitem_Ok. exact Hva.
      * apply nth_error_Some. apply getitem_Ok in Hva. congruence.
    + unfold pool_apply_only. simpl. exact Hva.
Qed.

Lemma global_argmax (r : list (worker_data R * R)) :
  r <> [] -> Forall local_ok r ->
  exists g w e v,
    np_argmax (norms (concat (shards_of r))) = Ok g /\
    getitem (norms (concat (shards_of r))) g = Ok e /\
    np_argmax (map snd r) = Ok w /\ getitem (map snd r) w = Ok e /\
    getitem (concat (shards_of r)) g = Ok v /\
    pool_apply_only (@_parallel_ei_greedy_get_vector R) w (map fst r) = Ok v.
Proof.
  intros Hne Hf. destruct (global_of_local Hne Hf) as (g & w & e & v & Hg & Hw & Hv & Hp).
  destruct (first_max_np_argmax order Hg). destruct (first_max_np_argmax order Hw).
  exists g, w, e, v. auto 10.
Qed.

Lemma combine_app {A B : Type} (l1 l2 : list A) (l1' l2' : list B) :
  length l1 = length l1' ->
  combine (l1 ++ l2) (l1' ++ l2') = combine l1 l1' ++ combine l2 l2'.
Proof.
  revert l1'. induction l1 as [|a l1 IH]; intros [|b l1']; simpl;
    intros E; try discriminate; auto.
  f_equal. apply IH. lia.
Qed.

Lemma axpy_app (c1 c2 : list R) (x : vector) (U1 U2 : VectorArray) :
  length c1 = length U1 ->
  axpy (map opp (c1 ++ c2)) x (U1 ++ U2) =
  axpy (map opp c1) x U1 ++ axpy (map opp c2) x U2.
Proof.
  intros E. unfold axpy. rewrite map_app, combine_app, map_app; auto.
  rewrite length_map. exact E.
Qed.

Lemma dofs_column_fuel (U : VectorArray) (d : nat) : dofs_column U d <> OutOfFuel.
Proof.
  unfold dofs_column. induction U as [|v U IH]; simpl; [discriminate|].
  unfold dof at 1. destruct (getitem v d) eqn:E; simpl; try discriminate.
  - destruct (mapM _ U); simpl; congruence.
  - exfalso. exact (getitem_fuel _ _ E).
Qed.

(** A worker with a non-empty shard: its update raises exactly when the
    extraction of the DOF values of its shard does. *)
Lemma update_worker (nv : vector) (d : nat) (w : worker_data R) :
  w_U w <> [] ->
  match dofs_column (w_U w) d with
  | Ok col => exists p, update nv d w = Ok p /\
                w_U (fst p) = axpy (map opp col) nv (w_U w) /\ local_ok p
  | Raised e => update nv d w = Raised e
  | OutOfFuel => False
  end.
Proof.
  intros Hne. unfold EI._parallel_ei_greedy_update.
  destruct (dofs_column (w_U w) d) as [col | e |] eqn:Hcol; simpl; auto.
  - set (U' := axpy (map opp col) nv (w_U w)).
    assert (length U' = length (w_U w)) as Hlen.
    { unfold U'. apply axpy_length. rewrite length_map.
      eapply dofs_column_length; eauto. }
    destruct (@worst_vector error_norm U') as (i & e & Harg & He & _).
    { intros E. rewrite E in Hlen. destruct (w_U w); [congruence | discriminate]. }
    rewrite Harg; simpl. rewrite He; simpl. eexists. split; [reflexivity|]. split; [reflexivity|].
    split; simpl; assumption.
  - exact (dofs_column_fuel _ _ Hcol).
Qed.

Lemma update_pool (nv : vector) (d : nat) (ws : list (worker_data R)) :
  Forall (fun w => w_U w <> []) ws ->
  match dofs_column (concat (map (@w_U R) ws)) d with
  | Ok col => exists r, pool_apply (update nv d) ws = Ok r /\
                concat (shards_of r) =
                  axpy (map opp col) nv (concat (map (@w_U R) ws)) /\
                Forall local_ok r /\ length r = length ws
  | Raised e => pool_apply (update nv d) ws = Raised e
  | OutOfFuel => False
  end.
Proof.
  unfold pool_apply. induction 1 as [|w ws Hw _ IH]; simpl.
  - exists []. simpl. auto.
  - unfold dofs_column in *. rewrite mapM_app.
    pose proof (@update_worker nv d w Hw) as Hu. unfold dofs_column in Hu.
    destruct (mapM (fun v => dof v d) (w_U w)) as [c1 | e |] eqn:E1; simpl; auto.
    + destruct Hu as (p & -> & HU & Hp). simpl.
      destruct (mapM (fun v => dof v d) (concat (map (@w_U R) ws)))
        as [c2 | e |]; simpl; auto.
      * destruct IH as (r & -> & Hc & Hf & Hl). simpl.
        exists (p :: r). split; [reflexivity|]. split; [|split; [constructor; auto | simpl; lia]].
        change (shards_of (p :: r)) with (w_U (fst p) :: shards_of r).
        rewrite concat_cons, HU, Hc, axpy_app; auto.
        eapply mapM_Ok_length; eauto.
      * rewrite IH. reflexivity.
    + rewrite Hu. reflexivity.
Qed.

Lemma initialize_pool (copy : bool) (U : list VectorArray) :
  Forall (fun shard => shard <> []) U ->
  exists r, pool_apply (fun shard => initialize shard copy) U = Ok r /\
            shards_of r = U /\ map (@w_U R) (map fst r) = U /\
            Forall local_ok r.
Proof.
  unfold pool_apply. induction 1 as [|shard U Hs _ (r & Er & HU & HU' & Hf)]; simpl.
  - exists []. simpl. auto.
  - unfold EI._parallel_ei_greedy_initialize at 1.
    destruct (worst_vector error_norm Hs) as (i & e & Harg & He & _).
    rewrite Harg; simpl. rewrite He; simpl. rewrite Er; simpl.
    eexists. split; [reflexivity|]. simpl. rewrite HU, HU'.
    repeat split; auto. constructor; auto. split; simpl; assumption.
Qed.

(** The two loops in step: same accumulators, the shards make up the working
    array, and the vector fetched from the owning worker is the worst
    vector. *)
Definition sim (st : ei_state R) (pst : par_state R) : Prop :=
  interpolation_dofs st = p_interpolation_dofs pst /\
  collateral_basis st = p_collateral_basis pst /\
  max_errs st = p_max_errs pst /\
  max_err st = p_max_err pst /\
  ERR st = concat (map (@w_U R) (distributed_data pst)) /\
  getitem (ERR st) (max_err_ind st) =
    pool_apply_only (@_parallel_ei_greedy_get_vector R)
      (p_max_err_ind pst) (distributed_data pst) /\
  Forall (fun w => w_U w <> []) (distributed_data pst) /\
  distributed_data pst <> [].

Definition omap {A B : Type} (f : A -> B) (c : outcome A) : outcome B :=
  match c with
  | Ok a => Ok (f a)
  | Raised e => Raised e
  | OutOfFuel => OutOfFuel
  end.

Definition seq_view (st : ei_state R) : list nat * VectorArray * list R :=
  (interpolation_dofs st, collateral_basis st, max_errs st).

Definition par_view (st : par_state R) : list nat * VectorArray * list R :=
  (p_interpolation_dofs st, p_collateral_basis st, p_max_errs st).

Lemma local_ok_nonempty (r : list (worker_data R * R)) :
  Forall local_ok r -> Forall (fun w => w_U w <> []) (map fst r).
Proof.
  induction 1 as [|p r (Ha & _) _ IH]; simpl; constructor; auto.
  intros E. rewrite E in Ha. destruct error_norm; discriminate.
Qed.

Lemma shards_of_fst (r : list (worker_data R * R)) :
  map (@w_U R) (map fst r) = shards_of r.
Proof. unfold shards_of. rewrite map_map. reflexivity. Qed.

Lemma loops_agree (init : R) :
  forall fuel st pst, sim st pst ->
    omap seq_view (ei_loop fuel init st) = omap par_view (par_loop fuel init pst).
Proof.
  induction fuel as [|fuel IH]; intros st pst Hs; [reflexivity|].
  destruct Hs as (Hd & Hb & He & Hm & HU & Hv & Hne & Hws).
  assert (seq_view st = par_view pst) as Hview.
  { unfold seq_view, par_view. congruence. }
  cbn [EI.ei_loop EI.par_loop]. rewrite <- Hd, <- Hm, <- Hv.
  destruct (dofs_limit_reached _ _); [simpl; congruence|].
  destruct (atol_reached _ _); [simpl; congruence|].
  destruct (rtol_reached _ _ _); [simpl; congruence|].
  destruct (getitem (ERR st) (max_err_ind st)) as [nv | |]; simpl; auto.
  destruct (amax nv) as [d | |]; simpl; auto.
  destruct (in_dofs d _); [simpl; congruence|].
  destruct (dof nv d) as [x | |]; simpl; auto.
  destruct (is_zero x); [simpl; congruence|].
  pose proof (@update_pool (scal (div one x) nv) d _ Hne) as Hup.
  rewrite <- HU in Hup.
  destruct (dofs_column (ERR st) d) as [col | e |]; simpl; [| | contradiction].
  - destruct Hup as (r & -> & Hc & Hf & Hl). simpl.
    assert (r <> []) as Hr.
    { intros ->. simpl in Hl. destruct (distributed_data pst); [congruence | discriminate]. }
    destruct (global_argmax Hr Hf) as (g & w & e & v & Hg1 & Hg2 & Hw1 & Hw2 & Hv1 & Hv2).
    rewrite Hc, HU in Hg1, Hg2, Hv1. rewrite <- HU in Hg1, Hg2, Hv1.
    rewrite Hg1, Hw1; simpl. rewrite Hg2, Hw2; simpl.
    apply IH. unfold sim; simpl.
    rewrite shards_of_fst, Hc, Hb, He, Hv1, Hv2.
    repeat split; auto.
    + apply local_ok_nonempty; assumption.
    + destruct r; [congruence | discriminate].
  - rewrite Hup. reflexivity.
Qed.

Lemma bind_omap {A B C : Type} (f : A -> B) (k : A -> outcome C)
  (k' : B -> outcome C) (c : outcome A) :
  (forall a, k a = k' (f a)) -> bind c k = bind (omap f c) k'.
Proof. intros H. destruct c; simpl; auto. Qed.

(** X20. When the array is distributed over at least one worker as
    consecutive, non-empty shards, the distributed algorithm returns (or
    raises) exactly what the sequential one does on the whole array with the
    same parameters: the same interpolation DOFs in the same order, the same
    collateral basis and the same diagnostics. The order of the arg-max is a
    strict weak order, as numpy's is (with [nan] above every number). *)
Theorem distributed_matches_sequential (U : list VectorArray) (copy : bool) :
  U <> [] -> Forall (fun shard => shard <> []) U ->
  _parallel_ei_greedy U copy = ei_greedy (concat U) copy.
Proof.
  intros Hne Hf. unfold EI._parallel_ei_greedy, EI.ei_greedy.
  assert (pool_apply_only (@_parallel_ei_greedy_get_empty R) 0 U = Ok []) as ->.
  { destruct U; [congruence | reflexivity]. }
  cbn [bind].
  destruct (initialize_pool copy Hf) as (r & -> & HU & HU' & Hl). cbn [bind].
  assert (r <> []) as Hr.
  { intros ->. simpl in HU. congruence. }
  destruct (global_argmax Hr Hl) as (g & w & e & v & Hg1 & Hg2 & Hw1 & Hw2 & Hv1 & Hv2).
  rewrite HU in Hg1, Hg2, Hv1.
  rewrite Hg1, Hw1; cbn [bind]. rewrite Hg2, Hw2; cbn [bind].
  rewrite (@bind_omap _ _ _ seq_view (@ei_finish R _) (fun t =>
    tri <- triangularity (snd (fst t)) (fst (fst t)) ;;
    Ok (fst (fst t), snd (fst t), mk_data (snd t) tri))) by reflexivity.
  rewrite (@bind_omap _ _ _ par_view (@par_finish R _) (fun t =>
    tri <- triangularity (snd (fst t)) (fst (fst t)) ;;
    Ok (fst (fst t), snd (fst t), mk_data (snd t) tri))) by reflexivity.
  f_equal. symmetry. apply loops_agree.
  unfold sim; simpl. rewrite HU', Hv1, Hv2. repeat split; auto.
  - apply local_ok_nonempty; assumption.
  - destruct r; [congruence | discriminate].
Qed.

End Distributed.

(** *** Bounds on what is selected *)

Lemma parallel_ei_greedy_Ok (U : list VectorArray) (copy : bool)
  (r : ei_result R) :
  _parallel_ei_greedy U copy = Ok r ->
  exists ws i init fuel st tri,
    pool_apply (fun shard => initialize shard copy) U = Ok ws /\
    par_loop fuel init (mk_par [] [] [] (map fst ws) i init) = Ok st /\
    triangularity (p_collateral_basis st) (p_interpolation_dofs st) = Ok tri /\
    r = (p_interpolation_dofs st, p_collateral_basis st,
         mk_data (p_max_errs st) tri).
Proof.
  unfold EI._parallel_ei_greedy. intros H.
  inv_bind H as b0 Hempty. inv_bind H as ws Hws.
  inv_bind H as i Harg. inv_bind H as init Hinit.
  inv_bind H as st Hloop. unfold par_finish in H.
  inv_bind H as tri Htri. inversion H; subst.
  assert (b0 = []) as ->.
  { unfold pool_apply_only in Hempty. inv_bind Hempty as w0 Hw0.
    unfold _parallel_ei_greedy_get_empty in Hempty. congruence. }
  exists ws, i, init, (S (space_dim (concat U))), st, tri. auto.
Qed.

(** X4. On an array whose vectors all have [dim] DOFs, the interpolation
    DOFs that [ei_greedy] returns are DOFs of that space, at most [dim] of
    them, and the collateral basis vectors live in the same space. *)
Theorem selected_dofs_in_space (dim : nat) (U : VectorArray) (copy : bool)
  (idofs : list nat) (basis : VectorArray) (data : ei_data R) :
  wf_array dim U ->
  ei_greedy U copy = Ok (idofs, basis, data) ->
  Forall (fun d => d < dim) idofs /\ length idofs <= dim /\
  wf_array dim basis.
Proof.
  intros HU H. apply ei_greedy_Ok in H.
  destruct H as (i & init & fuel & st & tri & Harg & _ & Hloop & _ & E).
  inversion E; subst; clear E.
  assert (ei_wf dim (length U) st) as (_ & _ & _ & Hb & Hd & _ & _ & Hn).
  { eapply ei_loop_invariant with (P := ei_wf dim (length U));
      eauto using ei_wf_next.
    apply np_argmax_lt in Harg. rewrite norms_length in Harg.
    unfold ei_wf; simpl. repeat split; auto; constructor. }
  repeat split; auto. apply dofs_bounded; assumption.
Qed.

(** The limit on the number of DOFs, as an invariant of both loops. *)
Definition within_limit (m : Z) (n : nat) : Prop :=
  (Z.of_nat n <= Z.max 0 m)%Z.

Lemma within_limit_next (m : Z) (init e : R) (n : nat) :
  max_interpolation_dofs = Some m ->
  stops init n e = false -> within_limit m (S n).
Proof.
  unfold stops, dofs_limit_reached, within_limit. intros -> H.
  apply orb_false_iff in H. destruct H as (H & _).
  apply orb_false_iff in H. destruct H as (H & _).
  apply Z.leb_gt in H. lia.
Qed.

(** X5. With [max_interpolation_dofs = m], [ei_greedy], sequential or
    distributed, returns at most [m] interpolation DOFs (none when [m] is
    negative). *)
Theorem dofs_limit_respected (m : Z) :
  max_interpolation_dofs = Some m ->
  (forall U copy idofs basis data,
     ei_greedy U copy = Ok (idofs, basis, data) ->
     (Z.of_nat (length idofs) <= Z.max 0 m)%Z) /\
  (forall U copy idofs basis data,
     _parallel_ei_greedy U copy = Ok (idofs, basis, data) ->
     (Z.of_nat (length idofs) <= Z.max 0 m)%Z).
Proof.
  intros Hm. split.
  - intros U copy idofs basis data H. apply ei_greedy_Ok in H.
    destruct H as (i & init & fuel & st & tri & _ & _ & Hloop & _ & E).
    injection E as -> -> ->.
    eapply ei_loop_invariant
      with (P := fun s => within_limit m (length (interpolation_dofs s)))
      in Hloop; eauto.
    + intros s s' _ Hs. destruct Hs as [nv v d x col j e Hstop _ _ _ _ _].
      simpl. rewrite length_app, Nat.add_1_r.
      eapply within_limit_next; eauto.
    + unfold within_limit. simpl. lia.
  - intros U copy idofs basis data H. apply parallel_ei_greedy_Ok in H.
    destruct H as (ws & i & init & fuel & st & tri & _ & Hloop & _ & E).
    injection E as -> -> ->.
    eapply par_loop_invariant
      with (P := fun s => within_limit m (length (p_interpolation_dofs s)))
      in Hloop; eauto.
    + intros s s' _ Hs. destruct Hs as [nv v d x r j e Hstop _ _ _ _ _].
      simpl. rewrite length_app, Nat.add_1_r.
      eapply within_limit_next; eauto.
    + unfold within_limit. simpl. lia.
Qed.

Lemma dofs_Ok_rows (basis : VectorArray) (idofs : list nat)
  (B : list (list R)) :
  dofs basis idofs = Ok B -> Forall (fun r => length r = length idofs) B.
Proof.
  unfold dofs. revert B. induction basis as [|v basis IH]; simpl; intros B H.
  - inversion H. constructor.
  - inv_bind H as row Hrow. inv_bind H as B' HB'. inversion H; subst.
    constructor; auto. eapply mapM_Ok_length; eauto.
Qed.

Lemma triangularity_length (basis : VectorArray) (idofs : list nat)
  (tri : list R) :
  triangularity basis idofs = Ok tri -> length tri = length idofs.
Proof.
  unfold triangularity. intros H. inv_bind H as B HB.
  apply mapM_Ok_length in H. rewrite length_seq in H.
  apply dofs_Ok_rows in HB. destruct (transpose_shape HB) as (Hl & _).
  congruence.
Qed.

(** X6. The diagnostics of [ei_greedy], sequential or distributed, hold one
    triangularity error per interpolation DOF (as they hold one error per
    DOF). *)
Theorem triangularity_errors_length :
  (forall U copy idofs basis data,
     ei_greedy U copy = Ok (idofs, basis, data) ->
     length (triangularity_errors data) = length idofs) /\
  (forall U copy idofs basis data,
     _parallel_ei_greedy U copy = Ok (idofs, basis, data) ->
     length (triangularity_errors data) = length idofs).
Proof.
  split.
  - intros U copy idofs basis data H. apply ei_greedy_Ok in H.
    destruct H as (i & init & fuel & st & tri & _ & _ & _ & Htri & E).
    inversion E; subst; simpl. eapply triangularity_length; eauto.
  - intros U copy idofs basis data H. apply parallel_ei_greedy_Ok in H.
    destruct H as (ws & i & init & fuel & st & tri & _ & _ & Htri & E).
    inversion E; subst; simpl. eapply triangularity_length; eauto.
Qed.

(** *** The triangularity diagnostics in exact arithmetic *)

Lemma nth_error_map_combine (A B C : Type) (f : A * B -> C)
  (a : list A) (b : list B) (i : nat) (y : C) :
  nth_error (map f (combine a b)) i = Some y ->
  exists p q, nth_error a i = Some p /\ nth_error b i = Some q /\ y = f (p, q).
Proof.
  revert b i. induction a as [|x a IH]; intros [|z b] [|i] H; simpl in H;
    try discriminate.
  - inversion H. exists x, z. auto.
  - apply IH in H. exact H.
Qed.

Lemma mapM_nth_error (A B : Type) (f : A -> outcome B) (l : list A)
  (r : list B) (i : nat) (y : B) :
  mapM f l = Ok r -> nth_error r i = Some y ->
  exists x, nth_error l i = Some x /\ f x = Ok y.
Proof.
  revert r i. induction l as [|x l IH]; simpl; intros r i H Hi.
  - inversion H; subst. destruct i; discriminate.
  - inv_bind H as b Hb. inv_bind H as r' Hr'. inversion H; subst.
    destruct i as [|i]; simpl in Hi.
    + inversion Hi; subst. exists x. auto.
    + destruct (IH _ _ Hr' Hi) as (x0 & Hx0 & Hf). exists x0. auto.
Qed.

Lemma mapM_Forall (A B : Type) (f : A -> outcome B) (P : B -> Prop)
  (l : list A) (r : list B) :
  mapM f l = Ok r -> (forall x y, In x l -> f x = Ok y -> P y) -> Forall P r.
Proof.
  revert r. induction l as [|x l IH]; simpl; intros r H HP.
  - inversion H. constructor.
  - inv_bind H as b Hb. inv_bind H as r' Hr'. inversion H; subst.
    constructor; eauto.
Qed.

(** Entry [(i, j)] of [M.T] is entry [(j, i)] of [M]. *)
Lemma transpose_nth (n : nat) (rows : list (list R)) (i j : nat)
  (row : list R) (x : R) :
  nth_error (transpose n rows) i = Some row -> nth_error row j = Some x ->
  exists r, nth_error rows j = Some r /\ nth_error r i = Some x.
Proof.
  revert i j row x. induction rows as [|r rows IH]; simpl; intros i j row x Hi Hj.
  - apply nth_error_In, repeat_spec in Hi. subst. destruct j; discriminate.
  - apply nth_error_map_combine in Hi. destruct Hi as (a & row' & Ha & Hrow' & ->).
    destruct j as [|j]; simpl in Hj.
    + inversion Hj; subst. exists r. auto.
    + destruct (IH _ _ _ _ Hrow' Hj) as (r0 & Hr0 & Hx). exists r0. auto.
Qed.

Lemma tril_row_nth (i j : nat) (row : list R) (y : R) :
  nth_error (tril_row i row) j = Some y ->
  exists x, nth_error row j = Some x /\ y = if j <=? i then x else zero.
Proof.
  unfold tril_row. intros H. apply nth_error_map_combine in H.
  destruct H as (k & x & Hk & Hx & ->). rewrite nth_error_seq in Hk.
  destruct (j <? length row); [|discriminate]. injection Hk as <-.
  exists x. auto.
Qed.

Lemma In_firstn (A : Type) (n : nat) (l : list A) (x : A) :
  In x (firstn n l) -> In x l.
Proof.
  intros H. rewrite <- (firstn_skipn n l). apply in_or_app. auto.
Qed.

Definition lower_triangular_matrix (M : list (list R)) : Prop :=
  forall i j row x, i < j ->
    nth_error M i = Some row -> nth_error row j = Some x -> x = zero.

Lemma np_max_zero (l : list R) (m : R) :
  Forall (fun x => x = zero) l -> np_max l = Ok m -> m = zero.
Proof.
  destruct l as [|x l]; simpl; intros Hl H; [discriminate|].
  inversion Hl as [|? ? Hx Hl']; subst. inversion H; subst. clear H Hl.
  induction Hl' as [|y l -> _ IH]; simpl; auto.
  destruct (ltb zero zero); exact IH.
Qed.

Section ExactDiagnostics.

Hypothesis mul_inv : forall x : R, is_zero x = false -> mul x (div one x) = one.
Hypothesis add_opp : forall x : R, add x (mul one (opp x)) = zero.
Hypothesis mul_zero : forall x : R, mul zero x = zero.
Hypothesis add_zero : add zero zero = zero.
Hypothesis sub_self : forall x : R, sub x x = zero.
Hypothesis abs_zero : abs zero = zero.

Lemma abs_diff_tril_zero (M : list (list R)) :
  lower_triangular_matrix M ->
  Forall (Forall (fun x => x = zero)) (abs_diff M (np_tril M)).
Proof.
  intros HM. apply Forall_forall. intros r Hr.
  apply In_nth_error in Hr. destruct Hr as (i & Hi).
  unfold abs_diff in Hi. apply nth_error_map_combine in Hi.
  destruct Hi as (a & b & Ha & Hb & ->).
  unfold np_tril in Hb. apply nth_error_map_combine in Hb.
  destruct Hb as (k & a' & Hk & Ha' & ->).
  rewrite nth_error_seq in Hk. destruct (i <? length M); [|discriminate].
  injection Hk as <-. assert (a' = a) as -> by congruence.
  cbn [fst snd Nat.add].
  apply Forall_forall. intros e He.
  apply In_nth_error in He. destruct He as (j & Hj).
  apply nth_error_map_combine in Hj. destruct Hj as (x & y & Hx & Hy & ->).
  apply tril_row_nth in Hy. destruct Hy as (x' & Hx' & ->).
  assert (x' = x) as -> by congruence. cbn [fst snd].
  destruct (j <=? i) eqn:Hji.
  - rewrite sub_self. exact abs_zero.
  - apply Nat.leb_gt in Hji. rewrite (HM i j a x Hji Ha Hx), sub_self.
    exact abs_zero.
Qed.

Lemma leading_block_zero (d : nat) (E : list (list R)) :
  Forall (Forall (fun x => x = zero)) E ->
  Forall (fun x => x = zero) (leading_block d E).
Proof.
  intros HE. apply Forall_forall. intros x Hx. unfold leading_block in Hx.
  apply in_concat in Hx. destruct Hx as (l & Hl & Hx).
  apply in_map_iff in Hl. destruct Hl as (l0 & <- & Hl0).
  apply In_firstn in Hl0. apply In_firstn in Hx.
  rewrite Forall_forall in HE. specialize (HE l0 Hl0).
  rewrite Forall_forall in HE. auto.
Qed.

(** X7. In exact arithmetic the [triangularity_errors] that [ei_greedy]
    reports are all zero: the diagnostic measures rounding only. *)
Theorem triangularity_errors_vanish (U : VectorArray) (copy : bool)
  (idofs : list nat) (basis : VectorArray) (data : ei_data R) :
  ei_greedy U copy = Ok (idofs, basis, data) ->
  Forall (fun e => e = zero) (triangularity_errors data).
Proof.
  intros H. apply ei_greedy_Ok in H.
  destruct H as (i & init & fuel & st & tri & _ & _ & Hl & Htri & E).
  inversion E; subst; simpl.
  eapply ei_loop_invariant with (P := tri_inv) in Hl;
    eauto using tri_inv_next.
  2: { repeat split; simpl; auto. intros i0 j d v _ Hi. destruct i0; discriminate. }
  destruct Hl as (_ & _ & Hlow).
  unfold triangularity in Htri. inv_bind Htri as B HB.
  eapply mapM_Forall; [exact Htri|]. intros d m _ Hm.
  eapply np_max_zero; [|exact Hm].
  apply leading_block_zero, abs_diff_tril_zero.
  intros a b row x Hab Hrow Hx.
  destruct (transpose_nth _ _ _ _ Hrow Hx) as (r & Hr & Hrx).
  unfold dofs in HB.
  destruct (mapM_nth_error _ _ _ HB Hr) as (v & Hv & Hvr).
  destruct (mapM_nth_error _ _ _ Hvr Hrx) as (d0 & Hd0 & Hdof).
  specialize (Hlow a b d0 v Hab Hd0 Hv). congruence.
Qed.

End ExactDiagnostics.

(** *** The turns of the distributed loop *)

Inductive par_path (init : R)
  : par_state R -> list (par_state R) -> par_state R -> Prop :=
| par_path_stop (st : par_state R) : par_path init st [] st
| par_path_turn (st st' : par_state R) (states : list (par_state R))
    (r : par_state R) :
    par_next init st st' -> par_path init st' states r ->
    par_path init st (st :: states) r.

Definition par_halts (init : R) (st : par_state R) : Prop :=
  stops init (length (p_interpolation_dofs st)) (p_max_err st) = true \/
  (stops init (length (p_interpolation_dofs st)) (p_max_err st) = false /\
   exists new_vec,
     pool_apply_only (@_parallel_ei_greedy_get_vector R)
       (p_max_err_ind st) (distributed_data st) = Ok new_vec /\
     degenerate new_vec (p_interpolation_dofs st)).

Lemma par_loop_path (fuel : nat) (init : R) :
  forall st r, par_loop fuel init st = Ok r ->
  exists states, par_path init st states r /\ par_halts init r.
Proof.
  induction fuel as [|fuel IH]; intros st r E; [discriminate|].
  pose proof E as E'. apply par_loop_Ok in E'.
  destruct E' as [(-> & Hhalt) | (st' & Hn & E')].
  - exists []. split; [constructor|].
    destruct (stops init _ _) eqn:Hstop; [left; exact Hstop|].
    right. split; [exact Hstop|].
    destruct Hhalt as [Habs | Hdeg]; [discriminate | exact Hdeg].
  - destruct (IH _ _ E') as (states & Hp & Hh).
    exists (st :: states). split; [econstructor; eauto | exact Hh].
Qed.

Lemma ei_path_head (init : R) (st s r : ei_state R)
  (states : list (ei_state R)) :
  ei_path init st (s :: states) r -> s = st.
Proof. intros H. inversion H; reflexivity. Qed.

(** C6 (as amended). The errors returned by [ei_greedy] hold one entry per
    selected DOF: the maximum errors of the states at the head of the turns
    that continued, the first being the initial maximum error. Each is the
    first largest norm of the array of its state, which the turn before
    deflated; and for none of them a tolerance test held. (They need not
    decrease.) *)
Theorem errors_recorded (U : VectorArray) (copy : bool)
  (idofs : list nat) (basis : VectorArray) (data : ei_data R) :
  ei_greedy U copy = Ok (idofs, basis, data) ->
  length (errors data) = length idofs /\
  exists i init states final,
    np_argmax (norms U) = Ok i /\ getitem (norms U) i = Ok init /\
    ei_path init (mk_state [] [] [] U i init) states final /\
    errors data = map (@max_err R) states /\
    (forall e, hd_error (errors data) = Some e -> e = init) /\
    Forall (fun st =>
              (np_argmax (norms (ERR st)) = Ok (max_err_ind st) /\
               getitem (norms (ERR st)) (max_err_ind st) = Ok (max_err st)) /\
              atol_reached atol (max_err st) = false /\
              rtol_reached rtol (max_err st) init = false) states.
Proof.
  intros H. split; [eapply ei_greedy_inv; eauto|].
  apply ei_greedy_path in H.
  destruct H as (i & init & states & st & Harg & Hinit & Hp & _ & _ & _ & He & _).
  exists i, init, states, st.
  destruct (ei_path_accumulates Hp) as (Hacc & _ & Hstops). simpl in Hacc.
  rewrite He, Hacc.
  assert (worst (mk_state [] [] [] U i init)) as Hw0 by (split; assumption).
  destruct (@ei_path_invariant worst init (@worst_next init) _ _ _ Hp Hw0)
    as (Hworst & _).
  repeat split; auto.
  - intros e Hhd. destruct states as [|s states]; [discriminate|].
    apply ei_path_head in Hp. subst s. simpl in Hhd. congruence.
  - rewrite Forall_forall in *. intros s Hs.
    destruct (stops_false _ _ _ (Hstops s Hs)) as (_ & Hat & Hrt).
    split; [exact (Hworst s Hs) | split; assumption].
Qed.


End Loop.

(** *** DEIM *)

Section DeimFacts.

Variables Product PodOptions : Type.
Variable pod : VectorArray -> option Z -> option R -> option R ->
               option Product -> PodOptions -> outcome (VectorArray * list R).
Variable solve : list (list R) -> list R -> outcome (list R).

Local Abbreviation deim_residual := (deim_residual solve).
Local Abbreviation deim_loop := (deim_loop solve).
Local Abbreviation deim := (deim pod solve).

(** The interpolation matrix of the DOFs chosen so far: the first basis
    vectors evaluated at them (the empty matrix when there is none). *)
Definition matrix_of (basis : VectorArray) (idofs : list nat)
  : outcome (list (list R)) :=
  B <- dofs (firstn (length idofs) basis) idofs ;;
  Ok (transpose (length idofs) B).

(** The DOF that basis vector [v] proposes when [idofs] are chosen: the
    largest-magnitude DOF of its interpolation residual. *)
Definition candidate (basis : VectorArray) (idofs : list nat) (v : vector)
  : outcome nat :=
  M <- matrix_of basis idofs ;;
  ERR <- deim_residual basis idofs M v ;;
  amax ERR.

(** DOF number [j] is the candidate of basis vector number [j]. *)
Definition chosen_in_order (basis : VectorArray) (idofs : list nat) : Prop :=
  forall j d, nth_error idofs j = Some d ->
    exists v, nth_error basis j = Some v /\
              candidate basis (firstn j idofs) v = Ok d.

(** Where the loop stopped early, the next basis vector proposed a DOF
    chosen before. *)
Definition stopped_on_repeat (basis : VectorArray) (idofs : list nat) : Prop :=
  length idofs < length basis ->
  exists v d, nth_error basis (length idofs) = Some v /\
              candidate basis idofs v = Ok d /\ In d idofs.

Lemma chosen_in_order_snoc (basis : VectorArray) (idofs : list nat)
  (v : vector) (d : nat) :
  chosen_in_order basis idofs ->
  nth_error basis (length idofs) = Some v ->
  candidate basis idofs v = Ok d ->
  chosen_in_order basis (idofs ++ [d]).
Proof.
  intros Hc Hv Hd j d' Hj.
  destruct (Nat.lt_ge_cases j (length idofs)) as [Hlt | Hge].
  - rewrite nth_error_app1 in Hj by assumption.
    rewrite firstn_app. replace (j - length idofs) with 0 by lia.
    simpl. rewrite app_nil_r. auto.
  - rewrite nth_error_app2 in Hj by assumption.
    destruct (j - length idofs) as [|k] eqn:E; simpl in Hj.
    + inversion Hj; subst d'. assert (j = length idofs) as -> by lia.
      rewrite firstn_app, firstn_all, Nat.sub_diag. simpl. rewrite app_nil_r.
      eauto.
    + destruct k; discriminate.
Qed.

Lemma deim_loop_spec (basis : VectorArray) (r : list nat) :
  forall m k idofs M,
    length idofs = k -> k + m = length basis ->
    matrix_of basis idofs = Ok M ->
    NoDup idofs -> chosen_in_order basis idofs ->
    deim_loop basis (seq k m) idofs M = Ok r ->
    NoDup r /\ chosen_in_order basis r /\ stopped_on_repeat basis r /\
    length r <= length basis.
Proof.
  induction m as [|m IH]; intros k idofs M Hk Hn HM Hnd Hc; simpl; intros H.
  - inversion H; subst r. repeat split; auto; try lia.
    intros Hlt; lia.
  - inv_bind H as v Hv. inv_bind H as residual Hres. inv_bind H as d Hamax.
    assert (candidate basis idofs v = Ok d) as Hcand.
    { unfold candidate. rewrite HM; simpl. rewrite Hres; simpl. exact Hamax. }
    apply getitem_Ok in Hv. rewrite <- Hk in Hv.
    destruct (in_dofs d idofs) eqn:Hin.
    + inversion H; subst r. repeat split; auto; try lia.
      intros _. exists v, d. repeat split; auto. apply in_dofs_true; exact Hin.
    + inv_bind H as B HB.
      apply (IH (S k) (idofs ++ [d]) (transpose (length (idofs ++ [d])) B)); auto.
      * rewrite length_app; simpl; lia.
      * lia.
      * unfold matrix_of. rewrite HB. reflexivity.
      * apply NoDup_snoc; auto. apply in_dofs_false; exact Hin.
      * eapply chosen_in_order_snoc; eauto.
Qed.

Lemma deim_lengths (U : VectorArray) (modes : option Z) (atol' rtol' : option R)
  (product : option Product) (pod_options : PodOptions)
  (idofs : list nat) (basis : VectorArray) (data : deim_data R) :
  deim U modes atol' rtol' product pod_options = Ok (idofs, basis, data) ->
  length idofs = length basis.
Proof.
  unfold EI.deim. intros H. inv_bind H as (pod_basis & sv) Hpod.
  inv_bind H as r Hloop. inversion H; subst; clear H.
  destruct (Nat.ltb_spec (length idofs) (length pod_basis)) as [Hlt | Hge].
  - rewrite length_firstn. lia.
  - apply deim_loop_spec in Hloop; auto.
    + lia.
    + constructor.
    + intros j d Hj. destruct j; discriminate.
Qed.

(** C9. When [deim] returns, the DOFs were chosen in a single pass over the
    POD basis: DOF number [j] is the largest-magnitude DOF of the residual
    of basis vector number [j], so there are at most as many DOFs as POD
    modes and none repeats; if fewer, the next basis vector proposed a DOF
    chosen before; and the returned basis is the POD basis truncated to the
    number of DOFs chosen. *)
Theorem deim_single_pass (U : VectorArray) (modes : option Z)
  (atol' rtol' : option R) (product : option Product)
  (pod_options : PodOptions)
  (idofs : list nat) (basis : VectorArray) (data : deim_data R) :
  deim U modes atol' rtol' product pod_options = Ok (idofs, basis, data) ->
  exists pod_basis,
    pod U modes atol' rtol' product pod_options = Ok (pod_basis, svals data) /\
    length idofs <= length pod_basis /\ NoDup idofs /\
    chosen_in_order pod_basis idofs /\
    stopped_on_repeat pod_basis idofs /\
    basis = firstn (length idofs) pod_basis.
Proof.
  unfold EI.deim. intros H. inv_bind H as (pod_basis & sv) Hpod.
  inv_bind H as r Hloop. inversion H; subst; clear H.
  exists pod_basis. simpl. split; [assumption|].
  apply deim_loop_spec in Hloop; auto.
  - destruct Hloop as (Hnd & Hc & Hs & Hle). repeat split; auto.
    destruct (length idofs <? length pod_basis) eqn:El; [reflexivity|].
    apply Nat.ltb_ge in El. rewrite firstn_all2; [reflexivity | lia].
  - constructor.
  - intros j d Hj. destruct j; discriminate.
Qed.

End DeimFacts.

(** *** The claims about [ei_greedy], [_parallel_ei_greedy] and [deim] *)

Lemma ei_loop_stops (error_norm : option (vector -> R)) (atol rtol : option R)
  (max_interpolation_dofs : option Z) (fuel : nat) (init : R) (st : ei_state R) :
  stops atol rtol max_interpolation_dofs init
        (length (interpolation_dofs st)) (max_err st) = true ->
  ei_loop l2_norm error_norm atol rtol max_interpolation_dofs (S fuel) init st
  = Ok st.
Proof.
  unfold stops. intros H. cbn [ei_loop].
  destruct (dofs_limit_reached _ _); [reflexivity|].
  destruct (atol_reached _ _); [reflexivity|].
  destruct (rtol_reached _ _ _); [reflexivity | discriminate].
Qed.

(** The error sequence never increases, its last entry left aside. *)
Fixpoint non_increasing (l : list R) : bool :=
  match l with
  | x :: l' =>
    match l' with
    | y :: _ => leb y x && non_increasing l'
    | [] => true
    end
  | [] => true
  end.

Definition non_increasing_except_last (l : list R) : bool :=
  non_increasing (removelast l).

(** C2 (as amended). On an empty array [ei_greedy] does not reach the
    stopping checks: the arg-max of the empty array of errors raises
    [ValueError] before the loop. The graceful stop is that of a non-empty
    array: when a stopping criterion holds at the first check, the result is
    empty DOFs, an empty basis and empty diagnostics. *)
Theorem ei_greedy_empty_raises
  (error_norm : option (vector -> R)) (atol rtol : option R)
  (max_interpolation_dofs : option Z) :
  (forall copy,
     ei_greedy l2_norm error_norm atol rtol max_interpolation_dofs [] copy
     = Raised ValueError) /\
  (forall U copy i e,
     np_argmax (norms l2_norm error_norm U) = Ok i ->
     getitem (norms l2_norm error_norm U) i = Ok e ->
     stops atol rtol max_interpolation_dofs e 0 e = true ->
     ei_greedy l2_norm error_norm atol rtol max_interpolation_dofs U copy
     = Ok ([], [], mk_data [] [])).
Proof.
  split.
  - intros copy. unfold ei_greedy. destruct error_norm; reflexivity.
  - intros U copy i e Ha Hg Hs. unfold ei_greedy.
    rewrite Ha; cbn [bind]. rewrite Hg; cbn [bind].
    rewrite ei_loop_stops by exact Hs. reflexivity.
Qed.

(** C3. Whenever [ei_greedy] (sequential or distributed) or [deim] returns,
    the returned interpolation DOFs and the returned collateral basis have
    the same length. *)
Theorem dofs_and_basis_lengths :
  (forall error_norm atol rtol max_interpolation_dofs U copy idofs basis data,
     ei_greedy l2_norm error_norm atol rtol max_interpolation_dofs U copy
     = Ok (idofs, basis, data) ->
     length idofs = length basis) /\
  (forall error_norm atol rtol max_interpolation_dofs U copy idofs basis data,
     _parallel_ei_greedy l2_norm error_norm atol rtol max_interpolation_dofs
       U copy = Ok (idofs, basis, data) ->
     length idofs = length basis) /\
  (forall (Product PodOptions : Type) pod solve U modes atol rtol
          (product : option Product) (pod_options : PodOptions)
          idofs basis data,
     deim pod solve U modes atol rtol product pod_options
     = Ok (idofs, basis, data) ->
     length idofs = length basis).
Proof.
  repeat split.
  - intros. symmetry. eapply ei_greedy_inv; eauto.
  - intros. symmetry. eapply parallel_ei_greedy_inv; eauto.
  - intros Product PodOptions pod solve U modes atol rtol product pod_options
      idofs basis data H.
    eapply deim_lengths; eauto.
Qed.


(** X1. With [max_interpolation_dofs <= 0] and a non-empty array,
    [ei_greedy] returns at the first check: no DOF, an empty basis, no
    diagnostics. *)
Theorem no_dofs_allowed
  (error_norm : option (vector -> R)) (atol rtol : option R)
  (m : Z) (U : VectorArray) (copy : bool) :
  (m <= 0)%Z -> U <> [] ->
  ei_greedy l2_norm error_norm atol rtol (Some m) U copy
  = Ok ([], [], mk_data [] []).
Proof.
  intros Hm HU. unfold ei_greedy.
  destruct (worst_vector error_norm HU) as (i & e & Harg & He & _).
  rewrite Harg; cbn [bind]. rewrite He; cbn [bind].
  rewrite ei_loop_stops; [reflexivity|].
  unfold stops, dofs_limit_reached. simpl.
  destruct (Z.leb_spec m 0); [reflexivity | lia].
Qed.

End Facts.

(** *** The algorithms on rational vectors *)

Lemma ltbQ_lt (x y : Q) : ltb x y = true <-> (x < y)%Q.
Proof.
  change (negb (Qle_bool y x) = true <-> (x < y)%Q).
  rewrite negb_true_iff. split.
  - intros H. apply Qnot_le_lt. intros Hle. apply Qle_bool_iff in Hle. congruence.
  - intros H. destruct (Qle_bool y x) eqn:E; auto.
    apply Qle_bool_iff in E. exfalso. exact (Qlt_not_le _ _ H E).
Qed.

Lemma orderQ : @order_laws Q ScalarQ.
Proof.
  constructor.
  - intros x. destruct (ltb x x) eqn:E; auto.
    apply ltbQ_lt in E. exfalso. exact (Qlt_irrefl _ E).
  - intros x y z Hxy Hyz. apply ltbQ_lt in Hxy, Hyz. apply ltbQ_lt.
    eapply Qlt_trans; eauto.
  - intros x y z Hxz. apply ltbQ_lt in Hxz.
    destruct (Qlt_le_dec x y) as [Hlt | Hle].
    + left. apply ltbQ_lt. exact Hlt.
    + right. apply ltbQ_lt. eapply Qle_lt_trans; eauto.
Qed.

Lemma mul_invQ (x : Q) : is_zero x = false -> mul x (div one x) = one.
Proof.
  intros Hz. change (Qeq_bool x 0 = false) in Hz.
  assert (~ (x == 0)%Q) as Hx.
  { intros E. apply Qeq_bool_iff in E. congruence. }
  change (Qred (x * Qred (1 / x)) = Qred 1). apply Qred_complete.
  rewrite Qred_correct. field. exact Hx.
Qed.

Lemma add_oppQ (x : Q) : add x (mul one (opp x)) = zero.
Proof.
  change (Qred (x + Qred (1 * Qred (- x))) = Qred 0). apply Qred_complete.
  rewrite !Qred_correct. ring.
Qed.

Lemma mul_zeroQ (x : Q) : mul zero x = zero.
Proof.
  change (Qred (0 * x) = Qred 0). apply Qred_complete. ring.
Qed.

Lemma sub_selfQ (x : Q) : sub x x = zero.
Proof.
  change (Qred (x - x) = Qred 0). apply Qred_complete. ring.
Qed.

Definition arrayQ (rows : list (list Z)) : VectorArray Q :=
  map (map inject_Z) rows.

(** Two vectors of norm 5 in the plane: deflating the second by the first
    leaves a vector of norm 6. A third, orthogonal one has norm 1. *)
Definition U2 : VectorArray Q := arrayQ [[4; 3]; [4; -3]]%Z.
Definition U3 : VectorArray Q := arrayQ [[4; 3; 0]; [4; -3; 0]; [0; 0; 1]]%Z.

(** A POD stand-in that hands the snapshots back as the basis. *)
Definition pod_id (U : VectorArray Q) (modes : option Z) (atol rtol : option Q)
  (product : option unit) (pod_options : unit)
  : outcome (VectorArray Q * list Q) := Ok (U, []).

Example ei_greedy_U2 :
  ei_greedy l2_normQ None None None None U2 true
  = Ok ([0; 1], [[1; 3 # 4]; [0; 1]]%Q, mk_data [5; 6]%Q [0; 0]%Q).
Proof. vm_compute. reflexivity. Qed.

Example ei_greedy_U3 :
  ei_greedy l2_normQ None None None None U3 true
  = Ok ([0; 1; 2], [[1; 3 # 4; 0]; [0; 1; 0]; [0; 0; 1]]%Q,
        mk_data [5; 6; 1]%Q [0; 0; 0]%Q).
Proof. vm_compute. reflexivity. Qed.

Lemma distributed_matches_sequential_witness :
  _parallel_ei_greedy l2_normQ None None None None
    [arrayQ [[4; 3]]%Z; arrayQ [[4; -3]]%Z] true
  = ei_greedy l2_normQ None None None None
      (concat [arrayQ [[4; 3]]%Z; arrayQ [[4; -3]]%Z]) true.
Proof.
  apply (@distributed_matches_sequential Q ScalarQ l2_normQ None None None None
           orderQ [arrayQ [[4; 3]]%Z; arrayQ [[4; -3]]%Z] true).
  - discriminate.
  - repeat constructor; discriminate.
Defined.

(** C1. The two paths differ when a worker has no vector. One vector and
    two workers: the second worker's shard is empty. The sequential
    algorithm selects DOF 0 and returns; the distributed one raises
    [ValueError], on the arg-max of the second worker's empty array of
    errors. *)
Lemma distributed_empty_shard_raises :
  concat [arrayQ [[4; 3]]%Z; []] = arrayQ [[4; 3]]%Z /\
  ei_greedy l2_normQ None None None None (arrayQ [[4; 3]]%Z) true
  = Ok ([0], [[1; 3 # 4]]%Q, mk_data [5]%Q [0]%Q) /\
  _parallel_ei_greedy l2_normQ None None None None
    [arrayQ [[4; 3]]%Z; []] true
  = Raised ValueError.
Proof. repeat split; vm_compute; reflexivity. Qed.

Lemma ei_greedy_empty_raises_witness :
  ei_greedy l2_normQ None (Some 5%Q) None None (arrayQ [[4; 3]]%Z) true
  = Ok ([], [], mk_data [] []).
Proof.
  apply (proj2 (@ei_greedy_empty_raises Q ScalarQ l2_normQ None (Some 5%Q) None None)
           (arrayQ [[4; 3]]%Z) true 0 5%Q); reflexivity.
Defined.

(** C2, counterexample. The empty array, with tolerances that would stop
    the loop at once: [ei_greedy] raises instead of returning. *)
Lemma ei_greedy_empty_counterexample :
  ei_greedy l2_normQ None (Some 0%Q) (Some 0%Q) (Some 0%Z) [] true
  = Raised ValueError.
Proof. reflexivity. Qed.

Lemma dofs_and_basis_lengths_witness :
  length [0; 1] = length [[1; 3 # 4]; [0; 1]]%Q /\
  length [0] = length [[1; 0]]%Q.
Proof.
  split.
  - apply (proj1 (@dofs_and_basis_lengths Q ScalarQ l2_normQ)
             None None None None U2 true [0; 1] [[1; 3 # 4]; [0; 1]]%Q
             (mk_data [5; 6]%Q [0; 0]%Q)).
    vm_compute. reflexivity.
  - apply (proj2 (proj2 (@dofs_and_basis_lengths Q ScalarQ l2_normQ))
             unit unit pod_id solveQ (arrayQ [[1; 0]; [2; 0]]%Z)
             None None None None tt [0] [[1; 0]]%Q (mk_deim_data [])).
    vm_compute. reflexivity.
Defined.

(** The state of the loop on [U2] after two turns: everything is deflated
    to zero, and the next selection repeats DOF 0. *)
Definition U2_deflated : ei_state Q :=
  mk_state [0; 1] [[1; 3 # 4]; [0; 1]]%Q [5; 6]%Q [[0; 0]; [0; 0]]%Q 0 0%Q.

Definition U2_initial : ei_state Q :=
  mk_state [] [] [] U2 0 5%Q.

Definition U2_first : ei_state Q :=
  mk_state [0] [[1; 3 # 4]]%Q [5]%Q [[0; 0]; [0; -6]]%Q 1 6%Q.




(** C6, counterexample. On [U3] the loop records the errors 5, 6, 1: the
    second entry, which is not the last one, exceeds the first. *)
Lemma errors_increase :
  exists idofs basis data,
    ei_greedy l2_normQ None None None None U3 true = Ok (idofs, basis, data) /\
    errors data = [5; 6; 1]%Q /\
    non_increasing_except_last (errors data) = false.
Proof.
  do 3 eexists. split; [vm_compute; reflexivity|].
  split; reflexivity.
Qed.

Lemma errors_recorded_witness :
  length [5; 6]%Q = length [0; 1] /\
  exists i init states final,
    np_argmax (norms l2_normQ None U2) = Ok i /\
    getitem (norms l2_normQ None U2) i = Ok init /\
    ei_path l2_normQ None (Some 0%Q) None None init
      (mk_state [] [] [] U2 i init) states final /\
    [5; 6]%Q = map (@max_err Q) states /\
    (forall e, hd_error [5; 6]%Q = Some e -> e = init) /\
    Forall (fun st =>
              (np_argmax (norms l2_normQ None (ERR st)) = Ok (max_err_ind st) /\
               getitem (norms l2_normQ None (ERR st)) (max_err_ind st)
               = Ok (max_err st)) /\
              atol_reached (Some 0%Q) (max_err st) = false /\
              rtol_reached None (max_err st) init = false) states.
Proof.
  apply (@errors_recorded Q ScalarQ l2_normQ None (Some 0%Q) None None U2 true
           [0; 1] [[1; 3 # 4]; [0; 1]]%Q (mk_data [5; 6]%Q [0; 0]%Q)).
  vm_compute. reflexivity.
Defined.

Lemma interpolation_matrix_lower_triangular_witness :
  dof [0; 0; 1]%Q 1 = Ok 0%Q.
Proof.
  apply (@interpolation_matrix_lower_triangular Q ScalarQ l2_normQ
           None None None None mul_invQ add_oppQ mul_zeroQ eq_refl U3 true
           [0; 1; 2] [[1; 3 # 4; 0]; [0; 1; 0]; [0; 0; 1]]%Q
           (mk_data [5; 6; 1]%Q [0; 0; 0]%Q))
    with (i := 1) (j := 2).
  - vm_compute. reflexivity.
  - lia.
  - reflexivity.
  - reflexivity.
Defined.

Lemma no_dofs_allowed_witness :
  ei_greedy l2_normQ None None None (Some 0%Z) U2 true
  = Ok ([], [], mk_data [] []).
Proof.
  apply (@no_dofs_allowed Q ScalarQ l2_normQ None None None 0%Z U2 true).
  - lia.
  - discriminate.
Defined.

Lemma selected_dofs_in_space_witness :
  Forall (fun d => d < 3) [0; 1; 2] /\ length [0; 1; 2] <= 3 /\
  wf_array 3 [[1; 3 # 4; 0]; [0; 1; 0]; [0; 0; 1]]%Q.
Proof.
  apply (@selected_dofs_in_space Q ScalarQ l2_normQ None None None None
           3 U3 true [0; 1; 2] [[1; 3 # 4; 0]; [0; 1; 0]; [0; 0; 1]]%Q
           (mk_data [5; 6; 1]%Q [0; 0; 0]%Q)).
  - repeat constructor.
  - vm_compute. reflexivity.
Defined.

Lemma dofs_limit_respected_witness :
  (Z.of_nat (length [0; 1]) <= Z.max 0 2)%Z.
Proof.
  apply (proj1 (@dofs_limit_respected Q ScalarQ l2_normQ None None None
                  (Some 2%Z) 2%Z eq_refl)
           U3 true [0; 1] [[1; 3 # 4; 0]; [0; 1; 0]]%Q
           (mk_data [5; 6]%Q [0; 0]%Q)).
  vm_compute. reflexivity.
Defined.

Lemma triangularity_errors_length_witness :
  length (triangularity_errors (mk_data [5; 6]%Q [0; 0]%Q)) = length [0; 1].
Proof.
  apply (proj2 (@triangularity_errors_length Q ScalarQ l2_normQ None None None
                  (Some 2%Z))
           [arrayQ [[4; 3; 0]]%Z; arrayQ [[4; -3; 0]; [0; 0; 1]]%Z] true
           [0; 1] [[1; 3 # 4; 0]; [0; 1; 0]]%Q (mk_data [5; 6]%Q [0; 0]%Q)).
  vm_compute. reflexivity.
Defined.

Lemma triangularity_errors_vanish_witness :
  Forall (fun e => e = 0%Q) [0; 0; 0]%Q.
Proof.
  apply (@triangularity_errors_vanish Q ScalarQ l2_normQ None None None None
           mul_invQ add_oppQ mul_zeroQ eq_refl sub_selfQ eq_refl U3 true
           [0; 1; 2] [[1; 3 # 4; 0]; [0; 1; 0]; [0; 0; 1]]%Q
           (mk_data [5; 6; 1]%Q [0; 0; 0]%Q)).
  vm_compute. reflexivity.
Defined.

Lemma deim_single_pass_witness :
  exists pod_basis,
    pod_id (arrayQ [[1; 0]; [2; 0]]%Z) None None None None tt
    = Ok (pod_basis, []) /\
    length [0] <= length pod_basis /\ NoDup [0] /\
    chosen_in_order solveQ pod_basis [0] /\
    stopped_on_repeat solveQ pod_basis [0] /\
    [[1; 0]]%Q = firstn (length [0]) pod_basis.
Proof.
  apply (@deim_single_pass Q ScalarQ unit unit pod_id solveQ
           (arrayQ [[1; 0]; [2; 0]]%Z) None None None None tt
           [0] [[1; 0]]%Q (mk_deim_data [])).
  vm_compute. reflexivity.
Defined.

End EIFacts.

(** ** [interpolate_operators] *)

Module InterpolateFacts.

Import EI Interpolate.

Section Facts.

Context {R : Type} {SR : Scalar R}.
Variable l2_norm : vector R -> R.
Variables Mu Sol Op Space Attributes : Type.
Variable space_eq_dec : forall a b : Space, {a = b} + {a <> b}.
Variable range : Op -> Space.
Variable op_apply : Op -> Sol -> Mu -> VectorArray R.
Variable EmpiricalInterpolatedOperator :
  Op -> list nat -> VectorArray R -> bool -> Op.
Variables Product PodOptions : Type.
Variable pod : VectorArray R -> option Z -> option R -> option R ->
               option Product -> PodOptions -> outcome (VectorArray R * list R).
Variable linalg_solve : list (list R) -> list R -> outcome (list R).

Local Abbreviation string := String.string.
Local Abbreviation dict := (dict Op).
Local Abbreviation Discretization := (Discretization Op Attributes).
Local Abbreviation array := (@array R Space).
Local Abbreviation evaluations_t := (@evaluations_t R Space).
Local Abbreviation pool_t := (@pool_t R Mu).

Variable solve : Discretization -> Mu -> Sol.
Variable solution_space : Discretization -> Space.
Local Abbreviation interpolation_data := (@interpolation_data R).

(** *** Dicts *)

Definition assign (d items : dict) : dict :=
  fold_left (fun acc e => dict_setitem (fst e) (snd e) acc) items d.

Lemma dict_getitem_setitem_same (d : dict) (k : string) (v : Op) :
  dict_getitem (dict_setitem k v d) k = Some v.
Proof.
  induction d as [|(k', v') d IH]; simpl.
  - rewrite String.eqb_refl. reflexivity.
  - destruct (String.eqb k' k) eqn:E; simpl; rewrite E; auto.
Qed.

Lemma dict_getitem_setitem_other (d : dict) (k k' : string) (v : Op) :
  k' <> k -> dict_getitem (dict_setitem k v d) k' = dict_getitem d k'.
Proof.
  intros Hne. induction d as [|(k0, v0) d IH]; simpl.
  - destruct (String.eqb_spec k k'); [congruence | reflexivity].
  - destruct (String.eqb_spec k0 k) as [-> | Hk]; simpl.
    + destruct (String.eqb_spec k k'); [congruence | reflexivity].
    + destruct (String.eqb k0 k'); auto.
Qed.

Lemma dict_setitem_keys (d : dict) (k : string) (v : Op) :
  dict_getitem d k <> None -> map fst (dict_setitem k v d) = map fst d.
Proof.
  induction d as [|(k0, v0) d IH]; simpl; [congruence|].
  destruct (String.eqb k0 k); simpl; intros H; [reflexivity|].
  rewrite IH; auto.
Qed.

Lemma dict_setitem_In (d : dict) (k : string) (v : Op) (e : string * Op) :
  In e (dict_setitem k v d) -> In e d \/ e = (k, v).
Proof.
  induction d as [|(k0, v0) d IH]; simpl.
  - intros [<- | []]. auto.
  - destruct (String.eqb_spec k0 k) as [-> | Hk]; simpl.
    + intros [<- | H]; auto.
    + intros [<- | H]; auto. destruct (IH H); auto.
Qed.

Lemma dict_getitem_keys (d : dict) (k : string) :
  dict_getitem d k <> None <-> In k (map fst d).
Proof.
  induction d as [|(k0, v0) d IH]; simpl; [tauto|].
  destruct (String.eqb_spec k0 k) as [-> | Hk].
  - split; [auto | discriminate].
  - rewrite IH. tauto.
Qed.

Lemma assign_other (items d : dict) (k : string) :
  ~ In k (map fst items) -> dict_getitem (assign d items) k = dict_getitem d k.
Proof.
  revert d. induction items as [|(k0, v0) items IH]; simpl; intros d H; auto.
  unfold assign in *. simpl. rewrite IH by tauto.
  apply dict_getitem_setitem_other. intros ->. tauto.
Qed.

Lemma assign_same (items d : dict) (k : string) (v : Op) :
  (forall e, In e items -> fst e = k -> snd e = v) ->
  In k (map fst items) -> dict_getitem (assign d items) k = Some v.
Proof.
  revert d. induction items as [|(k0, v0) items IH]; simpl; intros d Hv Hk;
    [contradiction|].
  unfold assign in *. simpl.
  destruct (in_dec String.string_dec k (map fst items)) as [Hin | Hout].
  - apply IH; auto.
  - destruct Hk as [-> | Hk]; [|contradiction].
    pose proof (@assign_other items (dict_setitem k v0 d) k Hout) as E.
    unfold assign in E. rewrite E.
    assert (v0 = v) as -> by (apply (Hv (k, v0)); auto).
    apply dict_getitem_setitem_same.
Qed.

Lemma assign_keys (items d : dict) :
  (forall e, In e items -> dict_getitem d (fst e) <> None) ->
  map fst (assign d items) = map fst d.
Proof.
  revert d. induction items as [|(k0, v0) items IH]; simpl; intros d H; auto.
  unfold assign in *. simpl. rewrite IH.
  - apply dict_setitem_keys. apply (H (k0, v0)). auto.
  - intros e He. rewrite dict_getitem_keys, dict_setitem_keys.
    + apply dict_getitem_keys. auto.
    + apply (H (k0, v0)). auto.
Qed.

Lemma assign_In (items d : dict) (e : string * Op) :
  In e (assign d items) -> In e d \/ In e items.
Proof.
  revert d. induction items as [|(k0, v0) items IH]; simpl; intros d H; auto.
  unfold assign in *. simpl in H. destruct (IH _ H) as [H' | H']; auto.
  apply dict_setitem_In in H'. destruct H'; auto.
Qed.

Lemma assign_has_keys (items d : dict) (k : string) :
  In k (map fst items) \/ In k (map fst d) -> In k (map fst (assign d items)).
Proof.
  revert d. induction items as [|(k0, v0) items IH]; simpl; intros d H.
  - tauto.
  - unfold assign in *. simpl. apply IH.
    destruct H as [[<- | H] | H]; auto; right; apply dict_getitem_keys.
    + rewrite dict_getitem_setitem_same. discriminate.
    + destruct (String.string_dec k k0) as [-> | Hne].
      * rewrite dict_getitem_setitem_same. discriminate.
      * rewrite dict_getitem_setitem_other by assumption.
        apply dict_getitem_keys. assumption.
Qed.

(** *** The operators that are looked up *)

Lemma combine_keys (A B : Type) (l : list A) (l' : list B) :
  length l' = length l -> map fst (combine l l') = l.
Proof.
  revert l'. induction l as [|a l IH]; intros [|b l'] H; simpl in *;
    try discriminate; auto.
  rewrite IH; auto.
Qed.

Lemma lookup_operators_inr (d : dict) (names : list string) (ops : list Op) :
  lookup_operators d names = inr ops ->
  length ops = length names /\
  forall e, In e (combine names ops) -> dict_getitem d (fst e) = Some (snd e).
Proof.
  revert ops. induction names as [|n names IH]; simpl; intros ops H.
  - inversion H. split; [reflexivity | intros e []].
  - destruct (dict_getitem d n) as [o|] eqn:Hn; [|discriminate].
    destruct (lookup_operators d names) as [m | os]; [discriminate|].
    inversion H; subst. destruct (IH os eq_refl) as (Hl & Hall).
    split; [simpl; congruence|]. intros e [<- | He]; auto.
Qed.

Lemma lookup_operators_inl (d : dict) (names : list string) (n : string) :
  In n names -> dict_getitem d n = None ->
  exists m, In m names /\ dict_getitem d m = None /\
            lookup_operators d names = inl m.
Proof.
  induction names as [|n0 names IH]; simpl; intros Hin Hn; [contradiction|].
  destruct (dict_getitem d n0) as [o|] eqn:Hn0.
  - destruct Hin as [-> | Hin]; [congruence|].
    destruct (IH Hin Hn) as (m & Hm & Hd & ->). exists m. auto.
  - exists n0. auto.
Qed.

Definition valid_algorithm (alg : string) : bool :=
  String.eqb alg "ei_greedy" || String.eqb alg "deim".

Local Abbreviation interpolate_operators :=
  (interpolate_operators l2_norm space_eq_dec range op_apply
     EmpiricalInterpolatedOperator pod linalg_solve solve solution_space).

(** X13. [interpolate_operators] checks its arguments before it computes
    anything: an [alg] other than ['ei_greedy'] and ['deim'] fails the
    assertion; otherwise, a name in [operator_names] that is no key of
    [d.operators] raises [KeyError] (for a missing name), whatever the
    sample and the pool. *)
Theorem interpolate_operators_checks_arguments
  (error_norm : option (vector R -> R)) (product : option Product)
  (atol rtol : option R) (max_interpolation_dofs : option Z)
  (pod_options : PodOptions) (d : Discretization)
  (operator_names : list string) (parameter_sample : list Mu)
  (alg : string) (pool : pool_t) :
  (valid_algorithm alg = false ->
   interpolate_operators error_norm product atol rtol max_interpolation_dofs
     pod_options d operator_names parameter_sample alg pool
   = Fails AssertionError) /\
  (valid_algorithm alg = true ->
   forall n, In n operator_names -> dict_getitem (operators d) n = None ->
   exists m, In m operator_names /\ dict_getitem (operators d) m = None /\
     interpolate_operators error_norm product atol rtol max_interpolation_dofs
       pod_options d operator_names parameter_sample alg pool
     = Fails (KeyError m)).
Proof.
  unfold Interpolate.interpolate_operators, valid_algorithm. split.
  - intros ->. reflexivity.
  - intros -> n Hin Hn.
    destruct (@lookup_operators_inl _ _ _ Hin Hn) as (m & Hm & Hd & ->).
    exists m. auto.
Qed.

(** X14. When [interpolate_operators] returns, the new discretization has
    the keys of [d.operators] in their order, the name [d.name + '_ei'] and
    the other attributes of [d]; every operator named in [operator_names] is
    replaced by the |EmpiricalInterpolatedOperator| of that operator with the
    returned [dofs] and [basis] and [triangular = (alg == 'ei_greedy')];
    every other operator is the one of [d]. *)
Theorem interpolated_operators_replace_named
  (error_norm : option (vector R -> R)) (product : option Product)
  (atol rtol : option R) (max_interpolation_dofs : option Z)
  (pod_options : PodOptions) (d ei_d : Discretization)
  (operator_names : list string) (parameter_sample : list Mu)
  (alg : string) (pool : pool_t) (data : interpolation_data) :
  interpolate_operators error_norm product atol rtol max_interpolation_dofs
    pod_options d operator_names parameter_sample alg pool
  = Returns (ei_d, data) ->
  map fst (operators ei_d) = map fst (operators d) /\
  name ei_d = String.append (name d) "_ei" /\
  attributes ei_d = attributes d /\
  (forall n, In n operator_names ->
     exists o, dict_getitem (operators d) n = Some o /\
       dict_getitem (operators ei_d) n
       = Some (EmpiricalInterpolatedOperator o (data_dofs data)
                 (data_basis data) (String.eqb alg "ei_greedy"))) /\
  (forall n, ~ In n operator_names ->
     dict_getitem (operators ei_d) n = dict_getitem (operators d) n).
Proof.
  unfold Interpolate.interpolate_operators. intros H.
  destruct (negb _); [discriminate|].
  destruct (lookup_operators _ _) as [m | ops] eqn:Hops; [discriminate|].
  destruct (evaluate _ _ _ _ _ _ _ _ _) as [ev | |]; try discriminate.
  destruct (select _ _ _ _ _ _ _ _ _ _ _ _ _) as [((idofs & basis) & adata) | |];
    try discriminate.
  inversion H; subst; clear H.
  cbn [operators name attributes with_ data_dofs data_basis].
  apply lookup_operators_inr in Hops. destruct Hops as (Hlen & Hall).
  set (ei := fun o => EmpiricalInterpolatedOperator o idofs basis
                        (String.eqb alg "ei_greedy")).
  set (items := map (fun e => (fst e, ei (snd e))) (combine operator_names ops)).
  fold (assign [] items). fold (assign (operators d) (assign [] items)).
  assert (map fst items = operator_names) as Hkeys.
  { unfold items. rewrite map_map. simpl.
    change (map (fun x => fst x) (combine operator_names ops))
      with (map fst (combine operator_names ops)).
    apply combine_keys. exact Hlen. }
  assert (forall e, In e (assign [] items) ->
            exists o, dict_getitem (operators d) (fst e) = Some o /\
                      snd e = ei o) as Hitems.
  { intros e He. apply assign_In in He. destruct He as [[] | He].
    unfold items in He. apply in_map_iff in He.
    destruct He as (e0 & <- & He0). exists (snd e0).
    split; [exact (Hall e0 He0) | reflexivity]. }
  split; [|split; [reflexivity|split; [reflexivity|split]]].
  - apply assign_keys. intros e He.
    destruct (Hitems e He) as (o & Ho & _). congruence.
  - intros n Hn.
    assert (In n (map fst (assign [] items))) as Hin.
    { apply assign_has_keys. left. rewrite Hkeys. exact Hn. }
    assert (dict_getitem (operators d) n <> None) as Hsome.
    { apply in_map_iff in Hin. destruct Hin as (e & <- & He).
      destruct (Hitems e He) as (o & Ho & _). congruence. }
    destruct (dict_getitem (operators d) n) as [o|] eqn:Ho; [|congruence].
    exists o. split; [reflexivity|]. apply assign_same; auto.
    intros e He Hfst. destruct (Hitems e He) as (o' & Ho' & ->).
    rewrite Hfst in Ho'. assert (o' = o) as -> by congruence. reflexivity.
  - intros n Hn. apply assign_other. intros Hin. apply Hn.
    apply in_map_iff in Hin. destruct Hin as (e & <- & He).
    apply assign_In in He. destruct He as [[] | He].
    rewrite <- Hkeys. apply in_map. exact He.
Qed.

(** *** The evaluations *)

Lemma lookup_operators_found (d : dict) (names : list string) :
  (forall n, In n names -> dict_getitem d n <> None) ->
  exists ops, lookup_operators d names = inr ops /\ length ops = length names.
Proof.
  induction names as [|n names IH]; simpl; intros H.
  - exists []. auto.
  - destruct (dict_getitem d n) as [o|] eqn:Hn; [|exfalso; eapply H; eauto].
    destruct IH as (ops & -> & Hl); [auto|]. exists (o :: ops). simpl. auto.
Qed.

Lemma map_answer_ext (A B : Type) (f g : A -> answer B) (l : list A) :
  (forall x, In x l -> f x = g x) -> map_answer f l = map_answer g l.
Proof.
  induction l as [|x l IH]; simpl; intros H; [reflexivity|].
  rewrite (H x), IH; auto.
Qed.

Lemma map_answer_map (A B C : Type) (f : B -> answer C) (g : A -> B)
  (l : list A) :
  map_answer f (map g l) = map_answer (fun x => f (g x)) l.
Proof.
  induction l as [|x l IH]; simpl; [reflexivity|]. rewrite IH. reflexivity.
Qed.

Lemma map_answer_Returns (A B : Type) (g : A -> B) (l : list A) :
  map_answer (fun x => Returns (g x)) l = Returns (map g l).
Proof.
  induction l as [|x l IH]; simpl; [reflexivity|]. rewrite IH. reflexivity.
Qed.

Lemma map_answer_Fails (A B : Type) (f : A -> answer B) (g : A -> B)
  (e : error) (l : list A) :
  (forall x, In x l -> f x = Returns (g x) \/ f x = Fails e) ->
  (exists x, In x l /\ f x = Fails e) ->
  map_answer f l = Fails e.
Proof.
  induction l as [|x l IH]; simpl; intros Hall (y & Hy & Hf); [contradiction|].
  destruct (Hall x (or_introl eq_refl)) as [E | E]; rewrite E; [|reflexivity].
  rewrite IH; [reflexivity | auto|].
  destruct Hy as [-> | Hy]; [congruence | eauto].
Qed.

Lemma map_nth_seq (A : Type) (l : list A) (d : A) :
  map (fun i => nth i l d) (seq 0 (length l)) = l.
Proof.
  induction l as [|a l IH]; [reflexivity|].
  cbn [length seq map nth]. rewrite <- seq_shift, map_map. cbn [nth].
  rewrite IH. reflexivity.
Qed.

(** The evaluations of the operators for one parameter. *)
Definition evaluations_at (d : Discretization) (ops : list Op) (mu : Mu)
  : VectorArray R :=
  concat (map (fun op => op_apply op (solve d mu) mu) ops).

(** All the operators have their range in the space [s]. *)
Definition in_space (s : Space) (ops : list Op) : bool :=
  forallb (fun op => if space_eq_dec s (range op) then true else false) ops.

Definition is_nil {A : Type} (l : list A) : bool :=
  match l with
  | [] => true
  | _ :: _ => false
  end.

Local Abbreviation build :=
  (_interpolate_operators_build_evaluations space_eq_dec range op_apply solve).

Lemma build_evaluations_spec (d : Discretization) (ops : list Op) (mu : Mu)
  (evaluations : array) :
  build mu d ops evaluations
  = if in_space (space evaluations) ops
    then Returns (mk_array (space evaluations)
                    (vectors evaluations ++ evaluations_at d ops mu))
    else Fails AssertionError.
Proof.
  unfold _interpolate_operators_build_evaluations, evaluations_at.
  cbv zeta. revert evaluations.
  induction ops as [|o ops IH]; intros [s vs]; cbn [fold_answer].
  - simpl. rewrite app_nil_r. reflexivity.
  - unfold append at 1. cbn [Interpolate.apply space vectors in_space forallb].
    destruct (space_eq_dec s (range o)) as [E | E]; [|reflexivity].
    rewrite IH. cbn [space vectors andb map concat].
    fold (in_space s ops). destruct (in_space s ops); [|reflexivity].
    rewrite app_assoc. reflexivity.
Qed.

Lemma fold_build_spec (d : Discretization) (ops : list Op)
  (parameter_sample : list Mu) (evaluations : array) :
  fold_answer (fun evaluations mu => build mu d ops evaluations)
              parameter_sample evaluations
  = if in_space (space evaluations) ops || is_nil parameter_sample
    then Returns (mk_array (space evaluations)
                    (vectors evaluations
                     ++ concat (map (evaluations_at d ops) parameter_sample)))
    else Fails AssertionError.
Proof.
  revert evaluations.
  induction parameter_sample as [|mu l IH]; intros [s vs]; cbn [fold_answer].
  - rewrite orb_true_r. simpl. rewrite app_nil_r. reflexivity.
  - rewrite build_evaluations_spec. cbn [space vectors is_nil].
    rewrite orb_false_r.
    destruct (in_space s ops) eqn:E; [|reflexivity].
    rewrite IH. cbn [space vectors map concat]. rewrite E. simpl.
    rewrite app_assoc. reflexivity.
Qed.

Lemma fold_append_spec (l : list array) (a : array) :
  Forall (fun b => space b = space a) l ->
  fold_answer (fun evs e => append space_eq_dec evs e) l a
  = Returns (mk_array (space a) (vectors a ++ concat (map (@vectors R Space) l))).
Proof.
  revert a. induction l as [|b l IH]; intros [s vs] H; cbn [fold_answer].
  - simpl. rewrite app_nil_r. reflexivity.
  - inversion H as [|? ? Hb Hl]; subst. cbn [space] in *.
    unfold append. cbn [space vectors]. rewrite Hb.
    destruct (space_eq_dec s s) as [_ | Hne]; [|congruence].
    rewrite IH; [|exact Hl]. cbn [space vectors map concat].
    rewrite app_assoc. reflexivity.
Qed.

Lemma concat_chunks (A B : Type) (f : B -> list A) (chunks : list (list B)) :
  concat (map (fun chunk => concat (map f chunk)) chunks)
  = concat (map f (concat chunks)).
Proof.
  induction chunks as [|c chunks IH]; simpl; [reflexivity|].
  rewrite map_app, concat_app, IH. reflexivity.
Qed.

(** [pool.map] deals the list to the workers in consecutive chunks, one for
    each worker. *)
Definition deals (workers : nat) (split : list Mu -> list (list Mu))
  (parameter_sample : list Mu) : Prop :=
  length (split parameter_sample) = workers /\
  concat (split parameter_sample) = parameter_sample.

Definition pool_deals (pool : pool_t) (parameter_sample : list Mu) : Prop :=
  match pool with
  | WorkerPool workers split _ => deals workers split parameter_sample
  | _ => True
  end.

Local Abbreviation evaluate :=
  (evaluate space_eq_dec range op_apply solve solution_space).

(** Without a pool of workers: the evaluations in the order of the sample,
    in the range of the first operator, unless an operator has another
    range. *)
Lemma evaluate_local (d : Discretization) (o : Op) (ops : list Op)
  (parameter_sample : list Mu) (pool : pool_t) :
  match pool with WorkerPool (S _) _ _ => False | _ => True end ->
  evaluate d (o :: ops) parameter_sample pool
  = if in_space (range o) (o :: ops) || is_nil parameter_sample
    then Returns (Local (mk_array (range o)
                           (concat (map (evaluations_at d (o :: ops))
                                        parameter_sample))))
    else Fails AssertionError.
Proof.
  intros Hp.
  pose proof (fold_build_spec d (o :: ops) parameter_sample (empty (range o)))
    as E.
  unfold _interpolate_operators_build_evaluations in E.
  cbn [space vectors empty app] in E.
  assert (Interpolate.evaluate space_eq_dec range op_apply solve solution_space
            d (o :: ops) parameter_sample pool
          = answer_map Local
              (fold_answer
                 (fun evaluations mu =>
                    let U := solve d mu in
                    fold_answer
                      (fun evaluations op =>
                         append space_eq_dec evaluations
                           (Interpolate.apply range op_apply op U mu))
                      (o :: ops) evaluations)
                 parameter_sample (empty (range o)))) as ->.
  { destruct pool as [| |[|n] split scatter]; try contradiction; reflexivity. }
  cbv zeta in E |- *. rewrite E. destruct (_ || _); reflexivity.
Qed.

(** With a pool of workers, to which the sample is dealt: the evaluations
    for each worker's chunk, in the solution space, unless there is a
    parameter and an operator has another range. *)
Lemma evaluate_remote (d : Discretization) (ops : list Op)
  (parameter_sample : list Mu) (n : nat) (split : list Mu -> list (list Mu))
  (scatter : VectorArray R -> list (VectorArray R)) :
  deals (S n) split parameter_sample ->
  evaluate d ops parameter_sample (WorkerPool (S n) split scatter)
  = if in_space (solution_space d) ops || is_nil parameter_sample
    then Returns (Remote
           (map (fun chunk =>
                   mk_array (solution_space d)
                     (concat (map (evaluations_at d ops) chunk)))
                (split parameter_sample)))
    else Fails AssertionError.
Proof.
  intros (Hlen & Hcat). unfold Interpolate.evaluate.
  set (worker := fun chunk : list Mu =>
         fold_answer (fun evaluations mu => build mu d ops evaluations)
                     chunk (empty (solution_space d))).
  change (map_answer _ (seq 0 (S n)))
    with (map_answer (fun i => worker (nth i (split parameter_sample) []))
                     (seq 0 (S n))).
  rewrite <- (map_answer_map worker
                (fun i => nth i (split parameter_sample) [])).
  rewrite <- Hlen, map_nth_seq.
  assert (forall chunk, worker chunk
            = if in_space (solution_space d) ops || is_nil chunk
              then Returns (mk_array (solution_space d)
                              (concat (map (evaluations_at d ops) chunk)))
              else Fails AssertionError) as Hworker.
  { intros chunk. unfold worker. rewrite fold_build_spec. reflexivity. }
  destruct (in_space (solution_space d) ops || is_nil parameter_sample)
    eqn:Hok.
  - rewrite (map_answer_ext worker
               (fun chunk => Returns (mk_array (solution_space d)
                    (concat (map (evaluations_at d ops) chunk))))).
    + rewrite map_answer_Returns. reflexivity.
    + intros chunk Hin. rewrite Hworker.
      destruct (in_space (solution_space d) ops); [reflexivity|].
      simpl in Hok. destruct parameter_sample; [|discriminate].
      apply concat_nil_Forall in Hcat. rewrite Forall_forall in Hcat.
      rewrite (Hcat chunk Hin). reflexivity.
  - apply orb_false_iff in Hok. destruct Hok as (Hin & Hnil).
    rewrite (@map_answer_Fails _ _ worker
               (fun chunk => mk_array (solution_space d)
                    (concat (map (evaluations_at d ops) chunk)))
               AssertionError); [reflexivity| |].
    + intros chunk _. rewrite Hworker, Hin. simpl.
      destruct (is_nil chunk); auto.
    + assert (exists chunk, In chunk (split parameter_sample) /\ chunk <> [])
        as (chunk & Hc & Hne).
      { clear - Hcat Hnil. revert Hcat Hnil.
        generalize (split parameter_sample) as chunks.
        induction chunks as [|c chunks IH]; simpl; intros Hcat Hnil.
        - subst. discriminate.
        - destruct c as [|mu c].
          + destruct (IH Hcat Hnil) as (chunk & Hc & Hne). eauto.
          + exists (mu :: c). split; [auto | discriminate]. }
      exists chunk. split; [exact Hc|]. rewrite Hworker, Hin.
      destruct chunk; [congruence | reflexivity].
Qed.

(** The operators that are looked up have the property of every named
    operator. *)
Lemma lookup_operators_Forall (P : Op -> Prop) (d : dict)
  (names : list string) (ops : list Op) :
  lookup_operators d names = inr ops ->
  (forall n o, In n names -> dict_getitem d n = Some o -> P o) ->
  Forall P ops.
Proof.
  revert ops. induction names as [|n names IH]; simpl; intros ops H HP.
  - inversion H. constructor.
  - destruct (dict_getitem d n) as [o|] eqn:Hn; [|discriminate].
    destruct (lookup_operators d names) as [m | os]; [discriminate|].
    inversion H; subst. constructor; eauto.
Qed.

Lemma in_space_Forall (s : Space) (ops : list Op) :
  Forall (fun o => range o = s) ops -> in_space s ops = true.
Proof.
  intros H. unfold in_space. apply forallb_forall. intros o Ho.
  rewrite Forall_forall in H. rewrite (H o Ho).
  destruct (space_eq_dec s s); [reflexivity | congruence].
Qed.

(** *** The pool *)

(** X15. The pool may be [None] for ['ei_greedy'], where it does what the
    [dummy_pool] does; for ['deim'] it may not: [None] is not the
    [dummy_pool], so the evaluations are to be collected from it, and the
    call never returns. It fails with [AttributeError] once the evaluations
    are computed, which they are when the named operators have one range
    (otherwise the evaluations cannot be appended to one array). *)
Theorem none_pool_only_for_ei_greedy
  (error_norm : option (vector R -> R)) (product : option Product)
  (atol rtol : option R) (max_interpolation_dofs : option Z)
  (pod_options : PodOptions) (d : Discretization)
  (operator_names : list string) (parameter_sample : list Mu) :
  interpolate_operators error_norm product atol rtol max_interpolation_dofs
    pod_options d operator_names parameter_sample "ei_greedy"%string NonePool
  = interpolate_operators error_norm product atol rtol max_interpolation_dofs
      pod_options d operator_names parameter_sample "ei_greedy"%string dummy_pool /\
  (operator_names <> [] ->
   (forall n, In n operator_names -> dict_getitem (operators d) n <> None) ->
   (interpolate_operators error_norm product atol rtol max_interpolation_dofs
      pod_options d operator_names parameter_sample "deim"%string NonePool
    = Fails AttributeError \/
    interpolate_operators error_norm product atol rtol max_interpolation_dofs
      pod_options d operator_names parameter_sample "deim"%string NonePool
    = Fails AssertionError) /\
   forall s,
     (forall n o, In n operator_names ->
        dict_getitem (operators d) n = Some o -> range o = s) ->
     interpolate_operators error_norm product atol rtol max_interpolation_dofs
       pod_options d operator_names parameter_sample "deim"%string NonePool
     = Fails AttributeError).
Proof.
  split; [reflexivity|]. intros Hne Hall.
  destruct (lookup_operators_found _ _ Hall) as (ops & Hops & Hlen).
  unfold Interpolate.interpolate_operators.
  cbn [String.eqb Ascii.eqb Bool.eqb orb negb]. rewrite Hops.
  destruct ops as [|o ops].
  { destruct operator_names; [congruence | discriminate]. }
  rewrite (@evaluate_local d o ops parameter_sample NonePool I).
  split.
  - destruct (_ || _); [left | right]; reflexivity.
  - intros s Hs.
    pose proof (lookup_operators_Forall (fun o => range o = s) _ _ Hops Hs)
      as Hf.
    inversion Hf as [|? ? Ho Hops']; subst.
    rewrite (in_space_Forall Hf). reflexivity.
Qed.

(** X16. ['deim'] is not distributed: with a pool of workers, to which
    [pool.map] deals the sample in consecutive chunks, the evaluations are
    collected in the order of the sample, and [interpolate_operators] gives
    what it gives with the [dummy_pool], when the range of the first named
    operator, in which the evaluations are collected without workers, is the
    solution space, in which they are with workers. *)
Theorem deim_collects_the_evaluations
  (error_norm : option (vector R -> R)) (product : option Product)
  (atol rtol : option R) (max_interpolation_dofs : option Z)
  (pod_options : PodOptions) (d : Discretization)
  (operator_names : list string) (parameter_sample : list Mu)
  (n : nat) (split : list Mu -> list (list Mu))
  (scatter : VectorArray R -> list (VectorArray R)) :
  operator_names <> [] ->
  (forall name o, hd_error operator_names = Some name ->
     dict_getitem (operators d) name = Some o ->
     range o = solution_space d) ->
  deals (S n) split parameter_sample ->
  interpolate_operators error_norm product atol rtol max_interpolation_dofs
    pod_options d operator_names parameter_sample "deim"%string
    (WorkerPool (S n) split scatter)
  = interpolate_operators error_norm product atol rtol max_interpolation_dofs
      pod_options d operator_names parameter_sample "deim"%string dummy_pool.
Proof.
  intros Hne Hfirst Hdeals.
  unfold Interpolate.interpolate_operators.
  cbn [String.eqb Ascii.eqb Bool.eqb orb negb].
  destruct (lookup_operators _ _) as [m | ops] eqn:Hops; [reflexivity|].
  assert (exists o ops', ops = o :: ops' /\ range o = solution_space d)
    as (o & ops' & -> & Hrange).
  { destruct operator_names as [|n0 names]; [congruence|]. simpl in Hops.
    destruct (dict_getitem (operators d) n0) as [o|] eqn:Hn0; [|discriminate].
    destruct (lookup_operators (operators d) names) as [m | os];
      [discriminate|].
    inversion Hops; subst. exists o, os. split; [reflexivity|].
    apply (Hfirst n0 o); [reflexivity | exact Hn0]. }
  rewrite (evaluate_remote d (o :: ops') scatter Hdeals).
  rewrite (@evaluate_local d o ops' parameter_sample dummy_pool I), Hrange.
  destruct (_ || _); [|reflexivity].
  destruct Hdeals as (Hlen & Hcat).
  unfold select. cbn [String.eqb Ascii.eqb Bool.eqb collect].
  unfold _identity. rewrite map_id.
  destruct (split parameter_sample) as [|c chunks] eqn:Hsplit;
    [discriminate|].
  cbn [map]. rewrite fold_append_spec.
  - cbn [answer_map space vectors]. rewrite map_map. cbn [vectors].
    change (concat (map (evaluations_at d (o :: ops')) c)
            ++ concat (map (fun chunk =>
                              concat (map (evaluations_at d (o :: ops')) chunk))
                           chunks))
      with (concat (map (fun chunk =>
                           concat (map (evaluations_at d (o :: ops')) chunk))
                        (c :: chunks))).
    rewrite concat_chunks, Hcat. reflexivity.
  - apply Forall_forall. intros b Hb. apply in_map_iff in Hb.
    destruct Hb as (chunk & <- & _). reflexivity.
Qed.

(** X17. Without parameters there is nothing to select from: on an empty
    [parameter_sample], [interpolate_operators] with ['ei_greedy'] raises the
    [ValueError] of the arg-max of no errors, with or without a pool. *)
Theorem empty_sample_raises
  (error_norm : option (vector R -> R)) (product : option Product)
  (atol rtol : option R) (max_interpolation_dofs : option Z)
  (pod_options : PodOptions) (d : Discretization)
  (operator_names : list string) (pool : pool_t) :
  operator_names <> [] ->
  (forall n, In n operator_names -> dict_getitem (operators d) n <> None) ->
  pool_deals pool [] ->
  interpolate_operators error_norm product atol rtol max_interpolation_dofs
    pod_options d operator_names [] "ei_greedy"%string pool
  = Fails (Python ValueError).
Proof.
  intros Hne Hall Hpool.
  destruct (lookup_operators_found _ _ Hall) as (ops & Hops & Hlen).
  unfold Interpolate.interpolate_operators.
  cbn [String.eqb Ascii.eqb Bool.eqb orb negb]. rewrite Hops.
  destruct ops as [|o ops].
  { destruct operator_names; [congruence | discriminate]. }
  destruct pool as [| |[|n] split scatter].
  - rewrite (@evaluate_local d o ops [] NonePool I), orb_true_r.
    unfold select. destruct error_norm; reflexivity.
  - rewrite (@evaluate_local d o ops [] dummy_pool I), orb_true_r.
    unfold select. destruct error_norm; reflexivity.
  - rewrite (@evaluate_local d o ops [] (WorkerPool 0 split scatter) I),
      orb_true_r.
    unfold select. destruct error_norm; reflexivity.
  - rewrite (evaluate_remote d (o :: ops) scatter Hpool), orb_true_r.
    destruct Hpool as (Hlen' & Hcat).
    destruct (split []) as [|c chunks]; [discriminate|].
    apply app_eq_nil in Hcat. destruct Hcat as (-> & _).
    unfold select.
    cbn [String.eqb Ascii.eqb Bool.eqb map concat ei_greedy_pool vectors].
    destruct error_norm; reflexivity.
Qed.

(** *** The interpolation data *)

Lemma of_outcome_Returns (A : Type) (o : outcome A) (a : A) :
  of_outcome o = Returns a -> o = Ok a.
Proof. destruct o; simpl; congruence. Qed.

Lemma ei_greedy_pool_Returns (error_norm : option (vector R -> R))
  (atol rtol : option R) (max_interpolation_dofs : option Z)
  (U : evaluations_t) (copy : bool) (pool : pool_t)
  (idofs : list nat) (basis : VectorArray R) (data : ei_data R) :
  ei_greedy_pool l2_norm error_norm atol rtol max_interpolation_dofs U copy pool
  = Returns (idofs, basis, data) ->
  length basis = length idofs /\ NoDup idofs.
Proof.
  unfold ei_greedy_pool. intros H.
  assert (forall V,
            of_outcome (ei_greedy l2_norm error_norm atol rtol
                          max_interpolation_dofs V copy)
            = Returns (idofs, basis, data) ->
            length basis = length idofs /\ NoDup idofs) as Hseq.
  { intros V HV. apply of_outcome_Returns, EIFacts.ei_greedy_inv in HV. tauto. }
  assert (forall V,
            of_outcome (_parallel_ei_greedy l2_norm error_norm atol rtol
                          max_interpolation_dofs V copy)
            = Returns (idofs, basis, data) ->
            length basis = length idofs /\ NoDup idofs) as Hpar.
  { intros V HV. apply of_outcome_Returns in HV.
    apply EIFacts.parallel_ei_greedy_inv in HV. exact HV. }
  destruct pool as [| |[|n] split scatter]; destruct U as [U | shards];
    try discriminate; eauto.
Qed.

(** X18. When [interpolate_operators] returns, [data] holds as many DOFs as
    basis vectors, for both algorithms and every pool; with ['ei_greedy'] the
    DOFs are distinct and [data] carries the diagnostics of [ei_greedy],
    otherwise those of [deim]. *)
Theorem interpolation_data_lengths
  (error_norm : option (vector R -> R)) (product : option Product)
  (atol rtol : option R) (max_interpolation_dofs : option Z)
  (pod_options : PodOptions) (d ei_d : Discretization)
  (operator_names : list string) (parameter_sample : list Mu)
  (alg : string) (pool : pool_t) (data : interpolation_data) :
  interpolate_operators error_norm product atol rtol max_interpolation_dofs
    pod_options d operator_names parameter_sample alg pool
  = Returns (ei_d, data) ->
  length (data_dofs data) = length (data_basis data) /\
  if String.eqb alg "ei_greedy"
  then NoDup (data_dofs data) /\
       exists diagnostics, data_algorithm data = greedy_data diagnostics
  else alg = "deim"%string /\
       exists diagnostics, data_algorithm data = pod_data diagnostics.
Proof.
  unfold Interpolate.interpolate_operators. intros H.
  destruct (negb _); [discriminate|].
  destruct (lookup_operators _ _) as [m | ops]; [discriminate|].
  destruct (Interpolate.evaluate _ _ _ _ _ _ _ _ _) as [ev | |];
    try discriminate.
  destruct (select _ _ _ _ _ _ _ _ _ _ _ _ _) as [((idofs & basis) & adata) | |]
    eqn:Hsel; try discriminate.
  inversion H; subst; clear H. cbn [data_dofs data_basis data_algorithm].
  unfold select in Hsel. destruct (String.eqb alg "ei_greedy").
  - destruct (ei_greedy_pool _ _ _ _ _ _ _ _) as [((i0 & b0) & d0) | |] eqn:Hg;
      try discriminate.
    inversion Hsel; subst. apply ei_greedy_pool_Returns in Hg.
    destruct Hg as (Hl & Hnd). eauto.
  - destruct (String.eqb_spec alg "deim") as [-> | Hne]; [|discriminate].
    destruct (collect _ _ _) as [[U | shards] | |]; try discriminate.
    destruct (of_outcome _) as [((i0 & b0) & d0) | |] eqn:Hd; try discriminate.
    inversion Hsel; subst. apply of_outcome_Returns in Hd.
    apply EIFacts.deim_lengths in Hd. eauto.
Qed.

End Facts.

(** *** A discretization with three operators

    The operators evaluate to one vector of the plane, their range; an
    interpolated operator keeps the operator it interpolates and the
    interpolation data. A space is its dimension; the attribute of a
    discretization is its solution space; the solution for the parameter
    [mu] is [mu]. *)

Inductive plane_operator : Type :=
| Plane (a b : Z)
| Interpolated (operator : plane_operator) (dofs : list nat)
    (basis : VectorArray Q) (triangular : bool).

Fixpoint plane_apply (op : plane_operator) (U mu : Z) : VectorArray Q :=
  match op with
  | Plane a b => EIFacts.arrayQ [[a * U; b * mu]%Z]
  | Interpolated op' _ _ _ => plane_apply op' U mu
  end.

Definition plane_d : Discretization plane_operator nat :=
  mk_discretization
    [("operator", Plane 4 3); ("mass", Plane 1 0); ("rhs", Plane 4 (-3))]%string
    "d" 2.

Definition two_workers : @pool_t Q Z :=
  WorkerPool 2 (fun l => [firstn 1 l; skipn 1 l])
    (fun U : VectorArray Q => [firstn 1 U; skipn 1 U]).

Definition plane_interpolate (d : Discretization plane_operator nat)
  (operator_names : list String.string)
  (parameter_sample : list Z) (alg : String.string) (pool : @pool_t Q Z)
  : answer (Discretization plane_operator nat * @interpolation_data Q) :=
  interpolate_operators l2_normQ Nat.eq_dec (fun _ => 2) plane_apply
    Interpolated EIFacts.pod_id solveQ (fun _ mu => mu)
    (fun d => attributes d)
    None None None None None tt d operator_names parameter_sample alg pool.

Example plane_interpolated :
  plane_interpolate plane_d ["operator"; "rhs"]%string [1%Z] "ei_greedy"
    dummy_pool
  = Returns
      (mk_discretization
         [("operator", Interpolated (Plane 4 3) [0; 1] [[1; 3 # 4]; [0; 1]]%Q true);
          ("mass", Plane 1 0);
          ("rhs", Interpolated (Plane 4 (-3)) [0; 1] [[1; 3 # 4]; [0; 1]]%Q true)
         ]%string
         "d_ei" 2,
       mk_interpolation_data [0; 1] [[1; 3 # 4]; [0; 1]]%Q
         (greedy_data (mk_data [5; 6]%Q [0; 0]%Q))).
Proof. vm_compute. reflexivity. Qed.

(** When the solution space is not the range of the operators, the workers
    cannot append the evaluations to the array pushed to them, where the run
    without workers succeeds. *)
Example evaluations_in_another_space :
  plane_interpolate (mk_discretization (operators plane_d) "d" 3)
    ["operator"; "rhs"]%string [1; 2]%Z "deim" two_workers
  = Fails AssertionError /\
  exists r,
    plane_interpolate (mk_discretization (operators plane_d) "d" 3)
      ["operator"; "rhs"]%string [1; 2]%Z "deim" dummy_pool
    = Returns r.
Proof. split; [vm_compute; reflexivity | eexists; vm_compute; reflexivity]. Qed.

(** With [None] as pool and ['deim'], operators of different ranges make
    the evaluation fail before the pool is asked for anything. *)
Example none_pool_mixed_ranges :
  interpolate_operators l2_normQ Nat.eq_dec
    (fun op => match op with Plane a _ => Z.to_nat a | _ => 2 end)
    plane_apply Interpolated EIFacts.pod_id solveQ (fun _ mu => mu)
    (fun d => attributes d)
    None None None None None tt plane_d ["operator"; "mass"]%string [1%Z]
    "deim" NonePool
  = Fails AssertionError.
Proof. vm_compute. reflexivity. Qed.

Lemma interpolate_operators_checks_arguments_witness :
  exists m, In m ["operator"; "stiffness"]%string /\
    dict_getitem (operators plane_d) m = None /\
    plane_interpolate plane_d ["operator"; "stiffness"]%string [1%Z] "deim"
      two_workers
    = Fails (KeyError m).
Proof.
  apply (proj2 (@interpolate_operators_checks_arguments Q ScalarQ l2_normQ
                  Z Z plane_operator nat nat Nat.eq_dec (fun _ => 2)
                  plane_apply Interpolated unit unit
                  EIFacts.pod_id solveQ (fun _ mu => mu)
                  (fun d => attributes d) None None None None None tt plane_d
                  ["operator"; "stiffness"]%string [1%Z] "deim"%string
                  two_workers)
           eq_refl "stiffness"%string).
  - simpl. auto.
  - reflexivity.
Defined.

Lemma interpolated_operators_replace_named_witness :
  dict_getitem
    [("operator", Interpolated (Plane 4 3) [0; 1] [[1; 3 # 4]; [0; 1]]%Q true);
     ("mass", Plane 1 0);
     ("rhs", Interpolated (Plane 4 (-3)) [0; 1] [[1; 3 # 4]; [0; 1]]%Q true)
    ]%string "mass"%string
  = dict_getitem (operators plane_d) "mass"%string.
Proof.
  refine (proj2 (proj2 (proj2 (proj2
    (@interpolated_operators_replace_named Q ScalarQ l2_normQ
       Z Z plane_operator nat nat Nat.eq_dec (fun _ => 2)
       plane_apply Interpolated unit unit
       EIFacts.pod_id solveQ (fun _ mu => mu) (fun d => attributes d)
       None None None None None tt plane_d _
       ["operator"; "rhs"]%string [1%Z] "ei_greedy"%string dummy_pool _
       plane_interpolated)))) "mass"%string _).
  simpl. intros [H | [H | []]]; discriminate.
Defined.

Lemma none_pool_only_for_ei_greedy_witness :
  plane_interpolate plane_d ["operator"; "rhs"]%string [1%Z] "deim" NonePool
  = Fails AttributeError.
Proof.
  refine (proj2 (proj2 (@none_pool_only_for_ei_greedy Q ScalarQ l2_normQ
                   Z Z plane_operator nat nat Nat.eq_dec (fun _ => 2)
                   plane_apply Interpolated unit unit
                   EIFacts.pod_id solveQ (fun _ mu => mu)
                   (fun d => attributes d) None None None None None tt plane_d
                   ["operator"; "rhs"]%string [1%Z]) _ _) 2 _).
  - discriminate.
  - intros n [<- | [<- | []]]; discriminate.
  - reflexivity.
Defined.

Lemma deim_collects_the_evaluations_witness :
  plane_interpolate plane_d ["operator"; "rhs"]%string [1; 2]%Z "deim"
    two_workers
  = plane_interpolate plane_d ["operator"; "rhs"]%string [1; 2]%Z "deim"
      dummy_pool.
Proof.
  apply (@deim_collects_the_evaluations Q ScalarQ l2_normQ
           Z Z plane_operator nat nat Nat.eq_dec (fun _ => 2)
           plane_apply Interpolated unit unit
           EIFacts.pod_id solveQ (fun _ mu => mu) (fun d => attributes d)
           None None None None None tt plane_d
           ["operator"; "rhs"]%string [1; 2]%Z).
  - discriminate.
  - reflexivity.
  - split; reflexivity.
Defined.

Lemma interpolation_data_lengths_witness :
  length [0; 1] = length [[1; 3 # 4]; [0; 1]]%Q /\
  NoDup [0; 1] /\
  exists diagnostics,
    greedy_data (mk_data [5; 6]%Q [0; 0]%Q) = greedy_data diagnostics.
Proof.
  exact (@interpolation_data_lengths Q ScalarQ l2_normQ
           Z Z plane_operator nat nat Nat.eq_dec (fun _ => 2)
           plane_apply Interpolated unit unit
           EIFacts.pod_id solveQ (fun _ mu => mu) (fun d => attributes d)
           None None None None None tt plane_d _
           ["operator"; "rhs"]%string [1%Z] "ei_greedy"%string dummy_pool _
           plane_interpolated).
Defined.

Lemma empty_sample_raises_witness :
  plane_interpolate plane_d ["operator"; "rhs"]%string [] "ei_greedy"
    two_workers
  = Fails (Python ValueError).
Proof.
  apply (@empty_sample_raises Q ScalarQ l2_normQ
           Z Z plane_operator nat nat Nat.eq_dec (fun _ => 2)
           plane_apply Interpolated unit unit
           EIFacts.pod_id solveQ (fun _ mu => mu) (fun d => attributes d)
           None None None None None tt plane_d
           ["operator"; "rhs"]%string two_workers).
  - discriminate.
  - intros n [<- | [<- | []]]; discriminate.
  - split; reflexivity.
Defined.

End InterpolateFacts.

Module NewtonFacts.

Import Newton.

Open Scope float_scope.

(** *** Binary64 facts *)

(** [x] is not negative: positive, a zero, or [nan] (what a norm returns). *)
Definition nonneg (x : float) : Prop := (x <? 0) = false.

Definition sf_nonneg (s : spec_float) : Prop :=
  match s with
  | S754_infinity true | S754_finite true _ _ => False
  | _ => True
  end.

Lemma nonneg_sf (x : float) : nonneg x <-> sf_nonneg (Prim2SF x).
Proof.
  unfold nonneg. rewrite ltb_spec.
  change (Prim2SF 0) with (S754_zero false).
  destruct (Prim2SF x) as [s | s | | s m e]; try destruct s; simpl;
    unfold SFltb; simpl; split; intros H; auto; try discriminate; try contradiction.
Qed.

Lemma round_nonneg (m e : Z) (l : location) :
  sf_nonneg (binary_round_aux prec emax false m e l).
Proof.
  unfold binary_round_aux.
  destruct (shr_fexp prec emax m e l) as (mrs & e').
  destruct (shr_fexp prec emax _ e' loc_Exact) as (mrs' & e'').
  destruct (shr_m mrs'); simpl; auto.
  destruct (Z.leb e'' _); simpl; auto.
Qed.

Lemma mul_nonneg (x y : float) : nonneg x -> nonneg y -> nonneg (x * y).
Proof.
  rewrite !nonneg_sf, mul_spec. unfold SF64mul.
  destruct (Prim2SF x) as [s | s | | s m e]; try destruct s;
  destruct (Prim2SF y) as [s' | s' | | s' m' e']; try destruct s';
    simpl; auto; try contradiction.
  intros _ _. apply round_nonneg.
Qed.

(** Nothing that is not negative is below [0 * s], whatever [s] is. *)
Lemma zero_mul_not_above (e s : float) : nonneg e -> (e <? 0 * s) = false.
Proof.
  rewrite nonneg_sf, ltb_spec, mul_spec. unfold SF64mul.
  change (Prim2SF 0) with (S754_zero false).
  destruct (Prim2SF e) as [se | se | | se me ee]; try destruct se;
  destruct (Prim2SF s) as [s' | s' | | s' m' e']; try destruct s';
    simpl; auto; try contradiction.
Qed.

(** Nothing is above [inf * m] when [m] is not negative. *)
Lemma inf_mul_not_below (e m : float) : nonneg m -> (infinity * m <? e) = false.
Proof.
  rewrite nonneg_sf, ltb_spec, mul_spec. unfold SF64mul.
  change (Prim2SF infinity) with (S754_infinity false).
  destruct (Prim2SF e) as [se | se | | se me ee]; try destruct se;
  destruct (Prim2SF m) as [s' | s' | | s' m' e']; try destruct s';
    simpl; auto; try contradiction.
Qed.

Lemma abs_nonneg (x : float) : nonneg (PrimFloat.abs x).
Proof.
  rewrite nonneg_sf, abs_spec.
  destruct (Prim2SF x) as [s | s | | s m e]; simpl; auto.
Qed.

(** *** Python's [max] and slices *)

Lemma py_max_In (l : list float) (m : float) : py_max l = Ok m -> In m l.
Proof.
  destruct l as [|x l]; simpl; intros E; inversion E; clear E.
  clear. revert x. induction l as [|y l IH]; simpl; intros x; auto.
  destruct (IH (if x <? y then y else x)) as [E | H]; auto.
  destruct (x <? y); auto.
Qed.

Lemma py_max_nonempty (l : list float) : l <> [] -> exists m, py_max l = Ok m.
Proof. destruct l; [congruence | simpl; eauto]. Qed.

(** The last [w + 1] items of a list that has as many. *)
Lemma py_slice_window {A : Type} (w : Z) (l : list A) :
  (-1 <= w)%Z -> (w + 1 <= Z.of_nat (length l))%Z -> l <> [] ->
  py_slice_from (- w - 1) l <> [] /\ incl (py_slice_from (- w - 1) l) l.
Proof.
  intros Hw Hlen Hne. unfold py_slice_from.
  set (n := Z.of_nat (length l)) in *.
  set (s := if (- w - 1 <? 0)%Z then Z.max 0 (n + (- w - 1)) else Z.min (- w - 1) n).
  assert (Z.to_nat s < length l)%nat as Hs.
  { assert (0 < n)%Z by (destruct l; [congruence | unfold n; simpl; lia]).
    unfold s. destruct (Z.ltb_spec (- w - 1) 0); lia. }
  split.
  - intros E. apply (f_equal (@length A)) in E.
    rewrite length_skipn in E. simpl in E. lia.
  - intros a Ha. rewrite <- (firstn_skipn (Z.to_nat s) l).
    apply in_or_app. right. exact Ha.
Qed.

(** *** The loop *)

Section Run.

Variables Src Rng : Type.
Variable op : problem Src Rng.
Variable p : params.

Local Abbreviation state := (newton_state Src Rng).

(** The loop goes on from its head only below [miniter] or [maxiter]. *)
Lemma check_None (st : state) :
  check p st = None ->
  (Z.of_nat (iteration st) < Z.max (miniter p) (maxiter p))%Z.
Proof.
  unfold check. destruct (Z.leb_spec (miniter p) (Z.of_nat (iteration st))); [|lia].
  destruct (err st <? atol p); [discriminate|].
  destruct (err st <? rtol p * err_scale_factor st); [discriminate|].
  destruct (stagnates p st) as [[|] | |]; try discriminate.
  destruct (Z.leb_spec (maxiter p) (Z.of_nat (iteration st))); [discriminate | lia].
Qed.

Lemma iteration_advance (st : state) (u : Src) (s : float) :
  iteration (advance op p (begin_iteration p st) u s) = S (iteration st).
Proof. reflexivity. Qed.

(** The loop is left: its fuel is enough once it covers the iterations up
    to [miniter] and [maxiter]. *)
Lemma newton_loop_fuel (fuel : nat) :
  forall st : state,
    (Z.max (miniter p) (maxiter p) <= Z.of_nat fuel + Z.of_nat (iteration st))%Z ->
    exists k st', newton_loop op p (S fuel) st = Some (k, st').
Proof.
  induction fuel as [|fuel IH]; intros st Hfuel; cbn [newton_loop].
  - destruct (check p st) eqn:Hc; eauto.
    apply check_None in Hc. lia.
  - destruct (check p st) eqn:Hc; eauto.
    apply check_None in Hc.
    destruct (apply_inverse op _ _) as [u|]; eauto.
    destruct (step_size_of op p _ u) as [s|]; eauto.
    destruct (blown_up _); eauto.
    apply IH. rewrite iteration_advance. lia.
Qed.

Lemma newton_run_total (initial_guess : option Src) :
  exists k st, newton_run op p initial_guess = Some (k, st).
Proof.
  unfold newton_run, newton_fuel. apply newton_loop_fuel. simpl. lia.
Qed.

(** What holds of the state with which the loop is left, for each way out.
    The first five are the checks at the head of the loop, in their order. *)
Definition exit_condition (k : newton_exit) (st : state) : Prop :=
  match k with
  | AbsoluteLimit =>
    (miniter p <= Z.of_nat (iteration st))%Z /\ (err st <? atol p) = true
  | TotalReduction =>
    (miniter p <= Z.of_nat (iteration st))%Z /\ (err st <? atol p) = false /\
    (err st <? rtol p * err_scale_factor st) = true
  | Stagnating =>
    (miniter p <= Z.of_nat (iteration st))%Z /\ (err st <? atol p) = false /\
    (err st <? rtol p * err_scale_factor st) = false /\
    stagnates p st = Ok true
  | EmptyWindow =>
    (miniter p <= Z.of_nat (iteration st))%Z /\ (err st <? atol p) = false /\
    (err st <? rtol p * err_scale_factor st) = false /\
    stagnates p st = Raised ValueError
  | FailedMaxiter =>
    (miniter p <= Z.of_nat (iteration st))%Z /\ (err st <? atol p) = false /\
    (err st <? rtol p * err_scale_factor st) = false /\
    stagnates p st = Ok false /\ (maxiter p <= Z.of_nat (iteration st))%Z
  | CouldNotInvert =>
    (1 <= iteration st)%nat /\ apply_inverse op (U st) (residual st) = None
  | UnknownLineSearch =>
    (1 <= iteration st)%nat /\ relax p = OtherMethod
  | NonFinite =>
    (1 <= iteration st)%nat /\
    (is_finite (residual_norm st) = false \/ is_finite (solution_norm st) = false)
  end.

Lemma stagnates_cases (st : state) :
  stagnates p st = Ok true \/ stagnates p st = Ok false \/
  stagnates p st = Raised ValueError.
Proof.
  unfold stagnates. destruct (_ <=? _)%Z; auto.
  unfold py_max. destruct (py_slice_from _ _); simpl; auto.
  destruct (_ <? _); auto.
Qed.

Lemma check_Some (st : state) (k : newton_exit) :
  check p st = Some k -> exit_condition k st.
Proof.
  unfold check.
  destruct (Z.leb_spec (miniter p) (Z.of_nat (iteration st))); [|discriminate].
  destruct (err st <? atol p) eqn:Ha.
  { intros E; inversion E; subst; simpl; auto. }
  destruct (err st <? rtol p * err_scale_factor st) eqn:Hr.
  { intros E; inversion E; subst; simpl; auto. }
  destruct (stagnates_cases st) as [Hs | [Hs | Hs]]; rewrite Hs.
  - intros E; inversion E; subst; simpl; auto.
  - destruct (Z.leb_spec (maxiter p) (Z.of_nat (iteration st)));
      intros E; inversion E; subst; simpl; auto.
  - intros E; inversion E; subst; simpl; auto.
Qed.

Lemma blown_up_true (st : state) :
  blown_up st = true ->
  is_finite (residual_norm st) = false \/ is_finite (solution_norm st) = false.
Proof.
  unfold blown_up. intros H. apply orb_true_iff in H.
  destruct H as [H | H]; apply negb_true_iff in H; auto.
Qed.

Lemma blown_up_false (st : state) :
  blown_up st = false ->
  is_finite (residual_norm st) = true /\ is_finite (solution_norm st) = true.
Proof.
  unfold blown_up. intros H. apply orb_false_iff in H.
  destruct H as [H1 H2]. apply negb_false_iff in H1, H2. auto.
Qed.

Lemma newton_loop_exit (fuel : nat) :
  forall (st st' : state) (k : newton_exit),
    newton_loop op p fuel st = Some (k, st') -> exit_condition k st'.
Proof.
  induction fuel as [|fuel IH]; intros st st' k; cbn [newton_loop];
    [discriminate|].
  destruct (check p st) eqn:Hc.
  { intros E; inversion E; subst. apply check_Some; assumption. }
  destruct (apply_inverse op _ _) as [u|] eqn:Hu.
  2:{ intros E; inversion E; subst. simpl. split; [lia | exact Hu]. }
  destruct (step_size_of op p _ u) as [s|] eqn:Hs.
  2:{ intros E; inversion E; subst. simpl. split; [lia|].
      unfold step_size_of in Hs. destruct (relax p); congruence. }
  destruct (blown_up _) eqn:Hb.
  { intros E; inversion E; subst. split; [simpl; lia|].
    apply blown_up_true; assumption. }
  apply IH.
Qed.

(** The norms recorded after the initial ones are finite. *)
Definition finite_history (st : state) : Prop :=
  Forall (fun x => is_finite x = true) (tl (residual_norms st)) /\
  Forall (fun x => is_finite x = true) (tl (solution_norms st)).

Definition has_initial_norms (st : state) : Prop :=
  residual_norms st <> [] /\ solution_norms st <> [].

Lemma tl_snoc {A : Type} (l : list A) (a : A) :
  l <> [] -> tl (l ++ [a]) = tl l ++ [a].
Proof. destruct l; [congruence | reflexivity]. Qed.

Lemma newton_loop_finite (fuel : nat) :
  forall (st st' : state) (k : newton_exit),
    has_initial_norms st -> finite_history st ->
    newton_loop op p fuel st = Some (k, st') ->
    k <> NonFinite -> finite_history st'.
Proof.
  induction fuel as [|fuel IH]; intros st st' k Hi Hf; cbn [newton_loop];
    [discriminate|].
  destruct (check p st) eqn:Hc.
  { intros E; inversion E; subst. auto. }
  destruct (apply_inverse op _ _) as [u|] eqn:Hu.
  2:{ intros E; inversion E; subst. auto. }
  destruct (step_size_of op p _ u) as [s|] eqn:Hs.
  2:{ intros E; inversion E; subst. auto. }
  destruct (blown_up _) eqn:Hb.
  { intros E; inversion E; subst. congruence. }
  apply IH.
  - destruct Hi as (Hr & Hsn). split; simpl; intros E;
      apply app_eq_nil in E; destruct E; discriminate.
  - apply blown_up_false in Hb. destruct Hb as (Hb1 & Hb2).
    destruct Hi as (Hr & Hsn). destruct Hf as (Hf1 & Hf2).
    split; simpl; rewrite tl_snoc by exact Hr || exact Hsn;
      apply Forall_app; split; auto.
Qed.

(** *** The default tolerances *)

Section DefaultTolerances.

Hypothesis atol_default : atol p = 0.
Hypothesis rtol_default : rtol p = 0.
Hypothesis threshold_default : stagnation_threshold p = infinity.
Hypothesis window_ok : (-1 <= stagnation_window p)%Z.

(** The error measures are norms: never negative. A step size is a
    non-negative number, or comes from the line search. *)
Hypothesis vnorm_src_nonneg : forall u, nonneg (vnorm_src op u).
Hypothesis vnorm_rng_nonneg : forall r, nonneg (vnorm_rng op r).
Hypothesis step_nonneg :
  match relax p with
  | Relax step => nonneg step
  | Armijo => forall u d r n, nonneg (armijo op u d r n)
  | OtherMethod => False
  end.

Definition nonneg_errors (st : state) : Prop :=
  nonneg (err st) /\ Forall nonneg (errs p st) /\ errs p st <> [].

(** No convergence criterion can hold. *)
Lemma criteria_fail (st : state) :
  nonneg_errors st ->
  (err st <? atol p) = false /\
  (err st <? rtol p * err_scale_factor st) = false /\
  stagnates p st = Ok false.
Proof.
  intros (He & Hf & Hne). rewrite atol_default, rtol_default.
  split; [exact He|]. split; [apply zero_mul_not_above; exact He|].
  unfold stagnates. destruct (Z.leb_spec (stagnation_window p + 1)
                                         (Z.of_nat (length (errs p st)))); auto.
  destruct (@py_slice_window _ (stagnation_window p) (errs p st))
    as (Hs & Hincl); auto.
  destruct (py_max_nonempty Hs) as (m & Hm). rewrite Hm. simpl.
  rewrite threshold_default, inf_mul_not_below; auto.
  rewrite Forall_forall in Hf. apply Hf, Hincl. eapply py_max_In; eauto.
Qed.

Lemma check_default (st : state) :
  nonneg_errors st -> check p st = None \/ check p st = Some FailedMaxiter.
Proof.
  intros H. destruct (criteria_fail H) as (Ha & Hr & Hs).
  unfold check. rewrite Ha, Hr, Hs.
  destruct (_ <=? _)%Z; auto. destruct (_ <=? _)%Z; auto.
Qed.

Lemma nonneg_errors_initial (initial_guess : option Src) :
  nonneg_errors (initial_state op p initial_guess).
Proof.
  unfold nonneg_errors, errs, initial_state; simpl.
  destruct (error_measure p); simpl; repeat split; auto; discriminate.
Qed.

Lemma nonneg_errors_advance (st : state) (u : Src) (s : float) :
  nonneg_errors st ->
  step_size_of op p (begin_iteration p st) u = Some s ->
  nonneg_errors (advance op p (begin_iteration p st) u s).
Proof.
  intros (He & Hf & Hne) Hs.
  assert (nonneg s) as Hstep.
  { unfold step_size_of in Hs. destruct (relax p); inversion Hs; subst; auto. }
  unfold nonneg_errors, errs in *; simpl.
  destruct (error_measure p); simpl; repeat split; auto using mul_nonneg.
  - apply Forall_app; split; auto.
  - intros E; apply app_eq_nil in E; destruct E; discriminate.
  - apply Forall_app; split; auto using mul_nonneg.
  - intros E; apply app_eq_nil in E; destruct E; discriminate.
Qed.

Lemma newton_loop_default (fuel : nat) :
  forall (st st' : state) (k : newton_exit),
    nonneg_errors st ->
    (Z.of_nat (iteration st) <= Z.max 0 (Z.max (miniter p) (maxiter p)))%Z ->
    newton_loop op p fuel st = Some (k, st') ->
    (k = FailedMaxiter /\
     Z.of_nat (iteration st') = Z.max 0 (Z.max (miniter p) (maxiter p)))
    \/ k = CouldNotInvert \/ k = NonFinite.
Proof.
  induction fuel as [|fuel IH]; intros st st' k Hok Hit; cbn [newton_loop];
    [discriminate|].
  destruct (check_default Hok) as [Hc | Hc]; rewrite Hc.
  2:{ intros E; inversion E; subst. left. split; auto.
      apply check_Some in Hc. simpl in Hc. lia. }
  destruct (apply_inverse op _ _) as [u|] eqn:Hu.
  2:{ intros E; inversion E; subst. auto. }
  destruct (step_size_of op p _ u) as [s|] eqn:Hs.
  2:{ unfold step_size_of in Hs. destruct (relax p); try discriminate.
      contradiction. }
  destruct (blown_up _) eqn:Hb.
  { intros E; inversion E; subst. auto. }
  apply IH.
  - apply nonneg_errors_advance; assumption.
  - rewrite iteration_advance. apply check_None in Hc. lia.
Qed.


End DefaultTolerances.

(** The ways out at the head of the loop. *)
Definition head_kind (k : newton_exit) : bool :=
  match k with
  | AbsoluteLimit | TotalReduction | Stagnating | EmptyWindow | FailedMaxiter =>
    true
  | _ => false
  end.

(** *** The history of the stages *)

(** At the head of the loop: one stage per completed iteration (when they
    are kept), and one residual norm more than that. *)
Definition history_inv (st : state) : Prop :=
  (return_stages p = true -> length (stages st) = iteration st) /\
  length (residual_norms st) = S (iteration st).

Lemma newton_loop_history (fuel : nat) :
  forall (st st' : state) (k : newton_exit),
    history_inv st ->
    newton_loop op p fuel st = Some (k, st') ->
    head_kind k = true -> history_inv st'.
Proof.
  induction fuel as [|fuel IH]; intros st st' k Hi; cbn [newton_loop];
    [discriminate|].
  destruct (check p st) eqn:Hc.
  { intros E; inversion E; subst. auto. }
  destruct (apply_inverse op _ _) as [u|] eqn:Hu.
  2:{ intros E; inversion E; subst. discriminate. }
  destruct (step_size_of op p _ u) as [s|] eqn:Hs.
  2:{ intros E; inversion E; subst. discriminate. }
  destruct (blown_up _) eqn:Hb.
  { intros E; inversion E; subst. discriminate. }
  apply IH. destruct Hi as (Hst & Hres). split; simpl.
  - intros Hr. rewrite Hr, length_app. simpl. rewrite (Hst Hr). lia.
  - rewrite length_app. simpl. lia.
Qed.

(** X2. When [newton] returns with [return_stages], the stages it returns
    are as many as the iterations it completed: one less than the residual
    norms. *)
Theorem stages_per_iteration (initial_guess : option Src)
  (u : Src) (data : newton_data Src Rng) :
  return_stages p = true ->
  newton op p initial_guess = Ok (u, data) ->
  exists l, data_stages data = Some l /\
            S (length l) = length (data_residual_norms data).
Proof.
  intros Hr H. unfold newton in H.
  destruct (newton_run op p initial_guess) as [(k & st)|] eqn:Hrun;
    [|discriminate].
  assert (head_kind k = true) as Hk by (destruct k; simpl in *; congruence).
  unfold newton_run in Hrun.
  eapply newton_loop_history in Hrun; eauto.
  - destruct Hrun as (Hst & Hres).
    destruct k; simpl in H; try discriminate; inversion H; subst; simpl;
      rewrite Hr; eexists; (split; [reflexivity|]); rewrite (Hst Hr), Hres;
      reflexivity.
  - split; simpl; auto.
Qed.

(** *** The claims about the ways out of [newton] *)

Lemma exit_condition_check (st : state) (k : newton_exit) :
  head_kind k = true -> exit_condition k st -> check p st = Some k.
Proof.
  unfold check. destruct k; simpl; try discriminate; intros _.
  - intros (Hm & Ha). apply Z.leb_le in Hm. rewrite Hm, Ha. reflexivity.
  - intros (Hm & Ha & Hr). apply Z.leb_le in Hm. rewrite Hm, Ha, Hr. reflexivity.
  - intros (Hm & Ha & Hr & Hs). apply Z.leb_le in Hm.
    rewrite Hm, Ha, Hr, Hs. reflexivity.
  - intros (Hm & Ha & Hr & Hs & Hx). apply Z.leb_le in Hm, Hx.
    rewrite Hm, Ha, Hr, Hs, Hx. reflexivity.
  - intros (Hm & Ha & Hr & Hs). apply Z.leb_le in Hm.
    rewrite Hm, Ha, Hr, Hs. reflexivity.
Qed.

(** *** The iterations of the loop *)

(** A completed iteration: the checks at the head let the loop go on, the
    Jacobian system is solved, the line search gives a step, and the new
    norms are finite. *)
Inductive newton_step (st : state) : state -> Prop :=
| newton_step_intro (update : Src) (step_size : float) :
    check p st = None ->
    apply_inverse op (U st) (residual st) = Some update ->
    step_size_of op p (begin_iteration p st) update = Some step_size ->
    blown_up (advance op p (begin_iteration p st) update step_size) = false ->
    newton_step st (advance op p (begin_iteration p st) update step_size).

(** The states at the head of the loop that a run from [st0] goes through. *)
Inductive reaches (st0 : state) : state -> Prop :=
| reaches_start : reaches st0 st0
| reaches_next (st st' : state) :
    reaches st0 st -> newton_step st st' -> reaches st0 st'.

(** The loop is left from the head state [st] with [k], in the state [st']:
    by a check at the head, or in the iteration, where it fails. *)
Definition leaves (st : state) (k : newton_exit) (st' : state) : Prop :=
  (check p st = Some k /\ st' = st) \/
  (check p st = None /\
   match apply_inverse op (U st) (residual st) with
   | None => k = CouldNotInvert /\ st' = begin_iteration p st
   | Some update =>
     match step_size_of op p (begin_iteration p st) update with
     | None => k = UnknownLineSearch /\ st' = begin_iteration p st
     | Some step_size =>
       blown_up (advance op p (begin_iteration p st) update step_size) = true /\
       k = NonFinite /\
       st' = advance op p (begin_iteration p st) update step_size
     end
   end).

Lemma newton_loop_step (fuel : nat) (st st' : state) :
  newton_step st st' ->
  newton_loop op p (S fuel) st = newton_loop op p fuel st'.
Proof.
  intros [u s Hc Hu Hs Hb]. cbn [newton_loop]. rewrite Hc.
  change (apply_inverse op (U (begin_iteration p st))
            (residual (begin_iteration p st)))
    with (apply_inverse op (U st) (residual st)).
  rewrite Hu, Hs, Hb. reflexivity.
Qed.

Lemma newton_loop_leaves (fuel : nat) (st : state) (k : newton_exit)
  (st' : state) :
  leaves st k st' -> newton_loop op p (S fuel) st = Some (k, st').
Proof.
  intros [(Hc & ->) | (Hc & H)]; cbn [newton_loop]; rewrite Hc;
    [reflexivity|].
  change (apply_inverse op (U (begin_iteration p st))
            (residual (begin_iteration p st)))
    with (apply_inverse op (U st) (residual st)).
  destruct (apply_inverse op (U st) (residual st)) as [u|].
  - destruct (step_size_of op p (begin_iteration p st) u) as [s|].
    + destruct H as (Hb & -> & ->). rewrite Hb. reflexivity.
    + destruct H as (-> & ->). reflexivity.
  - destruct H as (-> & ->). reflexivity.
Qed.

(** The fuel of [newton_run] lasts to every state that is reached. *)
Lemma reaches_loop (st0 st : state) :
  reaches st0 st ->
  forall fuel,
    (Z.max (miniter p) (maxiter p)
     <= Z.of_nat fuel + Z.of_nat (iteration st0))%Z ->
    exists fuel',
      newton_loop op p (S fuel) st0 = newton_loop op p (S fuel') st /\
      (Z.max (miniter p) (maxiter p)
       <= Z.of_nat fuel' + Z.of_nat (iteration st))%Z.
Proof.
  induction 1 as [|st st' Hr IH Hstep]; intros fuel Hfuel.
  - exists fuel. auto.
  - destruct (IH fuel Hfuel) as (fuel' & E & Hfuel').
    destruct Hstep as [u s Hc Hu Hs Hb]. pose proof (check_None _ Hc) as Hlt.
    destruct fuel' as [|fuel']; [lia|].
    exists fuel'. split.
    + rewrite E. apply newton_loop_step. constructor; assumption.
    + rewrite iteration_advance. lia.
Qed.

Lemma run_leaves (initial_guess : option Src) (st : state)
  (k : newton_exit) (st' : state) :
  reaches (initial_state op p initial_guess) st -> leaves st k st' ->
  newton_run op p initial_guess = Some (k, st') /\
  newton op p initial_guess = newton_result p k st'.
Proof.
  intros Hr Hl.
  assert (newton_run op p initial_guess = Some (k, st')) as Hrun.
  { unfold newton_run, newton_fuel.
    destruct (reaches_loop Hr (Z.to_nat (Z.max (miniter p) (maxiter p))))
      as (fuel & -> & _); [simpl; lia|].
    apply newton_loop_leaves. exact Hl. }
  split; [exact Hrun|]. unfold newton. rewrite Hrun. reflexivity.
Qed.

(** Every run is left from a head state that it reaches. *)
Lemma newton_loop_reaches (fuel : nat) :
  forall (st0 st' : state) (k : newton_exit),
    newton_loop op p fuel st0 = Some (k, st') ->
    exists st, reaches st0 st /\ leaves st k st'.
Proof.
  induction fuel as [|fuel IH]; intros st0 st' k; cbn [newton_loop];
    [discriminate|].
  destruct (check p st0) as [k0|] eqn:Hc.
  { intros E; inversion E; subst. exists st'. split; [constructor|].
    left. auto. }
  change (apply_inverse op (U (begin_iteration p st0))
            (residual (begin_iteration p st0)))
    with (apply_inverse op (U st0) (residual st0)).
  destruct (apply_inverse op (U st0) (residual st0)) as [u|] eqn:Hu.
  2:{ intros E; inversion E; subst. exists st0. split; [constructor|].
      right. rewrite Hu. auto. }
  destruct (step_size_of op p (begin_iteration p st0) u) as [s|] eqn:Hs.
  2:{ intros E; inversion E; subst. exists st0. split; [constructor|].
      right. rewrite Hu, Hs. auto. }
  destruct (blown_up _) eqn:Hb.
  { intros E; inversion E; subst. exists st0. split; [constructor|].
    right. rewrite Hu, Hs. auto. }
  intros E. destruct (IH _ _ _ E) as (st & Hr & Hl). exists st.
  split; [|exact Hl].
  assert (newton_step st0 (advance op p (begin_iteration p st0) u s)) as Hstep
    by (constructor; assumption).
  clear - Hr Hstep. induction Hr as [|a b Hab IHr Hbn].
  - eapply reaches_next; [constructor | exact Hstep].
  - eapply reaches_next; [exact IHr | exact Hbn].
Qed.

(** C7 (as amended). [newton] always ends: its loop is left from a head
    state that the run reaches, and it raises [NewtonError] exactly when
    the loop is left (1) at its head, with the iteration count at least
    [miniter] and [maxiter] and no convergence or stagnation criterion
    holding, or (2) because the Jacobian system could not be solved, or (3)
    because the residual norm or the solution norm computed by an update is
    not finite. Each is fatal at once, at whatever head state the run
    reaches: there the [maxiter] check that fires, a Jacobian system that
    cannot be solved, and an update with a non-finite norm each make [newton]
    raise its [NewtonError]; nothing is retried. When the loop is left in
    any other way than (3), every norm recorded after the initial ones is
    finite; the initial norms are not checked. In the other runs [newton]
    returns the solution and its diagnostics, or raises [ValueError] (unknown
    line search, empty stagnation window). *)
Theorem newton_error_cases (initial_guess : option Src) :
  (exists k st,
     newton_run op p initial_guess = Some (k, st) /\
     newton op p initial_guess = newton_result p k st /\
     (exists head, reaches (initial_state op p initial_guess) head /\
                   leaves head k st) /\
     exit_condition k st /\
     (k <> NonFinite -> finite_history st) /\
     ((exists m, newton op p initial_guess = Raised (NewtonError m)) <->
      (k = FailedMaxiter \/ k = CouldNotInvert \/ k = NonFinite)) /\
     ((exists r, newton op p initial_guess = Ok r) <->
      (k = AbsoluteLimit \/ k = TotalReduction \/ k = Stagnating))) /\
  (forall st,
     reaches (initial_state op p initial_guess) st ->
     (check p st = Some FailedMaxiter ->
      newton op p initial_guess = Raised (NewtonError Failed_to_converge)) /\
     (check p st = None ->
      apply_inverse op (U st) (residual st) = None ->
      newton op p initial_guess
      = Raised (NewtonError Could_not_invert_jacobian)) /\
     (forall update step_size,
        check p st = None ->
        apply_inverse op (U st) (residual st) = Some update ->
        step_size_of op p (begin_iteration p st) update = Some step_size ->
        blown_up (advance op p (begin_iteration p st) update step_size) = true ->
        newton op p initial_guess = Raised (NewtonError Failed_to_converge)) /\
     (forall k, k = AbsoluteLimit \/ k = TotalReduction \/ k = Stagnating ->
        check p st = Some k ->
        newton op p initial_guess = newton_result p k st /\
        exists r, newton_result p k st = Ok r)).
Proof.
  split.
  - destruct (newton_run_total initial_guess) as (k & st & Hrun).
    exists k, st. split; [exact Hrun|].
    assert (newton op p initial_guess = newton_result p k st) as Hres.
    { unfold newton. rewrite Hrun. reflexivity. }
    split; [exact Hres|]. unfold newton_run in Hrun.
    split; [eapply newton_loop_reaches; eauto|].
    split; [eapply newton_loop_exit; eauto|].
    split.
    { intros Hk. eapply newton_loop_finite; [| |exact Hrun|exact Hk].
      - split; simpl; discriminate.
      - split; simpl; constructor. }
    rewrite Hres. split; split.
    + intros (m & Hm). destruct k; simpl in Hm; try discriminate; auto.
    + intros [-> | [-> | ->]]; simpl; eauto.
    + intros (r & Hr). destruct k; simpl in Hr; try discriminate; auto.
    + intros [-> | [-> | ->]]; simpl; eauto.
  - intros st Hr. split; [|split; [|split]].
    + intros Hc.
      apply (run_leaves Hr (k := FailedMaxiter) (st' := st)). left. auto.
    + intros Hc Hu.
      apply (run_leaves Hr (k := CouldNotInvert) (st' := begin_iteration p st)).
      right. rewrite Hu. auto.
    + intros u s Hc Hu Hs Hb.
      apply (run_leaves Hr (k := NonFinite)
               (st' := advance op p (begin_iteration p st) u s)).
      right. rewrite Hu, Hs. auto.
    + intros k Hk Hc. split.
      * apply (run_leaves Hr (k := k) (st' := st)). left. auto.
      * destruct Hk as [-> | [-> | ->]]; simpl; eauto.
Qed.

(** C8 (as amended). The checks at the head of the loop are made only once
    [iteration >= miniter], in the order: absolute limit, total reduction,
    stagnation, [maxiter]; each way out holds exactly when its criterion
    holds and the earlier ones do not. This is how [newton] leaves every
    head state its run reaches: it leaves there with a way out exactly when
    the criterion of that way out holds and the earlier ones do not. While
    [iteration < miniter] there is no convergence exit and no [maxiter]
    failure: the loop can only be left there by the failure to invert the
    Jacobian, by a non-finite norm, or by an unknown line search. *)
Theorem termination_checks :
  (forall st : state,
     (Z.of_nat (iteration st) < miniter p)%Z -> check p st = None) /\
  (forall (st : state) k,
     head_kind k = true -> (check p st = Some k <-> exit_condition k st)) /\
  (forall (st : state) k, check p st = Some k -> head_kind k = true) /\
  (forall initial_guess k st,
     newton_run op p initial_guess = Some (k, st) ->
     (Z.of_nat (iteration st) < miniter p)%Z ->
     k = CouldNotInvert \/ k = NonFinite \/ k = UnknownLineSearch) /\
  (forall initial_guess st k,
     reaches (initial_state op p initial_guess) st ->
     head_kind k = true ->
     (newton_run op p initial_guess = Some (k, st) <-> exit_condition k st)).
Proof.
  split; [|split; [|split; [|split]]].
  - intros st Hlt. unfold check.
    destruct (Z.leb_spec (miniter p) (Z.of_nat (iteration st))); [lia | reflexivity].
  - intros st k Hk. split; [apply check_Some | apply exit_condition_check; exact Hk].
  - intros st k Hc. unfold check in Hc.
    destruct (_ <=? _)%Z; [|discriminate].
    destruct (_ <? _); [inversion Hc; reflexivity|].
    destruct (_ <? _); [inversion Hc; reflexivity|].
    destruct (stagnates p st) as [[|] | |]; try (inversion Hc; reflexivity).
    destruct (_ <=? _)%Z; inversion Hc; reflexivity.
  - intros g k st Hrun Hlt. unfold newton_run in Hrun.
    apply newton_loop_exit in Hrun.
    destruct k; simpl in Hrun; auto; lia.
  - intros g st k Hr Hk. split.
    + intros Hrun. unfold newton_run in Hrun.
      eapply newton_loop_exit; eauto.
    + intros Hex. apply exit_condition_check in Hex; [|exact Hk].
      apply (run_leaves Hr (k := k) (st' := st)). left. auto.
Qed.

(** *** What [newton] returns *)

(** A property of the state that every completed iteration keeps holds when
    the loop is left at its head. *)
Lemma newton_loop_head (P : state -> Prop) :
  (forall st u s,
     P st -> check p st = None ->
     apply_inverse op (U st) (residual st) = Some u ->
     step_size_of op p (begin_iteration p st) u = Some s ->
     P (advance op p (begin_iteration p st) u s)) ->
  forall fuel (st st' : state) (k : newton_exit),
    P st -> newton_loop op p fuel st = Some (k, st') ->
    head_kind k = true -> P st' /\ check p st' = Some k.
Proof.
  intros Hstep. induction fuel as [|fuel IH]; intros st st' k HP;
    cbn [newton_loop]; [discriminate|].
  destruct (check p st) eqn:Hc.
  { intros E; inversion E; subst. auto. }
  destruct (apply_inverse op _ _) as [u|] eqn:Hu.
  2:{ intros E; inversion E; subst. discriminate. }
  destruct (step_size_of op p _ u) as [s|] eqn:Hs.
  2:{ intros E; inversion E; subst. discriminate. }
  destruct (blown_up _) eqn:Hb.
  { intros E; inversion E; subst. discriminate. }
  apply IH. apply Hstep; assumption.
Qed.

Definition guess (initial_guess : option Src) : Src :=
  match initial_guess with Some g => g | None => zeros op end.

Definition residual_of (x : Src) : Rng := rsub op (rhs op) (apply op x).

Lemma newton_Ok (initial_guess : option Src) (u : Src)
  (data : newton_data Src Rng) :
  newton op p initial_guess = Ok (u, data) ->
  exists k st,
    newton_loop op p (newton_fuel p) (initial_state op p initial_guess)
    = Some (k, st) /\
    head_kind k = true /\
    (k = AbsoluteLimit \/ k = TotalReduction \/ k = Stagnating) /\
    u = U st /\
    data = mk_newton_data
             (if return_stages p then Some (stages st) else None)
             (if return_residuals p then Some (residuals st) else None)
             (solution_norms st) (update_norms st) (residual_norms st).
Proof.
  unfold newton, newton_run. intros H.
  destruct (newton_loop op p _ _) as [(k & st)|] eqn:Hrun; [|discriminate].
  exists k, st. split; [reflexivity|].
  destruct k; simpl in H; try discriminate; inversion H; subst; auto 10.
Qed.

(** The three histories grow together, and the iterations are counted up to
    [miniter] and [maxiter] at most. *)
Definition counts_inv (st : state) : Prop :=
  length (solution_norms st) = S (iteration st) /\
  length (update_norms st) = S (iteration st) /\
  length (residual_norms st) = S (iteration st) /\
  (Z.of_nat (iteration st) <= Z.max 0 (Z.max (miniter p) (maxiter p)))%Z.

(** X8. When [newton] returns it has completed a number [n] of iterations
    with [miniter <= n <= max(0, miniter, maxiter)], and each of
    [solution_norms], [update_norms] and [residual_norms] has [n + 1]
    entries. *)
Theorem newton_iteration_bounds (initial_guess : option Src) (u : Src)
  (data : newton_data Src Rng) :
  newton op p initial_guess = Ok (u, data) ->
  exists n : nat,
    length (data_solution_norms data) = S n /\
    length (data_update_norms data) = S n /\
    length (data_residual_norms data) = S n /\
    (miniter p <= Z.of_nat n)%Z /\
    (Z.of_nat n <= Z.max 0 (Z.max (miniter p) (maxiter p)))%Z.
Proof.
  intros H. apply newton_Ok in H.
  destruct H as (k & st & Hrun & Hk & _ & -> & ->).
  eapply newton_loop_head with (P := counts_inv) in Hrun; eauto.
  - destruct Hrun as ((Hs & Hu & Hr & Hmax) & Hc). exists (iteration st).
    cbn [data_solution_norms data_update_norms data_residual_norms].
    repeat (split; [assumption|]). split; [|assumption].
    apply check_Some in Hc. destruct k; simpl in Hc; try discriminate; lia.
  - intros s0 upd step (Hs & Hu & Hr & _) Hc _ _. apply check_None in Hc.
    unfold counts_inv; simpl. rewrite !length_app; simpl.
    repeat split; lia.
  - unfold counts_inv; simpl. repeat split; lia.
Qed.

(** One Newton update: the Jacobian system at [x] is solved for the residual
    of [x], and the update is added with the step size that [relax] gives. *)
Definition newton_update (x y : Src) : Prop :=
  exists upd s,
    apply_inverse op x (residual_of x) = Some upd /\
    y = axpy op s upd x /\
    match relax p with
    | Relax step => s = step
    | Armijo => s = armijo op x upd (residual_of x) (vnorm_rng op (residual_of x))
    | OtherMethod => False
    end.

Fixpoint linked {A : Type} (step : A -> A -> Prop) (l : list A) : Prop :=
  match l with
  | x :: l' =>
    match l' with
    | y :: _ => step x y /\ linked step l'
    | [] => True
    end
  | [] => True
  end.

Lemma linked_snoc {A : Type} (step : A -> A -> Prop) (l : list A) (x y : A) :
  linked step (l ++ [x]) -> step x y -> linked step ((l ++ [x]) ++ [y]).
Proof.
  intros Hl Hxy. induction l as [|a l IH]; [simpl; auto|].
  destruct l as [|b l].
  - simpl in *. tauto.
  - destruct Hl as (Hab & Hl). split; [exact Hab|]. apply IH. exact Hl.
Qed.

Lemma hd_error_snoc {A : Type} (l : list A) (x y : A) :
  hd_error ((l ++ [x]) ++ [y]) = hd_error (l ++ [x]).
Proof. destruct l; reflexivity. Qed.

Definition residual_inv (st : state) : Prop :=
  residual st = residual_of (U st) /\
  residual_norm st = vnorm_rng op (residual st).

Definition stages_inv (initial_guess : option Src) (st : state) : Prop :=
  residual_inv st /\
  (return_stages p = true ->
   hd_error (stages st ++ [U st]) = Some (guess initial_guess) /\
   linked newton_update (stages st ++ [U st]) /\
   solution_norms st = map (vnorm_src op) (stages st ++ [U st])).

(** X9. With [return_stages], the stages followed by the returned solution
    are the Newton iterates: they start with the initial guess, each is a
    Newton update of the one before, and their norms are [solution_norms].
    So the stages are the approximations before each iteration; the returned
    solution is not one of them. *)
Theorem stages_are_previous_iterates (initial_guess : option Src) (u : Src)
  (data : newton_data Src Rng) :
  return_stages p = true ->
  newton op p initial_guess = Ok (u, data) ->
  exists l,
    data_stages data = Some l /\
    hd_error (l ++ [u]) = Some (guess initial_guess) /\
    linked newton_update (l ++ [u]) /\
    map (vnorm_src op) (l ++ [u]) = data_solution_norms data.
Proof.
  intros Hr H. apply newton_Ok in H.
  destruct H as (k & st & Hrun & Hk & _ & -> & ->).
  eapply newton_loop_head with (P := stages_inv initial_guess) in Hrun; eauto.
  - destruct Hrun as ((_ & Hst) & _). destruct (Hst Hr) as (Hhd & Hl & Hn).
    exists (stages st). simpl. rewrite Hr. auto.
  - intros s0 upd step ((Hres & Hrn) & Hst) _ Hupd Hstep.
    split; [split; reflexivity|]. intros _.
    destruct (Hst Hr) as (Hhd & Hl & Hn). simpl. rewrite Hr.
    split; [rewrite hd_error_snoc; exact Hhd|]. split.
    + apply linked_snoc; [exact Hl|]. exists upd, step.
      rewrite <- Hres. split; [exact Hupd|]. split; [reflexivity|].
      unfold step_size_of in Hstep. simpl in Hstep.
      destruct (relax p); inversion Hstep; subst; auto.
      rewrite Hrn. reflexivity.
    + rewrite Hn, !map_app. reflexivity.
  - split; [split; reflexivity|]. intros _. simpl. auto.
Qed.

Definition residuals_inv (st : state) : Prop :=
  residual st = residual_of (U st) /\
  (return_residuals p = true ->
   residual_norms st = map (vnorm_rng op) (residuals st ++ [residual st])).

(** X10. With [return_residuals], the returned residuals are those before
    each iteration: their norms, followed by the norm of the residual of the
    returned solution, are [residual_norms]. The residual of the returned
    solution is not returned. *)
Theorem residuals_are_previous_residuals (initial_guess : option Src)
  (u : Src) (data : newton_data Src Rng) :
  return_residuals p = true ->
  newton op p initial_guess = Ok (u, data) ->
  exists rs,
    data_residuals data = Some rs /\
    map (vnorm_rng op) (rs ++ [residual_of u]) = data_residual_norms data.
Proof.
  intros Hr H. apply newton_Ok in H.
  destruct H as (k & st & Hrun & Hk & _ & -> & ->).
  eapply newton_loop_head with (P := residuals_inv) in Hrun; eauto.
  - destruct Hrun as ((Hres & Hn) & _). exists (residuals st).
    simpl. rewrite Hr, <- Hres, (Hn Hr). auto.
  - intros s0 upd step (Hres & Hn) _ _ _.
    split; [reflexivity|]. intros _. simpl. rewrite Hr, (Hn Hr), !map_app.
    reflexivity.
  - split; [reflexivity|]. intros _. reflexivity.
Qed.

(** The error measure and its reference, read off the diagnostics. *)
Definition data_errs (data : newton_data Src Rng) : list float :=
  match error_measure p with
  | Residual => data_residual_norms data
  | Update => data_update_norms data
  end.

Definition data_scale (data : newton_data Src Rng) : float :=
  match error_measure p with
  | Residual => hd 0 (data_residual_norms data)
  | Update => last (data_solution_norms data) 0
  end.

Definition meets_criterion (data : newton_data Src Rng) : Prop :=
  let e := last (data_errs data) 0 in
  (e <? atol p) = true \/
  (e <? rtol p * data_scale data) = true \/
  ((stagnation_window p + 1 <= Z.of_nat (length (data_errs data)))%Z /\
   exists m,
     py_max (py_slice_from (- stagnation_window p - 1) (data_errs data)) = Ok m /\
     (stagnation_threshold p * m <? e) = true).

Definition measure_inv (st : state) : Prop :=
  err st = last (errs p st) 0 /\
  err_scale_factor st =
    match error_measure p with
    | Residual => hd 0 (residual_norms st)
    | Update => last (solution_norms st) 0
    end /\
  residual_norms st <> [].

(** X11. When [newton] returns, the last entry [e] of the error history
    ([residual_norms], or [update_norms] for the update measure) meets a
    criterion: [e < atol], or [e < rtol * scale] with [scale] the first
    residual norm (for the update measure: the last solution norm), or the
    history has more than [stagnation_window] entries and
    [e > stagnation_threshold * max] of its last [stagnation_window + 1]. *)
Theorem returned_error_meets_criterion (initial_guess : option Src) (u : Src)
  (data : newton_data Src Rng) :
  newton op p initial_guess = Ok (u, data) -> meets_criterion data.
Proof.
  intros H. apply newton_Ok in H.
  destruct H as (k & st & Hrun & Hk & Hconv & -> & ->).
  eapply newton_loop_head with (P := measure_inv) in Hrun; eauto.
  - destruct Hrun as ((He & Hsc & _) & Hc). apply check_Some in Hc.
    unfold meets_criterion, data_errs, data_scale.
    cbn [data_solution_norms data_update_norms data_residual_norms].
    fold (errs p st). rewrite <- He, <- Hsc.
    destruct Hconv as [-> | [-> | ->]]; simpl in Hc.
    + left. tauto.
    + right; left. tauto.
    + right; right. destruct Hc as (_ & _ & _ & Hs). unfold stagnates in Hs.
      destruct (Z.leb_spec (stagnation_window p + 1)
                           (Z.of_nat (length (errs p st)))); [|discriminate].
      split; [assumption|].
      destruct (py_max _) as [m| |]; simpl in Hs; try discriminate.
      exists m. split; [reflexivity|]. congruence.
  - intros s0 upd step (He & Hsc & Hne) _ _ _. unfold measure_inv, errs.
    simpl. destruct (error_measure p); rewrite !last_last.
    + repeat split; auto.
      * rewrite Hsc. destruct (residual_norms s0); [congruence | reflexivity].
      * intros E. apply app_eq_nil in E. destruct E; discriminate.
    + repeat split; auto.
      intros E. apply app_eq_nil in E. destruct E; discriminate.
  - unfold measure_inv, errs. simpl.
    destruct (error_measure p); repeat split; discriminate.
Qed.

Definition describes (initial_guess : option Src) (st : state) : Prop :=
  (last (solution_norms st) 0 = vnorm_src op (U st) /\
   last (residual_norms st) 0 = vnorm_rng op (residual_of (U st))) /\
  (hd_error (solution_norms st) = Some (vnorm_src op (guess initial_guess)) /\
   hd_error (update_norms st) = Some (vnorm_src op (guess initial_guess)) /\
   hd_error (residual_norms st)
   = Some (vnorm_rng op (residual_of (guess initial_guess)))).

Lemma hd_error_app {A : Type} (l : list A) (x y : A) :
  hd_error l = Some x -> hd_error (l ++ [y]) = Some x.
Proof. destruct l; [discriminate | auto]. Qed.

(** X19. When [newton] returns, the last solution norm and the last residual
    norm of the diagnostics are those of the returned solution, and the
    first entries are those of the initial guess: its norm (also the first
    entry of [update_norms]) and the norm of its residual. *)
Theorem diagnostics_describe_the_solution (initial_guess : option Src)
  (u : Src) (data : newton_data Src Rng) :
  newton op p initial_guess = Ok (u, data) ->
  (last (data_solution_norms data) 0 = vnorm_src op u /\
   last (data_residual_norms data) 0 = vnorm_rng op (residual_of u)) /\
  (hd_error (data_solution_norms data)
   = Some (vnorm_src op (guess initial_guess)) /\
   hd_error (data_update_norms data)
   = Some (vnorm_src op (guess initial_guess)) /\
   hd_error (data_residual_norms data)
   = Some (vnorm_rng op (residual_of (guess initial_guess)))).
Proof.
  intros H. apply newton_Ok in H.
  destruct H as (k & st & Hrun & Hk & _ & -> & ->).
  eapply newton_loop_head with (P := describes initial_guess) in Hrun; eauto.
  - destruct Hrun as (Hd & _). exact Hd.
  - intros s0 upd step (_ & Hs & Hu & Hr) _ _ _. unfold describes. simpl.
    rewrite !last_last. split; [split; reflexivity|].
    repeat split; apply hd_error_app; assumption.
  - unfold describes. simpl. repeat split; reflexivity.
Qed.

(** X12. With the update measure the first error is the norm of the initial
    guess: when that is below [atol] and [miniter <= 0], [newton] returns
    the initial guess at once, without any iteration, whatever the
    residual. *)
Theorem update_measure_accepts_small_guess (initial_guess : option Src) :
  error_measure p = Update ->
  (miniter p <= 0)%Z ->
  (vnorm_src op (guess initial_guess) <? atol p) = true ->
  newton op p initial_guess
  = Ok (guess initial_guess,
        mk_newton_data
          (if return_stages p then Some [] else None)
          (if return_residuals p then Some [] else None)
          [vnorm_src op (guess initial_guess)]
          [vnorm_src op (guess initial_guess)]
          [vnorm_rng op (residual_of (guess initial_guess))]).
Proof.
  intros Hm Hmin Ha. unfold newton, newton_run, newton_fuel.
  cbn [newton_loop]. unfold check, initial_state. cbn [iteration err].
  rewrite Hm. fold (guess initial_guess).
  destruct (Z.leb_spec (miniter p) (Z.of_nat 0)); [|simpl in *; lia].
  rewrite Ha. reflexivity.
Qed.

End Run.

(** *** A scalar equation *)

(** [a * u = b] on floats: the Jacobian is [a], singular when [a] is zero. *)
Definition scalar_problem (a b : float) : problem float float :=
  mk_problem 0
    (fun u => a * u)
    (fun x y => x - y)
    (fun _ r => if a =? 0 then None else Some (r / a))
    (fun s x u => u + s * x)
    PrimFloat.abs PrimFloat.abs
    (fun _ _ _ _ => 1)
    b.

(** [u = 1] is solved exactly by the first iteration; with the defaults
    [newton] still runs its hundred iterations and fails. *)
Example newton_solved_but_fails :
  exists st,
    newton_run (scalar_problem 1 1) defaults None = Some (FailedMaxiter, st) /\
    iteration st = 100%nat /\ nth 1 (residual_norms st) 1 = 0 /\
    newton (scalar_problem 1 1) defaults None
    = Raised (NewtonError Failed_to_converge).
Proof.
  eexists. split; [vm_compute; reflexivity|].
  split; [reflexivity|]. split; vm_compute; reflexivity.
Qed.


(** C7, counterexample. The right-hand side is infinite, so the initial
    residual norm is [inf]; with the update as error measure the initial error
    is the norm of the zero initial guess, below [atol = 1]: [newton] returns
    at once, and reports the infinite residual norm. *)
Definition update_params : params :=
  mk_params 0 100 1 0 (Relax 1) 3 infinity Update false false.

Lemma nonfinite_initial_residual_returns :
  newton (scalar_problem 1 infinity) update_params None
  = Ok (0, mk_newton_data None None [0] [0] [infinity]) /\
  is_finite infinity = false.
Proof. split; vm_compute; reflexivity. Qed.

(** C8, counterexample. The Jacobian is singular and [miniter = 5]: the
    loop is left in its first iteration, below [miniter], by the failure to
    invert, with finite norms. *)
Definition five_params : params :=
  mk_params 5 100 0 0 (Relax 1) 3 infinity Residual false false.

Lemma inversion_failure_before_miniter :
  exists st,
    newton_run (scalar_problem 0 1) five_params None = Some (CouldNotInvert, st) /\
    (Z.of_nat (iteration st) < miniter five_params)%Z /\
    is_finite (residual_norm st) = true /\ is_finite (solution_norm st) = true /\
    newton (scalar_problem 0 1) five_params None
    = Raised (NewtonError Could_not_invert_jacobian).
Proof.
  eexists. split; [vm_compute; reflexivity|].
  split; [vm_compute; reflexivity|].
  split; [vm_compute; reflexivity|]. split; vm_compute; reflexivity.
Qed.

Lemma stages_per_iteration_witness :
  exists l, Some [0] = Some l /\ S (length l) = length [1; 0].
Proof.
  apply (@stages_per_iteration float float (scalar_problem 1 1)
           (mk_params 0 100 (1 / 2) 0 (Relax 1) 3 infinity Residual true false)
           None 1 (mk_newton_data (Some [0]) None [0; 1] [0; 1] [1; 0])).
  - reflexivity.
  - vm_compute. reflexivity.
Defined.

(** [2 * u = 4] with half steps: the iterates are 0, 1, 1.5, 1.75, ... and
    the residual norms 4, 2, 1, 0.5, ... *)
Definition half_steps (miniter maxiter : Z) (atol rtol : float)
  (stagnation_window : Z) (stagnation_threshold : float) : params :=
  mk_params miniter maxiter atol rtol (Relax 0.5) stagnation_window
    stagnation_threshold Residual true true.

Lemma newton_iteration_bounds_witness :
  exists n : nat,
    length [0; 1; 1.5; 1.75] = S n /\ length [0; 1; 0.5; 0.25] = S n /\
    length [4; 2; 1; 0.5] = S n /\
    (3 <= Z.of_nat n)%Z /\ (Z.of_nat n <= Z.max 0 (Z.max 3 1))%Z.
Proof.
  apply (@newton_iteration_bounds float float (scalar_problem 2 4)
           (half_steps 3 1 100 0 3 infinity) None 1.75
           (mk_newton_data (Some [0; 1; 1.5]) (Some [4; 2; 1])
              [0; 1; 1.5; 1.75] [0; 1; 0.5; 0.25] [4; 2; 1; 0.5])).
  vm_compute. reflexivity.
Defined.

Lemma stages_are_previous_iterates_witness :
  exists l,
    Some [0; 1] = Some l /\
    hd_error (l ++ [1.5]) = Some 0 /\
    linked (newton_update (scalar_problem 2 4)
              (half_steps 0 100 1.5 0 3 infinity)) (l ++ [1.5]) /\
    map PrimFloat.abs (l ++ [1.5]) = [0; 1; 1.5].
Proof.
  apply (@stages_are_previous_iterates float float (scalar_problem 2 4)
           (half_steps 0 100 1.5 0 3 infinity) None 1.5
           (mk_newton_data (Some [0; 1]) (Some [4; 2])
              [0; 1; 1.5] [0; 1; 0.5] [4; 2; 1])).
  - reflexivity.
  - vm_compute. reflexivity.
Defined.

Lemma residuals_are_previous_residuals_witness :
  exists rs,
    Some [4; 2] = Some rs /\
    map PrimFloat.abs (rs ++ [residual_of (scalar_problem 2 4) 1.5])
    = [4; 2; 1].
Proof.
  apply (@residuals_are_previous_residuals float float (scalar_problem 2 4)
           (half_steps 0 100 1.5 0 3 infinity) None 1.5
           (mk_newton_data (Some [0; 1]) (Some [4; 2])
              [0; 1; 1.5] [0; 1; 0.5] [4; 2; 1])).
  - reflexivity.
  - vm_compute. reflexivity.
Defined.

Lemma returned_error_meets_criterion_witness :
  meets_criterion (half_steps 0 100 0 0 1 0.25)
    (mk_newton_data (Some [0]) (Some [4]) [0; 1] [0; 1] [4; 2]).
Proof.
  apply (@returned_error_meets_criterion float float (scalar_problem 2 4)
           (half_steps 0 100 0 0 1 0.25) None 1).
  vm_compute. reflexivity.
Defined.

Lemma diagnostics_describe_the_solution_witness :
  (last [0; 1; 1.5] 0 = PrimFloat.abs 1.5 /\
   last [4; 2; 1] 0 = PrimFloat.abs (residual_of (scalar_problem 2 4) 1.5)) /\
  (hd_error [0; 1; 1.5] = Some (PrimFloat.abs 0) /\
   hd_error [0; 1; 0.5] = Some (PrimFloat.abs 0) /\
   hd_error [4; 2; 1]
   = Some (PrimFloat.abs (residual_of (scalar_problem 2 4) 0))).
Proof.
  apply (@diagnostics_describe_the_solution float float (scalar_problem 2 4)
           (half_steps 0 100 1.5 0 3 infinity) None 1.5
           (mk_newton_data (Some [0; 1]) (Some [4; 2])
              [0; 1; 1.5] [0; 1; 0.5] [4; 2; 1])).
  vm_compute. reflexivity.
Defined.

Lemma update_measure_accepts_small_guess_witness :
  newton (scalar_problem 2 4) update_params None
  = Ok (0, mk_newton_data None None [0] [0] [4]).
Proof.
  apply (@update_measure_accepts_small_guess float float
           (scalar_problem 2 4) update_params None).
  - reflexivity.
  - simpl. lia.
  - vm_compute. reflexivity.
Defined.

Lemma newton_error_cases_witness :
  newton (scalar_problem 0 1) defaults None
  = Raised (NewtonError Could_not_invert_jacobian).
Proof.
  refine (proj1 (proj2 (proj2 (@newton_error_cases float float
                                 (scalar_problem 0 1) defaults None)
                          (initial_state (scalar_problem 0 1) defaults None)
                          _)) _ _).
  - constructor.
  - vm_compute. reflexivity.
  - vm_compute. reflexivity.
Defined.

Lemma termination_checks_witness :
  check five_params (initial_state (scalar_problem 0 1) five_params None) = None.
Proof.
  apply (proj1 (@termination_checks float float (scalar_problem 0 1) five_params)).
  simpl. lia.
Defined.

End NewtonFacts.
